(** * Verification of the auto-run patch engine (fixes/auto-run-fix/patch.js)

    The development embeds [analyzeFile], [patchFile], [revertFile] and the
    [apply] branch of [main] from patch.js, together with the fragment of
    ECMAScript they rely on: strings as sequences of UTF-16 code units, the
    backtracking regular-expression matcher, [String.prototype.indexOf],
    [substring], [split], [replace], and the enumeration order of
    [Object.entries].

    Modelling conventions.
    - A JavaScript string is a [list N] of code units.
    - The file store maps a path to the text that [readFileSync(p, 'utf8')]
      returns for it; [copyFileSync] copies that text.  Target files are
      taken to be valid UTF-8, so a file's bytes and its text determine each
      other.  Every entry of the store is a regular file that can be read
      and written: a call to [fs] throws only when the file it reads is
      missing.  Faults of the file system on a path that exists (a
      directory in place of a file, missing permissions, a full disk)
      are outside the model.
    - [console.log] is a list of abstract messages (the byte difference
      printed after a patch is left out); calls to [fs] are recorded in a
      trace.
    - [analyzeFile] is split at its step 5 into [extract] (steps 1 to 4,
      with step 4 as [effect_alias]) and [build]. *)

From Stdlib Require Import NArith ZArith List String Ascii Lia Bool.
From stdpp Require Import base option list gmap strings.

Local Open Scope nat_scope.

(** ** Strings of code units *)

Definition lit (s : string) : list N :=
  map N_of_ascii (list_ascii_of_string s).

Fixpoint strip_prefix (p s : list N) : option (list N) :=
  match p with
  | [] => Some s
  | a :: p' =>
      match s with
      | [] => None
      | b :: s' => if N.eqb a b then strip_prefix p' s' else None
      end
  end.

Definition last_char (p : option N) (w : list N) : option N :=
  match last w with
  | Some c => Some c
  | None => p
  end.

(** ** Character classes

    No regular expression of patch.js carries the [i] or [u] flag, so [\w]
    is [[A-Za-z0-9_]] and a class ranges over single code units. *)

Definition is_word (c : N) : bool :=
  ((48 <=? c) && (c <=? 57) || (65 <=? c) && (c <=? 90)
   || (97 <=? c) && (c <=? 122) || (c =? 95))%N.

(** [\s]: WhiteSpace and LineTerminator of ECMA-262. *)
Definition is_space (c : N) : bool :=
  ((9 <=? c) && (c <=? 13) || (c =? 32) || (c =? 160) || (c =? 5760)
   || (8192 <=? c) && (c <=? 8202) || (c =? 8232) || (c =? 8233)
   || (c =? 8239) || (c =? 8287) || (c =? 12288) || (c =? 65279))%N.

Inductive citem :=
| IChr (c : N)
| IWord
| ISpace.

Record cclass := CClass { cneg : bool; citems : list citem }.

Definition in_item (i : citem) (c : N) : bool :=
  match i with
  | IChr d => N.eqb d c
  | IWord => is_word c
  | ISpace => is_space c
  end.

Definition in_class (cl : cclass) (c : N) : bool :=
  xorb (cneg cl) (existsb (fun i => in_item i c) (citems cl)).

(** ** Regular expressions

    The fragment used by patch.js: literals, greedy quantifiers over a
    character class, numbered capture groups, back-references, the word
    boundary assertion and concatenation. *)

Inductive regex :=
| Str (l : list N)
| Rep (cl : cclass) (lo : nat) (hi : option nat)
| Grp (n : nat) (r : regex)
| Bref (n : nat)
| WordB
| Seq (r1 r2 : regex).

Declare Scope regex_scope.
Delimit Scope regex_scope with re.
Bind Scope regex_scope with regex.
Infix "<+>" := Seq (at level 60, right associativity) : regex_scope.

Definition cw : cclass := CClass false [IWord].                 (* \w *)
Definition cs : cclass := CClass false [ISpace].                (* \s *)
Definition cnot (c : N) : cclass := CClass true [IChr c].       (* [^c] *)
Definition cwcomma : cclass := CClass false [IWord; IChr 44%N]. (* [\w,] *)

Definition plus (cl : cclass) : regex := Rep cl 1 None.
Definition star (cl : cclass) : regex := Rep cl 0 None.
Definition range (cl : cclass) (lo hi : nat) : regex := Rep cl lo (Some hi).
Definition S_ (s : string) : regex := Str (lit s).

(** ** The backtracking matcher

    A match state is the code unit before the current position (for [\b]),
    the remaining input and the captures.  The matcher is written in
    continuation-passing style, as in ECMA-262: the continuation is the rest
    of the pattern, and a [None] from it makes the matcher try its next
    alternative. *)

Record mstate := MState {
  prev : option N;
  rest : list N;
  caps : nat -> option (list N)
}.

Definition no_caps : nat -> option (list N) := fun _ => None.

Definition set_cap (n : nat) (w : list N) (c : nat -> option (list N))
  : nat -> option (list N) :=
  fun m => if Nat.eqb m n then Some w else c m.

Definition consumed (s s' : list N) : list N :=
  take (length s - length s') s.

Definition opt_word (o : option N) : bool :=
  match o with
  | Some c => is_word c
  | None => false
  end.

Definition at_boundary (st : mstate) : bool :=
  xorb (opt_word (prev st)) (opt_word (head (rest st))).

Definition room (hi : option nat) : bool :=
  match hi with
  | Some O => false
  | _ => true
  end.

Definition dec (hi : option nat) : option nat :=
  match hi with
  | Some n => Some (pred n)
  | None => None
  end.

Section Matcher.
Context {A : Type}.

Fixpoint rep_match (cl : cclass) (lo : nat) (hi : option nat)
    (p : option N) (s : list N) (k : option N -> list N -> option A)
  : option A :=
  let stop := match lo with O => k p s | S _ => None end in
  match s with
  | x :: t =>
      if in_class cl x && room hi then
        match rep_match cl (pred lo) (dec hi) (Some x) t k with
        | Some a => Some a
        | None => stop
        end
      else stop
  | [] => stop
  end.

Definition lit_match (l : list N) (st : mstate) (k : mstate -> option A)
  : option A :=
  match strip_prefix l (rest st) with
  | Some t => k (MState (last_char (prev st) l) t (caps st))
  | None => None
  end.

Fixpoint run (r : regex) (st : mstate) (k : mstate -> option A)
  : option A :=
  match r with
  | Str l => lit_match l st k
  | Rep cl lo hi =>
      rep_match cl lo hi (prev st) (rest st)
        (fun p t => k (MState p t (caps st)))
  | Grp n r1 =>
      run r1 st (fun st' =>
        k (MState (prev st') (rest st')
                  (set_cap n (consumed (rest st) (rest st')) (caps st'))))
  | Bref n =>
      match caps st n with
      | Some l => lit_match l st k
      | None => k st
      end
  | WordB => if at_boundary st then k st else None
  | Seq r1 r2 => run r1 st (fun st' => run r2 st' k)
  end.
End Matcher.

(** The result of a successful [RegExp.prototype.exec]: the index of the
    match, the matched text and the captures. *)
Record mresult := MResult {
  mindex : nat;
  mtext : list N;
  mcaps : nat -> option (list N)
}.

Definition group (m : mresult) (n : nat) : list N :=
  default [] (mcaps m n).

Definition match_here (r : regex) (p : option N) (s : list N) (i : nat)
  : option mresult :=
  run r (MState p s no_caps)
      (fun st' => Some (MResult i (consumed s (rest st')) (caps st'))).

(** [exec_at r p s i]: leftmost match in [s], which starts at index [i] of
    the whole string and is preceded by [p]. *)
Fixpoint exec_at (r : regex) (p : option N) (s : list N) (i : nat)
  : option mresult :=
  match match_here r p s i with
  | Some m => Some m
  | None =>
      match s with
      | [] => None
      | c :: t => exec_at r (Some c) t (S i)
      end
  end.

(** [s.match(r)] for a regular expression without the [g] flag. *)
Definition re_match (r : regex) (s : list N) : option mresult :=
  exec_at r None s 0.

Definition re_test (r : regex) (s : list N) : bool :=
  bool_decide (is_Some (re_match r s)).

(** [exec] loop of a regular expression with the [g] flag:
    [while ((m = re.exec(s)) !== null) ...].  Each search resumes at
    [lastIndex], the end of the previous match.  An empty match leaves
    [lastIndex] where it was, so the loop would run forever: [None]. *)
Fixpoint exec_loop (r : regex) (p : option N) (s : list N) (i skip : nat)
    {struct s} : option (list mresult) :=
  match skip with
  | S k =>
      match s with
      | [] => Some []
      | c :: t => exec_loop r (Some c) t (S i) k
      end
  | O =>
      match match_here r p s i with
      | Some m =>
          match length (mtext m) with
          | O => None
          | S k =>
              match s with
              | [] => Some [m]
              | c :: t => cons m <$> exec_loop r (Some c) t (S i) k
              end
          end
      | None =>
          match s with
          | [] => Some []
          | c :: t => exec_loop r (Some c) t (S i) 0
          end
      end
  end.

Definition exec_all (r : regex) (s : list N) : option (list mresult) :=
  exec_loop r None s 0 0.

(** ** String methods *)

Fixpoint index_from (needle s : list N) (i : nat) : option nat :=
  match strip_prefix needle s with
  | Some _ => Some i
  | None =>
      match s with
      | [] => None
      | _ :: t => index_from needle t (S i)
      end
  end.

(** [s.indexOf(needle)] *)
Definition indexOf (s needle : list N) : Z :=
  match index_from needle s 0 with
  | Some i => Z.of_nat i
  | None => (-1)%Z
  end.

(** [s.includes(needle)] *)
Definition includes (s needle : list N) : bool :=
  bool_decide (is_Some (index_from needle s 0)).

(** [s.substring(a, b)]: both ends are clamped to [0, length] and swapped
    when out of order. *)
Definition clamp (s : list N) (a : Z) : nat :=
  Z.to_nat (Z.min (Z.max a 0) (Z.of_nat (length s))).

Definition substring (s : list N) (a b : Z) : list N :=
  let from := Nat.min (clamp s a) (clamp s b) in
  let to := Nat.max (clamp s a) (clamp s b) in
  take (to - from) (drop from s).

(** [s.split(sep)]: the pieces between the occurrences of [sep], found from
    left to right without overlap; an empty [sep] splits into code units. *)
Fixpoint split_go (sep s : list N) (skip : nat) (piece : list N)
  : list (list N) :=
  match s with
  | [] => [piece]
  | c :: t =>
      match skip with
      | S k => split_go sep t k piece
      | O =>
          match strip_prefix sep s with
          | Some _ => piece :: split_go sep t (pred (length sep)) []
          | None => split_go sep t 0 (piece ++ [c])
          end
      end
  end.

Definition split (s sep : list N) : list (list N) :=
  match sep with
  | [] => map (fun c => [c]) s
  | _ => split_go sep s 0 []
  end.

(** GetSubstitution of ECMA-262 for a string pattern: there are no captures,
    so [$$], [$&], [$`] and [$'] are the only sequences that are replaced. *)
Fixpoint get_substitution (matched before after templ : list N) : list N :=
  match templ with
  | [] => []
  | c :: t =>
      if N.eqb c 36 then
        match t with
        | d :: t' =>
            if N.eqb d 36 then
              36%N :: get_substitution matched before after t'
            else if N.eqb d 38 then
              matched ++ get_substitution matched before after t'
            else if N.eqb d 96 then
              before ++ get_substitution matched before after t'
            else if N.eqb d 39 then
              after ++ get_substitution matched before after t'
            else c :: get_substitution matched before after t
        | [] => [c]
        end
      else c :: get_substitution matched before after t
  end.

(** [s.replace(pat, repl)] for a string [pat]: the first occurrence only. *)
Definition replace (s pat repl : list N) : list N :=
  match index_from pat s 0 with
  | None => s
  | Some i =>
      let before := take i s in
      let after := drop (i + length pat) s in
      before ++ get_substitution pat before after repl ++ after
  end.

(** ** The regular expressions of patch.js *)

Definition onChangeRe : regex :=
  (Grp 1 (plus cw) <+> S_ "=" <+> Grp 2 (plus cw) <+> S_ "("
   <+> Grp 3 (plus cw) <+> S_ "=>{" <+> plus cw
   <+> S_ "?.setTerminalAutoExecutionPolicy?.(" <+> Bref 3 <+> S_ "),"
   <+> Bref 3 <+> S_ "===" <+> Grp 4 (plus cw) <+> S_ ".EAGER&&"
   <+> Grp 5 (plus cw) <+> S_ "(!0)},[" <+> star cwcomma <+> S_ "])")%re.

(** The alias spliced into the pattern consists of [\w] code units, which
    carry no pattern syntax: it stands for itself. *)
Definition policyRe (enumAlias : list N) : regex :=
  (Grp 1 (plus cw) <+> S_ "=" <+> plus cw
   <+> S_ "?.terminalAutoExecutionPolicy??" <+> Str enumAlias
   <+> S_ ".OFF")%re.

Definition secureRe : regex :=
  (Grp 1 (plus cw) <+> S_ "=" <+> plus cw
   <+> S_ "?.secureModeEnabled??!1")%re.

Definition effectRe : regex :=
  (WordB <+> Grp 1 (range cw 2 3) <+> S_ "(()=>{"
   <+> range (cnot 125) 3 80 <+> S_ "},[")%re.

Definition cleanupRe : regex :=
  (WordB <+> Grp 1 (range cw 2 3) <+> S_ "(()=>{" <+> star (cnot 125)
   <+> S_ "return" <+> star cs <+> S_ "()=>")%re.

Definition existingPatchRe : regex :=
  (S_ "_aep=" <+> plus cw <+> S_ "(()=>{" <+> plus (cnot 125)
   <+> S_ "EAGER" <+> plus (cnot 125) <+> S_ "},[])")%re.

(** ** The tally object [effectCandidates]

    A JavaScript object used as a map from alias to count.  The model keeps
    the properties in creation order; [entries] is [Object.entries], which
    lists the keys that are array indices first, in ascending numeric order,
    and then the other keys in creation order. *)

Definition tally := list (list N * Z).

(** [t[a] = (t[a] || 0) + w] *)
Fixpoint bump (a : list N) (w : Z) (t : tally) : tally :=
  match t with
  | [] => [(a, w)]
  | (b, n) :: t' =>
      if bool_decide (a = b) then (b, (n + w)%Z) :: t'
      else (b, n) :: bump a w t'
  end.

Definition is_digit (c : N) : bool := ((48 <=? c) && (c <=? 57))%N.

Definition digits_value (k : list N) : N :=
  fold_left (fun acc c => (10 * acc + (c - 48))%N) k 0%N.

(** A key is an array index when it is the canonical decimal form of an
    integer below 2^32 - 1. *)
Definition array_index (k : list N) : option N :=
  match k with
  | [] => None
  | c :: t =>
      if forallb is_digit k
         && (negb (N.eqb c 48) || bool_decide (t = []))
         && (digits_value k <? 4294967295)%N
      then Some (digits_value k)
      else None
  end.

Fixpoint insert_idx {A} (e : N * A) (l : list (N * A)) : list (N * A) :=
  match l with
  | [] => [e]
  | x :: l' => if (e.1 <? x.1)%N then e :: l else x :: insert_idx e l'
  end.

Definition index_entries (t : tally) : list (N * (list N * Z)) :=
  omap (fun e => (fun v => (v, e)) <$> array_index e.1) t.

Definition entries (t : tally) : tally :=
  map snd (foldr insert_idx [] (index_entries t))
  ++ List.filter (fun e => bool_decide (array_index e.1 = None)) t.

(** ** analyzeFile *)

Inductive msg :=
| LogNoOnChange (label : string)
| LogFound (label : string) (offset : Z)
| LogNames (callback enum confirm : list N)
| LogNoPolicy (label : string)
| LogPolicy (v : list N)
| LogNoSecure (label : string)
| LogSecure (v : list N)
| LogNoEffect (label : string)
| LogEffect (alias : list N) (hits : Z)
| LogFileNotFound (label path : string)
| LogAlreadyPatched (label : string)
| LogAmbiguous (label : string) (count : Z)
| LogBackup (label : string)
| LogPatched (label : string)
| LogNoBackup (label : string)
| LogRestored (label : string)
| LogDone
| LogSomeFailed
| LogRestoredAll.

(** The constants that [analyzeFile] derives before it builds the patch. *)
Record symbols := Symbols {
  fullMatch : list N;
  assignVar : list N;
  callbackAlias : list N;
  argName : list N;
  enumAlias : list N;
  confirmFn : list N;
  policyVar : list N;
  secureVar : list N;
  useEffectAlias : list N
}.

Record analysis := Analysis {
  target : list N;
  replacement : list N;
  patchMarker : list N;
  alabel : string
}.

Definition effect_step (callback : list N) (t : tally) (m : mresult)
  : tally :=
  let alias := group m 1 in
  if bool_decide (alias <> callback) && bool_decide (alias <> lit "var")
     && bool_decide (alias <> lit "new")
  then bump alias 1 t
  else t.

Definition cleanup_step (callback : list N) (t : tally) (m : mresult)
  : tally :=
  let alias := group m 1 in
  if bool_decide (alias <> callback) then bump alias 5 t else t.

Definition pick_step (acc : option (list N) * Z) (e : list N * Z)
  : option (list N) * Z :=
  if (e.2 >? acc.2)%Z then (Some e.1, e.2) else acc.

(** The loop [for (const [alias, count] of Object.entries(...))], from
    [useEffectAlias = null] and [maxCount = 0]. *)
Definition pick (t : tally) : option (list N) * Z :=
  fold_left pick_step (entries t) (None, 0%Z).

(** Step 4 of [analyzeFile]: the two [exec] loops that fill the tally and
    the loop that picks [useEffectAlias] and [maxCount].  [None] when one of
    the [exec] loops does not terminate. *)
Definition effect_alias (content : list N) (matchIndex : Z)
    (callbackAlias : list N) : option (option (list N) * Z) :=
  let nearbyCode :=
    substring content (Z.max 0 (matchIndex - 5000)) (matchIndex + 5000) in
  ms1 ← exec_all effectRe nearbyCode;
  ms2 ← exec_all cleanupRe content;
  let effectCandidates :=
    fold_left (cleanup_step callbackAlias) ms2
      (fold_left (effect_step callbackAlias) ms1 []) in
  Some (pick effectCandidates).

(** Steps 1 to 4 of [analyzeFile]. *)
Definition extract (content : list N) (label : string)
  : option (list msg * option symbols) :=
  match re_match onChangeRe content with
  | None => Some ([LogNoOnChange label], None)
  | Some m =>
      let fullMatch := mtext m in
      let assignVar := group m 1 in
      let callbackAlias := group m 2 in
      let argName := group m 3 in
      let enumAlias := group m 4 in
      let confirmFn := group m 5 in
      let matchIndex := indexOf content fullMatch in
      let log1 := [LogFound label matchIndex;
                   LogNames callbackAlias enumAlias confirmFn] in
      let before :=
        substring content (Z.max 0 (matchIndex - 2000)) matchIndex in
      match re_match (policyRe enumAlias) before with
      | None => Some (log1 ++ [LogNoPolicy label], None)
      | Some pm =>
          let policyVar := group pm 1 in
          let log2 := log1 ++ [LogPolicy policyVar] in
          match re_match secureRe before with
          | None => Some (log2 ++ [LogNoSecure label], None)
          | Some sm =>
              let secureVar := group sm 1 in
              let log3 := log2 ++ [LogSecure secureVar] in
              match effect_alias content matchIndex callbackAlias with
              | None => None
              | Some (Some (c :: a), maxCount) =>
                  Some (log3 ++ [LogEffect (c :: a) maxCount],
                        Some (Symbols fullMatch assignVar callbackAlias
                                argName enumAlias confirmFn policyVar
                                secureVar (c :: a)))
              | Some _ => Some (log3 ++ [LogNoEffect label], None)
              end
          end
      end
  end.

Definition patchCode (s : symbols) : list N :=
  lit "_aep=" ++ useEffectAlias s ++ lit "(()=>{" ++ policyVar s
  ++ lit "===" ++ enumAlias s ++ lit ".EAGER&&!" ++ secureVar s
  ++ lit "&&" ++ confirmFn s ++ lit "(!0)},[]),".

Definition marker (s : symbols) : list N :=
  lit "_aep=" ++ useEffectAlias s ++ lit "(()=>{" ++ policyVar s
  ++ lit "===" ++ enumAlias s ++ lit ".EAGER".

(** Step 5 of [analyzeFile]: the returned object. *)
Definition build (s : symbols) (label : string) : analysis :=
  Analysis (fullMatch s) (patchCode s ++ fullMatch s) (marker s) label.

Definition analyzeFile (content : list N) (label : string)
  : option (list msg * option analysis) :=
  match extract content label with
  | Some (log, r) => Some (log, (fun s => build s label) <$> r)
  | None => None
  end.

(** ** The file system and the console

    [files] maps a path to the text of the file there, [trace] records the
    calls to [fs] in order and [out] the lines printed.  A computation
    returns [None] when it does not return normally: an uncaught exception
    of [fs] (a missing source file) or a loop that never ends. *)

Inductive fsop :=
| OpExists (p : string)
| OpRead (p : string)
| OpCopy (src dst : string)
| OpWrite (p : string) (data : list N)
| OpStat (p : string)
| OpExistsUndefined.                   (* fs.existsSync(undefined) *)

Record world := World {
  files : gmap string (list N);
  trace : list fsop;
  out : list msg
}.

Definition io (A : Type) : Type := world -> option (A * world).

Definition ret {A} (a : A) : io A := fun w => Some (a, w).

Definition bind {A B} (m : io A) (f : A -> io B) : io B :=
  fun w =>
    match m w with
    | Some (a, w') => f a w'
    | None => None
    end.

Notation "x <- m ; k" := (bind m (fun x => k))
  (at level 20, m at level 100, k at level 200, only parsing).
Notation "m ;;; k" := (bind m (fun _ => k))
  (at level 100, k at level 200, right associativity, only parsing).

Definition record (o : fsop) (w : world) : world :=
  World (files w) (trace w ++ [o]) (out w).

Definition existsSync (p : string) : io bool :=
  fun w => Some (bool_decide (is_Some (files w !! p)), record (OpExists p) w).

Definition readFileSync (p : string) : io (list N) :=
  fun w =>
    match files w !! p with
    | Some c => Some (c, record (OpRead p) w)
    | None => None
    end.

Definition copyFileSync (src dst : string) : io unit :=
  fun w =>
    match files w !! src with
    | Some c =>
        Some (tt, World (<[dst := c]> (files w))
                        (trace w ++ [OpCopy src dst]) (out w))
    | None => None
    end.

Definition writeFileSync (p : string) (data : list N) : io unit :=
  fun w =>
    Some (tt, World (<[p := data]> (files w))
                    (trace w ++ [OpWrite p data]) (out w)).

Definition statSync (p : string) : io unit :=
  fun w =>
    match files w !! p with
    | Some _ => Some (tt, record (OpStat p) w)
    | None => None
    end.

Definition log (m : msg) : io unit :=
  fun w => Some (tt, World (files w) (trace w) (out w ++ [m])).

Definition logs (ms : list msg) : io unit :=
  fun w => Some (tt, World (files w) (trace w) (out w ++ ms)).

Definition bak (filePath : string) : string := filePath +:+ ".bak".

(** ** patchFile, revertFile and main *)

Section Apply.
(** The analysis is a parameter, so that the fields of its result that
    [patchFile] reads can be told from those it does not;
    [patchFile] below is the instance at [analyzeFile]. *)
Variable analyze : list N -> string -> option (list msg * option analysis).

Definition run_analysis (content : list N) (label : string)
  : io (option analysis) :=
  fun w =>
    match analyze content label with
    | Some (l, r) => (logs l ;;; ret r) w
    | None => None
    end.

Definition patchFile_with (filePath label : string) : io bool :=
  present <- existsSync filePath;
  if negb present then
    log (LogFileNotFound label filePath) ;;; ret false
  else
    content <- readFileSync filePath;
    if includes content (lit "_aep=")
       && re_test existingPatchRe content
    then log (LogAlreadyPatched label) ;;; ret true
    else
      r <- run_analysis content label;
      match r with
      | None => ret false
      | Some a =>
          let count :=
            (Z.of_nat (length (split content (target a))) - 1)%Z in
          if bool_decide (count <> 1%Z) then
            log (LogAmbiguous label count) ;;; ret false
          else
            saved <- existsSync (bak filePath);
            (if negb saved then
               copyFileSync filePath (bak filePath) ;;;
               log (LogBackup label)
             else ret tt) ;;;
            let patched := replace content (target a) (replacement a) in
            writeFileSync filePath patched ;;;
            statSync filePath ;;;
            statSync (bak filePath) ;;;
            log (LogPatched label) ;;;
            ret true
      end.
End Apply.

Definition patchFile : string -> string -> io bool :=
  patchFile_with analyzeFile.

Definition revertFile (filePath label : string) : io unit :=
  saved <- existsSync (bak filePath);
  if negb saved then log (LogNoBackup label)
  else copyFileSync (bak filePath) filePath ;;; log (LogRestored label).

(** [Array.prototype.every]: stops at the first element for which the
    callback returns a falsy value. *)
Fixpoint every {A} (f : A -> io bool) (l : list A) : io bool :=
  match l with
  | [] => ret true
  | x :: t => b <- f x; if b then every f t else ret false
  end.

(** [Array.prototype.forEach] *)
Fixpoint forEach {A} (f : A -> io unit) (l : list A) : io unit :=
  match l with
  | [] => ret tt
  | x :: t => f x ;;; forEach f t
  end.

Record target_file := TargetFile { tpath : string; tlabel : string }.

(** The [apply] and [revert] cases of the [switch] that ends [main]. *)
Definition main_apply (fs : list target_file) : io unit :=
  ok <- every (fun f => patchFile (tpath f) (tlabel f)) fs;
  log (if ok then LogDone else LogSomeFailed).

Definition main_revert (fs : list target_file) : io unit :=
  forEach (fun f => revertFile (tpath f) (tlabel f)) fs ;;;
  log LogRestoredAll.

(** Neither case calls [process.exit] or assigns [process.exitCode]: when
    [main] returns, the process ends with exit code 0. *)
Definition exit_code (m : io unit) (w : world) : option Z :=
  match m w with
  | Some _ => Some 0%Z
  | None => None
  end.

(** ** Declarative reading of a pattern

    [matches r st st']: read from state [st], the pattern [r] can consume
    input up to [st'].  The relation ignores the order in which the
    backtracking matcher tries the alternatives. *)

Definition fits (n : nat) (hi : option nat) : Prop :=
  match hi with
  | Some h => n <= h
  | None => True
  end.

Inductive matches : regex -> mstate -> mstate -> Prop :=
| M_Str l st t :
    strip_prefix l (rest st) = Some t ->
    matches (Str l) st (MState (last_char (prev st) l) t (caps st))
| M_Rep cl lo hi st w t :
    rest st = w ++ t ->
    Forall (fun c => in_class cl c = true) w ->
    lo <= length w ->
    fits (length w) hi ->
    matches (Rep cl lo hi) st (MState (last_char (prev st) w) t (caps st))
| M_Grp n r st st' :
    matches r st st' ->
    matches (Grp n r) st
      (MState (prev st') (rest st')
              (set_cap n (consumed (rest st) (rest st')) (caps st')))
| M_BrefSome n l st t :
    caps st n = Some l ->
    strip_prefix l (rest st) = Some t ->
    matches (Bref n) st (MState (last_char (prev st) l) t (caps st))
| M_BrefNone n st :
    caps st n = None ->
    matches (Bref n) st st
| M_WordB st :
    at_boundary st = true ->
    matches WordB st st
| M_Seq r1 r2 st st1 st2 :
    matches r1 st st1 ->
    matches r2 st1 st2 ->
    matches (Seq r1 r2) st st2.

(** [r] matches in [s] at index [i], consuming [w] and leaving captures
    [c]. *)
Definition matches_at (r : regex) (s : list N) (i : nat) (w : list N)
    (c : nat -> option (list N)) : Prop :=
  exists pre post,
    s = pre ++ w ++ post /\ length pre = i /\
    matches r (MState (last pre) (w ++ post) no_caps)
              (MState (last_char (last pre) w) post c).

(** Least number of code units a match of [r] consumes. *)
Fixpoint min_len (r : regex) : nat :=
  match r with
  | Str l => length l
  | Rep _ lo _ => lo
  | Grp _ r1 => min_len r1
  | Bref _ => 0
  | WordB => 0
  | Seq r1 r2 => min_len r1 + min_len r2
  end.

(** A non-empty string of [\w] code units. *)
Definition word_token (l : list N) : Prop :=
  l <> [] /\ Forall (fun c => is_word c = true) l.

(** Syntactic conditions on a pattern, used to read off facts about its
    captures: every group is a quantified [\w] of at least one code unit;
    group [n] is set by every match; every code unit a match consumes
    satisfies [P]. *)
Fixpoint groups_word (r : regex) : Prop :=
  match r with
  | Grp _ (Rep cl lo _) => cl = cw /\ 1 <= lo
  | Grp _ _ => False
  | Seq r1 r2 => groups_word r1 /\ groups_word r2
  | _ => True
  end.

Fixpoint binds (r : regex) (n : nat) : bool :=
  match r with
  | Grp m r1 => Nat.eqb n m || binds r1 n
  | Seq r1 r2 => binds r1 n || binds r2 n
  | _ => false
  end.

Fixpoint alphabet (P : N -> bool) (r : regex) : Prop :=
  match r with
  | Str l => forallb P l = true
  | Rep cl _ _ => forall c, in_class cl c = true -> P c = true
  | Grp _ r1 => alphabet P r1
  | Seq r1 r2 => alphabet P r1 /\ alphabet P r2
  | _ => True
  end.

Definition caps_all (Q : list N -> Prop) (c : nat -> option (list N))
  : Prop :=
  forall n w, c n = Some w -> Q w.

(** ** Selection of the scheduling hook

    [hits r s] lists the aliases that the [exec] loop of the code meets in
    [s]; [scan] below tells which matches these are.  An alias is weighed
    by the matches kept for it; [best] returns the alias of highest
    positive weight, the first one in [order] on a tie. *)

Definition occurs (r : regex) (s : list N) : Prop :=
  exists i w c, matches_at r s i w c.

Definition hits (r : regex) (s : list N) : list (list N) :=
  map (fun m => group m 1) (default [] (exec_all r s)).

Definition nearby (content : list N) (matchIndex : Z) : list N :=
  substring content (Z.max 0 (matchIndex - 5000)) (matchIndex + 5000).

(** The matches that a loop over [exec] visits, told without the loop.
    [scan r p s l]: [l] lists the aliases (capture 1) of the successive
    matches of [r] in [s], where [p] is the code unit before [s].  Each
    match is the leftmost one in what is left of the text and the longest
    one at its start; the search then resumes at its end, so that a match
    which starts inside an earlier one is not listed. *)
Inductive scan (r : regex) : option N -> list N -> list (list N) -> Prop :=
| scan_end p s :
    (forall pre s' st', s = pre ++ s' ->
       ~ matches r (MState (last_char p pre) s' no_caps) st') ->
    scan r p s []
| scan_next p pre w post c l :
    (forall pre' s' st',
       pre ++ w ++ post = pre' ++ s' -> length pre' < length pre ->
       ~ matches r (MState (last_char p pre') s' no_caps) st') ->
    matches r (MState (last_char p pre) (w ++ post) no_caps)
              (MState (last_char (last_char p pre) w) post c) ->
    (forall st',
       matches r (MState (last_char p pre) (w ++ post) no_caps) st' ->
       length post <= length (rest st')) ->
    scan r (last_char (last_char p pre) w) post l ->
    scan r p (pre ++ w ++ post) (default [] (c 1) :: l).

(** The aliases of all the occurrences of [r] in [s], one for each index
    at which [r] matches, whether or not they overlap. *)
Fixpoint occurrences (r : regex) (p : option N) (s : list N)
  : list (list N) :=
  match match_here r p s 0 with
  | Some m => [group m 1]
  | None => []
  end
  ++ match s with
     | [] => []
     | c :: t => occurrences r (Some c) t
     end.

(** At a given start the matcher takes a longest match, and every match
    there captures the same alias. *)
Definition takes_longest (r : regex) : Prop :=
  forall p s i m st',
    match_here r p s i = Some m ->
    matches r (MState p s no_caps) st' ->
    length s <= length (mtext m) + length (rest st').

Definition one_alias (r : regex) : Prop :=
  forall st st1 st2,
    matches r st st1 -> matches r st st2 -> caps st1 1 = caps st2 1.

Definition occ (a : list N) (l : list (list N)) : Z :=
  Z.of_nat (length (List.filter (fun b => bool_decide (b = a)) l)).

Definition first_seen (l : list (list N)) : list (list N) :=
  fold_left (fun acc a => if bool_decide (a ∈ acc) then acc else acc ++ [a])
            l [].

Fixpoint best (W : list N -> Z) (order : list (list N))
  : option (list N) :=
  match order with
  | [] => None
  | a :: t =>
      match best W t with
      | Some b => if (W b <=? W a)%Z then Some a else Some b
      | None => if (0 <? W a)%Z then Some a else None
      end
  end.

Definition weight (c1 c5 : list (list N)) (a : list N) : Z :=
  (occ a c1 + 5 * occ a c5)%Z.

(** Which aliases each loop of the code tallies. *)
Definition keep_effect (callback a : list N) : bool :=
  bool_decide (a <> callback) && bool_decide (a <> lit "var")
  && bool_decide (a <> lit "new").

Definition keep_cleanup (callback a : list N) : bool :=
  bool_decide (a <> callback).

(** The selection as the specification words it: every occurrence of a
    shape counts, only the wrapping-function alias is left out, and ties go
    to the alias discovered first. *)
Definition select_as_specified (content : list N) (matchIndex : Z)
    (callbackAlias : list N) : option (list N) :=
  let keep := fun a => bool_decide (a <> callbackAlias) in
  let c1 :=
    List.filter keep (occurrences effectRe None (nearby content matchIndex)) in
  let c5 := List.filter keep (occurrences cleanupRe None content) in
  best (weight c1 c5) (first_seen (c1 ++ c5)).

(** Array-index keys in ascending numeric order, then the others in the
    order given. *)
Definition enum_order (l : list (list N)) : list (list N) :=
  map snd (foldr insert_idx []
             (omap (fun a => (fun v => (v, a)) <$> array_index a) l))
  ++ List.filter (fun a => bool_decide (array_index a = None)) l.

(** The selection as the code makes it: the window tally also leaves out
    the words [var] and [new], and ties go to the alias enumerated first. *)
Definition window_candidates (content : list N) (matchIndex : Z)
    (callbackAlias : list N) : list (list N) :=
  List.filter (keep_effect callbackAlias)
              (hits effectRe (nearby content matchIndex)).

Definition cleanup_candidates (content : list N) (callbackAlias : list N)
  : list (list N) :=
  List.filter (keep_cleanup callbackAlias) (hits cleanupRe content).

Definition hook_weight (content : list N) (matchIndex : Z)
    (callbackAlias : list N) (a : list N) : Z :=
  weight (window_candidates content matchIndex callbackAlias)
         (cleanup_candidates content callbackAlias) a.

Definition select_amended (content : list N) (matchIndex : Z)
    (callbackAlias : list N) : option (list N) :=
  best (hook_weight content matchIndex callbackAlias)
       (enum_order
          (first_seen (window_candidates content matchIndex callbackAlias
                       ++ cleanup_candidates content callbackAlias))).

(** The tally after a list of increments, and the sum of the increments of
    one alias. *)
Definition bump_all (incs : list (list N * Z)) (t : tally) : tally :=
  fold_left (fun t e => bump e.1 e.2 t) incs t.

Definition total (a : list N) (incs : list (list N * Z)) : Z :=
  fold_right (fun e acc => if bool_decide (e.1 = a) then (e.2 + acc)%Z else acc)
             0%Z incs.

(** ** Vocabulary of the extraction properties *)

(** The text searched for the policy and secure-mode variables: up to 2000
    code units before the match [m]. *)
Definition before (content : list N) (m : mresult) : list N :=
  substring content (Z.max 0 (indexOf content (mtext m) - 2000))
            (indexOf content (mtext m)).

Definition has_policy (content : list N) : Prop :=
  exists m, re_match onChangeRe content = Some m /\
            occurs (policyRe (group m 4)) (before content m).

Definition has_secure (content : list N) : Prop :=
  exists m, re_match onChangeRe content = Some m /\
            occurs secureRe (before content m).

(** The tally that the code fills is not empty. *)
Definition has_candidate (content : list N) : Prop :=
  exists m, re_match onChangeRe content = Some m /\
    window_candidates content (indexOf content (mtext m)) (group m 2)
    ++ cleanup_candidates content (group m 2) <> [].

(** A scheduling-hook candidate as the specification words it: a call in
    effect shape in the window, or in cleanup shape in the file, whose
    alias is not the wrapping function's. *)
Definition hook_call (content : list N) : Prop :=
  exists m i w c a,
    re_match onChangeRe content = Some m /\
    (matches_at effectRe (nearby content (indexOf content (mtext m))) i w c
     \/ matches_at cleanupRe content i w c) /\
    c 1 = Some a /\ a <> group m 2.

(** A candidate that counts: the alias of one of the successive matches of
    the effect shape in the window that is not the wrapping function's,
    [var] or [new], or of one of the successive matches of the cleanup
    shape in the file that is not the wrapping function's. *)
Definition counted_candidate (content : list N) : Prop :=
  exists m c1 c5 a,
    re_match onChangeRe content = Some m /\
    scan effectRe None (nearby content (indexOf content (mtext m))) c1 /\
    scan cleanupRe None content c5 /\
    (a ∈ c1 /\ a <> group m 2 /\ a <> lit "var" /\ a <> lit "new"
     \/ a ∈ c5 /\ a <> group m 2).

Definition all_tokens (s : symbols) : Prop :=
  word_token (assignVar s) /\ word_token (callbackAlias s) /\
  word_token (argName s) /\ word_token (enumAlias s) /\
  word_token (confirmFn s) /\ word_token (policyVar s) /\
  word_token (secureVar s) /\ word_token (useEffectAlias s).

(** The symbols [extract] returns when every stage succeeds. *)
Definition symbols_of (content : list N) (m pm sm : mresult) (hook : list N)
  : symbols :=
  Symbols (mtext m) (group m 1) (group m 2) (group m 3) (group m 4)
          (group m 5) (group pm 1) (group sm 1) hook.

(** ** Vocabulary of the file-level properties *)

(** The test that makes [patchFile] report "Already patched". *)
Definition already_patched (content : list N) : bool :=
  includes content (lit "_aep=") && re_test existingPatchRe content.

(** [content.split(tgt).length - 1] *)
Definition count_of (content tgt : list N) : Z :=
  (Z.of_nat (length (split content tgt)) - 1)%Z.

Definition is_write (p : string) (o : fsop) : Prop :=
  match o with
  | OpWrite q _ => q = p
  | OpCopy _ q => q = p
  | _ => False
  end.

(** File-system calls made and lines printed between two worlds. *)
Definition new_trace (w w' : world) : list fsop :=
  drop (length (trace w)) (trace w').

Definition new_out (w w' : world) : list msg :=
  drop (length (out w)) (out w').

(** The live file is changed from outside between two runs: given a new
    text, or removed. *)
Definition edit (p : string) (c : option (list N)) (w : world) : world :=
  World (match c with
         | Some t => <[p := t]> (files w)
         | None => delete p (files w)
         end) (trace w) (out w).

(** Runs of [patchFile] on one path, the live file being changed before each
    run. *)
Fixpoint reapply (p label : string) (edits : list (option (list N)))
    (w : world) : option world :=
  match edits with
  | [] => Some w
  | c :: t =>
      match patchFile p label (edit p c w) with
      | Some (_, w') => reapply p label t w'
      | None => None
      end
  end.

(** Every write to the live file comes after a check that the backup
    exists. *)
Definition write_after_check (p : string) (tr : list fsop) : Prop :=
  forall i d, tr !! i = Some (OpWrite p d) ->
    exists j, j < i /\ tr !! j = Some (OpExists (bak p)).

(** The structural shape matches at index [i]. *)
Definition shape_at (content : list N) (i : nat) : Prop :=
  exists w c, matches_at onChangeRe content i w c.

(** The text [t] occurs in [s] at index [i]. *)
Definition occurs_at (s t : list N) (i : nat) : Prop :=
  exists pre post, s = pre ++ t ++ post /\ length pre = i.

(** The matched text of the leftmost match occurs nowhere else. *)
Definition unique_target (content : list N) : Prop :=
  exists m, re_match onChangeRe content = Some m /\
            forall i, occurs_at content (mtext m) i -> i = mindex m.

(** All the indices at which [t] occurs in [s], counted from [k]. *)
Fixpoint positions (t s : list N) (k : nat) : list nat :=
  match strip_prefix t s with
  | Some _ => [k]
  | None => []
  end
  ++ match s with
     | [] => []
     | _ :: s' => positions t s' (S k)
     end.

(** [analyzeFile] with the [patchMarker] of its result rewritten by [g]. *)
Definition with_marker (g : list N -> list N) (a : analysis) : analysis :=
  Analysis (target a) (replacement a) (g (patchMarker a)) (alabel a).

Definition analyze_marked (g : list N -> list N) (content : list N)
    (label : string) : option (list msg * option analysis) :=
  match analyzeFile content label with
  | Some (l, r) => Some (l, with_marker g <$> r)
  | None => None
  end.

(** ** Sample texts *)

(** The example scenario of the specification. *)
Definition sample_shape : list N :=
  lit "y=Mt(_=>{h?.setTerminalAutoExecutionPolicy?.(_),_===Dhe.EAGER&&b(!0)},[])".

Definition sample_context : list N :=
  lit "u=h?.terminalAutoExecutionPolicy??Dhe.OFF,d=h?.secureModeEnabled??!1,".

Definition sample_hook : list N :=
  lit "k=mn(()=>{foo();return ()=>{bar()}},[a]),".

Definition sample_text : list N :=
  sample_context ++ sample_hook ++ sample_shape ++ lit ",z=1".

(** A second handler of the same shape, with other names. *)
Definition other_shape : list N :=
  lit "q=Mt(e=>{h?.setTerminalAutoExecutionPolicy?.(e),e===Dhe.EAGER&&b(!0)},[])".

Definition two_shapes : list N :=
  sample_context ++ sample_hook ++ sample_shape ++ lit "," ++ other_shape.

(** The same handler twice, with and without its context. *)
Definition twice_bare : list N := sample_shape ++ lit "," ++ sample_shape.

Definition twice_text : list N :=
  sample_context ++ sample_hook ++ sample_shape ++ lit "," ++ sample_shape.

(** The same, after the patch has been inserted once. *)
Definition twice_patched : list N :=
  sample_context ++ sample_hook
  ++ lit "_aep=mn(()=>{u===Dhe.EAGER&&!d&&b(!0)},[]),"
  ++ sample_shape ++ lit "," ++ sample_shape.

(** The only call in effect shape is spelled [var]. *)
Definition var_text : list N :=
  sample_context ++ lit "var(()=>{tick()},[])," ++ sample_shape.

(** Two effect calls, the second with an alias made of digits. *)
Definition digits_text : list N :=
  sample_context ++ lit "ab(()=>{tick()},[]),12(()=>{tock()},[]),"
  ++ sample_shape.

(** An effect call inside the body of another, and the inner alias once
    more after it. *)
Definition overlap_text : list N :=
  sample_context
  ++ lit "zz(()=>{q=[ab(()=>{abc},[a])]},[]),ab(()=>{tick()},[]),"
  ++ sample_shape.

(** A text that was not produced by the patch but passes its test. *)
Definition foreign_text : list N := lit "x;_aep=f(()=>{aEAGERb},[]);y".

Definition one_file (p : string) (c : list N) : world :=
  World {[ p := c ]} [] [].

Definition two_files (p : string) (c : list N) (q : string) (d : list N)
  : world :=
  World (<[ q := d ]> {[ p := c ]}) [] [].

(** The matched text of the leftmost match occurs at two indices. *)
Definition twice_verbatim (content : list N) : Prop :=
  exists m i j,
    re_match onChangeRe content = Some m /\ i <> j /\
    occurs_at content (mtext m) i /\ occurs_at content (mtext m) j.

(** The pattern without its last element, and that element. *)
Fixpoint split_last (r : regex) : option (regex * regex) :=
  match r with
  | Seq r1 r2 =>
      match split_last r2 with
      | Some (i, f) => Some (Seq r1 i, f)
      | None => Some (r1, r2)
      end
  | _ => None
  end.

(** The pattern has no [\b]: whether it matches depends on the code units
    it consumes and on nothing around them. *)
Fixpoint no_boundary (r : regex) : Prop :=
  match r with
  | WordB => False
  | Grp _ r1 => no_boundary r1
  | Seq r1 r2 => no_boundary r1 /\ no_boundary r2
  | _ => True
  end.

Definition sample_world : world := one_file "main.js" sample_text.

Definition backed_up_world : world :=
  two_files "main.js" sample_text "main.js.bak" (lit "original").

Definition twice_world : world := one_file "main.js" twice_text.

Definition twice_bare_world : world := one_file "main.js" twice_bare.

Definition twice_patched_world : world := one_file "main.js" twice_patched.

Definition foreign_world : world := one_file "main.js" foreign_text.

(** The two target files of an installation under [/opt/antigravity]. *)
Definition workbench_js : string :=
  "/opt/antigravity/resources/app/out/vs/workbench/workbench.desktop.main.js".

Definition jetski_js : string :=
  "/opt/antigravity/resources/app/out/jetskiAgent/main.js".

Definition both_targets : list target_file :=
  [TargetFile workbench_js "workbench"; TargetFile jetski_js "jetskiAgent"].

(** An installation whose workbench bundle no longer has the structural
    shape, while the second bundle can be patched. *)
Definition drifted_text : list N := lit "function f(){return 1}".

Definition drifted_install : world :=
  two_files workbench_js drifted_text jetski_js sample_text.

(** * The rest of patch.js, and the command line

    [checkFile], [getVersion], the detection of the installation and [main]
    of patch.js, and the dispatcher cli.js.

    Modelling conventions.
    - Paths, command-line arguments and the values of [process] are Rocq
      strings.  A string is truthy when it is not empty.
    - What the program takes from its host (the platform name, the
      functions of [path], the environment, the answers of the registry and
      of [JSON.parse]) is collected in a record [host]; nothing is assumed
      about its fields.
    - [process.exit(n)] ends the run: [main] and [cli] return the exit
      status, 0 when they come to their end.
    - [fs.existsSync] never throws, and the functions of [path] do not throw
      on strings, so the [try] blocks around them have no [catch] case.
    - A path exists when the store has an entry for it.  The program tests
      directories for existence only through the files under them, and it
      reads and copies nothing but the files it has tested.
    - A computation has no result when an exception of [fs] ends it; what
      is said of a run is said of a run that returns or that the program
      ends itself with [process.exit]. *)

(** ** checkFile *)

Definition checkRe : regex :=
  (S_ "_aep=" <+> plus cw <+> S_ "(()=>{" <+> plus (cnot 125)
   <+> S_ "EAGER")%re.

(** The lines that [checkFile], [main] and cli.js print, one constructor
    for each call of [console.log]. *)
Inductive note :=
| Blank
| BannerTop
| BannerTitle
| BannerBottom
| BadPath (explicitPath : string)
| ExpectedToFind
| NotInstalled
| TryOneOf
| TryInstallDir
| TryInstallDirCommand
| TryExplicit
| TryExplicitCommand
| Location (basePath : string)
| Version (v : string)
| CheckNotFound (label : string)
| CheckPatched (label : string) (hasBak : bool)
| CheckPatchable (label : string)
| CheckIncompatible (label : string)
| CliTitle
| CliUrl
| CliAvailableFixes
| CliFix (name description : string)
| CliUsage
| CliUsageApply
| CliUsageCheck
| CliUsageRevert
| CliUnknownFix (fixName : string)
| CliAvailable (names : list string)
| CliScriptNotFound (script : option string).

(** A line of the console: one of the messages of [analyzeFile],
    [patchFile] and [revertFile], or one of the lines above. *)
Inductive line :=
| Said (m : msg)
| Noted (n : note).

(** The state of a whole run: the file store, the calls to [fs] and the
    console. *)
Record process := Process {
  disk : gmap string (list N);
  calls : list fsop;
  console : list line
}.

Definition act (A : Type) : Type := process -> option (A * process).

Definition done {A} (a : A) : act A := fun s => Some (a, s).

Definition andThen {A B} (m : act A) (f : A -> act B) : act B :=
  fun s =>
    match m s with
    | Some (a, s') => f a s'
    | None => None
    end.

Notation "x <~ m ; k" := (andThen m (fun x => k))
  (at level 20, m at level 100, k at level 200, only parsing).
Notation "m ;;~ k" := (andThen m (fun _ => k))
  (at level 100, k at level 200, right associativity, only parsing).

(** A computation on [world] run inside a [process]: the lines it prints go
    to the console. *)
Definition lift {A} (m : io A) : act A :=
  fun s =>
    match m (World (disk s) (calls s) []) with
    | Some (a, w) =>
        Some (a, Process (files w) (trace w) (console s ++ map Said (out w)))
    | None => None
    end.

Definition say (n : note) : act unit :=
  fun s => Some (tt, Process (disk s) (calls s) (console s ++ [Noted n])).

Definition say_all (ns : list note) : act unit :=
  fun s => Some (tt, Process (disk s) (calls s) (console s ++ map Noted ns)).

Definition checkFile (filePath label : string) : act bool :=
  present <~ lift (existsSync filePath);
  if negb present then
    say (CheckNotFound label) ;;~ done false
  else
    content <~ lift (readFileSync filePath);
    let patched :=
      includes content (lit "_aep=") && re_test checkRe content in
    hasBak <~ lift (existsSync (bak filePath));
    (if patched then say (CheckPatched label hasBak)
     else
       analysis <~ lift (run_analysis analyzeFile content label);
       match analysis with
       | Some _ => say (CheckPatchable label)
       | None => say (CheckIncompatible label)
       end) ;;~
    done patched.

(** [Array.prototype.forEach] with a callback whose result is dropped. *)
Fixpoint forEach_ {A B} (f : A -> act B) (l : list A) : act unit :=
  match l with
  | [] => done tt
  | x :: t => f x ;;~ forEach_ f t
  end.

(** ** The host *)

Record host := Host {
  platform : string;                         (* process.platform *)
  path_join : string -> list string -> string;   (* path.join(dir, ...) *)
  path_dirname : string -> string;           (* path.dirname *)
  path_resolve : string -> string;           (* path.resolve *)
  env : string -> option string;             (* process.env *)
  homedir : string;                          (* os.homedir() *)
  cwd : string;                              (* process.cwd() *)
  cwd_root : string;                         (* path.parse(cwd).root *)
  (* (process.env.PATH || '').split(path.delimiter) *)
  pathDirs : list string;
  (* the directory read from the InstallLocation value of a registry key:
     the output of [reg query], matched and trimmed; nothing when the query
     throws or its output has no such value *)
  installLocation : string -> option string;
  (* whether JSON.parse accepts a text *)
  json_valid : list N -> bool;
  (* the template [`${pkg.version} (IDE ${product.ideVersion})`] on the
     texts of two JSON files; nothing when evaluating it throws *)
  version_line : list N -> list N -> option string;
  (* path.join(__dirname, 'fixes', 'auto-run-fix', 'patch.js') in cli.js *)
  fix_script : string
}.

Definition truthy (s : string) : bool := bool_decide (s <> "").

(** [x || ''] for a variable of the environment *)
Definition or_empty (o : option string) : string :=
  match o with
  | Some s => s
  | None => ""
  end.

(** ** Installation detection *)

Definition workbench_of (h : host) (dir : string) : string :=
  path_join h dir
    ["resources"; "app"; "out"; "vs"; "workbench";
     "workbench.desktop.main.js"].

Definition jetski_of (h : host) (dir : string) : string :=
  path_join h dir ["resources"; "app"; "out"; "jetskiAgent"; "main.js"].

Definition isAntigravityDir (h : host) (dir : string) : io bool :=
  if negb (truthy dir) then ret false
  else existsSync (workbench_of h dir).

Definition exe (h : host) : string :=
  if bool_decide (platform h = "win32") then "Antigravity.exe"
  else "antigravity".

Definition looksLikeAntigravityRoot (h : host) (dir : string) : io bool :=
  if negb (truthy dir) then ret false
  else existsSync (path_join h dir [exe h]).

Definition regPaths : list string :=
  ["HKCU\Software\Microsoft\Windows\CurrentVersion\Uninstall\Antigravity_is1";
   "HKLM\Software\Microsoft\Windows\CurrentVersion\Uninstall\Antigravity_is1";
   "HKLM\Software\WOW6432Node\Microsoft\Windows\CurrentVersion\Uninstall\Antigravity_is1"].

(** The loop [for (const regPath of regPaths)] *)
Fixpoint scan_registry (h : host) (keys : list string)
  : io (option string) :=
  match keys with
  | [] => ret None
  | regPath :: keys' =>
      match installLocation h regPath with
      | Some dir =>
          ok <- isAntigravityDir h dir;
          if ok then ret (Some dir) else scan_registry h keys'
      | None => scan_registry h keys'
      end
  end.

Definition findFromRegistry (h : host) : io (option string) :=
  if bool_decide (platform h <> "win32") then ret None
  else scan_registry h regPaths.

(** The loop [for (const dir of pathDirs)] *)
Fixpoint scan_path (h : host) (dirs : list string) : io (option string) :=
  match dirs with
  | [] => ret None
  | dir :: dirs' =>
      if negb (truthy dir) then scan_path h dirs'
      else
        hasExe <- existsSync (path_join h dir [exe h]);
        if hasExe then
          here <- isAntigravityDir h dir;
          if here then ret (Some dir)
          else
            let parent := path_dirname h dir in
            above <- isAntigravityDir h parent;
            if above then ret (Some parent) else scan_path h dirs'
        else scan_path h dirs'
  end.

Definition findFromPath (h : host) : io (option string) :=
  scan_path h (pathDirs h).

(** The loop [while (dir && dir !== root)] over the working directory and
    its ancestors.  The result [Some dir] is a [return dir] from inside the
    loop and [None] the end of the loop; the computation has no result when
    the loop has not ended after [fuel] rounds. *)
Fixpoint climb (h : host) (fuel : nat) (dir : string)
  : io (option string) :=
  if truthy dir && bool_decide (dir <> cwd_root h) then
    match fuel with
    | O => fun _ => None
    | S fuel' =>
        looks <- looksLikeAntigravityRoot h dir;
        both <- (if looks then isAntigravityDir h dir else ret false);
        if both then ret (Some dir)
        else climb h fuel' (path_dirname h dir)
    end
  else ret None.

Definition candidates (h : host) : list string :=
  if bool_decide (platform h = "win32") then
    [path_join h (or_empty (env h "LOCALAPPDATA")) ["Programs"; "Antigravity"];
     path_join h (or_empty (env h "PROGRAMFILES")) ["Antigravity"]]
  else if bool_decide (platform h = "darwin") then
    ["/Applications/Antigravity.app/Contents/Resources";
     path_join h (homedir h)
       ["Applications"; "Antigravity.app"; "Contents"; "Resources"]]
  else
    ["/usr/share/antigravity"; "/opt/antigravity";
     path_join h (homedir h) [".local"; "share"; "antigravity"]].

(** The loop [for (const c of candidates)] *)
Fixpoint first_valid (h : host) (cs : list string) : io (option string) :=
  match cs with
  | [] => ret None
  | c :: cs' =>
      ok <- isAntigravityDir h c;
      if ok then ret (Some c) else first_valid h cs'
  end.

(** A value that is a non-empty string *)
Definition found (o : option string) : bool :=
  match o with
  | Some d => truthy d
  | None => false
  end.

Definition findAntigravityPath (h : host) (fuel : nat)
  : io (option string) :=
  fromCwd <- climb h fuel (cwd h);
  match fromCwd with
  | Some dir => ret (Some dir)
  | None =>
      fromPath <- findFromPath h;
      if found fromPath then ret fromPath
      else
        fromReg <- findFromRegistry h;
        if found fromReg then ret fromReg
        else first_valid h (candidates h)
  end.

(** ** getVersion *)

(** [fs.readFileSync(p, 'utf8')] inside [try]: the call is made and
    recorded whether or not it throws; [None] when it throws, and the [try]
    block is left. *)
Definition tryReadFileSync (p : string) : io (option (list N)) :=
  fun w => Some (files w !! p, record (OpRead p) w).

Definition parsed (h : host) (t : option (list N)) : option (list N) :=
  match t with
  | Some text => if json_valid h text then Some text else None
  | None => None
  end.

Definition package_json (h : host) (basePath : string) : string :=
  path_join h basePath ["resources"; "app"; "package.json"].

Definition product_json (h : host) (basePath : string) : string :=
  path_join h basePath ["resources"; "app"; "product.json"].

Definition getVersion (h : host) (basePath : string) : io string :=
  pkgText <- tryReadFileSync (package_json h basePath);
  match parsed h pkgText with
  | None => ret "unknown"
  | Some pkg =>
      productText <- tryReadFileSync (product_json h basePath);
      match parsed h productText with
      | None => ret "unknown"
      | Some product =>
          match version_line h pkg product with
          | Some v => ret v
          | None => ret "unknown"
          end
      end
  end.

(** ** main *)

Inductive action := ActApply | ActCheck | ActRevert.

(** [args.includes(x)] *)
Definition has_arg (x : string) (args : list string) : bool :=
  bool_decide (x ∈ args).

Definition action_of (args : list string) : action :=
  if has_arg "--revert" args then ActRevert
  else if has_arg "--check" args then ActCheck
  else ActApply.

(** [args.indexOf(x)], without the case [-1] *)
Fixpoint arg_index (x : string) (args : list string) : option nat :=
  match args with
  | [] => None
  | a :: args' =>
      if bool_decide (a = x) then Some 0
      else S <$> arg_index x args'
  end.

(** The value of [explicitPath] after the [--path] flag is parsed:
    [None] is [null]. *)
Definition explicitPath (h : host) (args : list string) : option string :=
  match arg_index "--path" args with
  | Some pathIdx =>
      match args !! (pathIdx + 1) with
      | Some v => if truthy v then Some (path_resolve h v) else None
      | None => None
      end
  | None => None
  end.

Definition targets (h : host) (basePath : string) : list target_file :=
  [TargetFile (workbench_of h basePath) "workbench";
   TargetFile (jetski_of h basePath) "jetskiAgent"].

(** The [switch] that ends [main]. *)
Definition main_switch (a : action) (files : list target_file) : act unit :=
  match a with
  | ActCheck => forEach_ (fun f => checkFile (tpath f) (tlabel f)) files
  | ActRevert => lift (main_revert files)
  | ActApply => lift (main_apply files)
  end.

(** [main] once [basePath] is known. *)
Definition main_on (h : host) (a : action) (basePath : string) : act Z :=
  say (Location basePath) ;;~
  v <~ lift (getVersion h basePath);
  say (Version v) ;;~
  say Blank ;;~
  main_switch a (targets h basePath) ;;~
  done 0%Z.

Definition banner : list note :=
  [Blank; BannerTop; BannerTitle; BannerBottom].

Definition not_installed : list note :=
  [NotInstalled; Blank; TryOneOf; TryInstallDir; TryInstallDirCommand;
   TryExplicit; TryExplicitCommand].

(** [main] from the test [if (!basePath)] on *)
Definition main_from (h : host) (a : action) (basePath : option string)
  : act Z :=
  if negb (found basePath) then say_all not_installed ;;~ done 1%Z
  else main_on h a (or_empty basePath).

Definition main (h : host) (fuel : nat) (args : list string) : act Z :=
  let a := action_of args in
  let explicit := explicitPath h args in
  say_all banner ;;~
  if found explicit then
    valid <~ lift (isAntigravityDir h (or_empty explicit));
    if negb valid then
      say_all [BadPath (or_empty explicit); ExpectedToFind] ;;~ done 1%Z
    else main_from h a explicit
  else
    basePath <~ lift (findAntigravityPath h fuel);
    main_from h a basePath.

(** ** cli.js *)

Definition dquote : string := String (ascii_of_nat 34) EmptyString.

Definition fixes (h : host) : list (string * (string * string)) :=
  [("auto-run",
    (fix_script h,
     dquote +:+ "Always Proceed" +:+ dquote
     +:+ " terminal policy doesn't auto-execute commands"))].

(** The names that every object inherits from [Object.prototype]. *)
Definition object_prototype : list string :=
  ["constructor"; "__defineGetter__"; "__defineSetter__"; "hasOwnProperty";
   "__lookupGetter__"; "__lookupSetter__"; "isPrototypeOf";
   "propertyIsEnumerable"; "toString"; "valueOf"; "__proto__";
   "toLocaleString"].

(** The value of [fixes[fixName]]: an entry of the table, a value inherited
    from [Object.prototype] (truthy, and without a [script]), or
    [undefined]. *)
Inductive property :=
| Own (script description : string)
| Inherited
| Undefined.

Fixpoint own (name : string) (table : list (string * (string * string)))
  : option (string * string) :=
  match table with
  | [] => None
  | (k, v) :: table' =>
      if bool_decide (k = name) then Some v else own name table'
  end.

Definition get_fix (h : host) (fixName : string) : property :=
  match own fixName (fixes h) with
  | Some (script, description) => Own script description
  | None =>
      if bool_decide (fixName ∈ object_prototype) then Inherited
      else Undefined
  end.

(** [fs.existsSync(undefined)]: the call is made, and its answer is
    [false]. *)
Definition existsSync_undefined : io bool :=
  fun w => Some (false, record OpExistsUndefined w).

Definition cli_help (h : host) : act Z :=
  say_all ([CliAvailableFixes; Blank]
           ++ map (fun e => CliFix e.1 e.2.2) (fixes h)
           ++ [Blank; CliUsage; CliUsageApply; CliUsageCheck;
               CliUsageRevert; Blank]) ;;~
  done 0%Z.

(** [args] is [process.argv.slice(2)]. *)
Definition cli (h : host) (fuel : nat) (args : list string) : act Z :=
  say_all [Blank; CliTitle; CliUrl; Blank] ;;~
  match args with
  | [] => cli_help h
  | fixName :: flags =>
      if negb (truthy fixName) || bool_decide (fixName = "--help")
         || bool_decide (fixName = "-h")
      then cli_help h
      else
        match get_fix h fixName with
        | Undefined =>
            say_all [CliUnknownFix fixName; CliAvailable (map fst (fixes h))]
            ;;~ done 1%Z
        | Inherited =>
            (* fix.script is undefined, and fs.existsSync(undefined) is
               false *)
            lift existsSync_undefined ;;~
            say (CliScriptNotFound None) ;;~ done 1%Z
        | Own script _ =>
            present <~ lift (existsSync script);
            if negb present then
              say (CliScriptNotFound (Some script)) ;;~ done 1%Z
            else main h fuel flags
        end
  end.

(** ** Vocabulary of the properties of a run *)

(** The first argument of the command line is a name that the table of
    fixes inherits. *)
Definition inherited_name (args : list string) : bool :=
  match head args with
  | Some fixName => bool_decide (fixName ∈ object_prototype)
  | None => false
  end.

(** A call that looks at a path and changes no file. *)
Definition is_query (o : fsop) : Prop :=
  match o with
  | OpExists _ | OpRead _ | OpStat _ => True
  | _ => False
  end.

Definition is_exists (o : fsop) : Prop :=
  match o with
  | OpExists _ => True
  | _ => False
  end.

(** Calls made and lines printed between two states of a run. *)
Definition new_calls (s s' : process) : list fsop :=
  drop (length (calls s)) (calls s').

Definition new_lines (s s' : process) : list line :=
  drop (length (console s)) (console s').

Definition patched_on (fs : gmap string (list N)) (p : string) : Prop :=
  exists c, fs !! p = Some c /\ already_patched c = true.

(** The test of [checkFile]. *)
Definition check_patched (content : list N) : bool :=
  includes content (lit "_aep=") && re_test checkRe content.

(** A restore of [p] from its backup. *)
Definition is_restore (fs : list target_file) (o : fsop) : Prop :=
  match o with
  | OpExists _ => True
  | OpCopy src dst => exists f, f ∈ fs /\ src = bak (tpath f) /\ dst = tpath f
  | _ => False
  end.

(** One computation follows another on the same store, with calls that
    all satisfy [P] and without a line printed. *)
Definition quiet (P : fsop -> Prop) (w w' : world) : Prop :=
  files w' = files w /\ out w' = out w /\
  exists tr, trace w' = trace w ++ tr /\ Forall P tr.

(** A search for the installation: it only tests existence, and a directory
    it returns is not empty and holds the workbench bundle. *)
Definition finds (h : host) (m : io (option string)) : Prop :=
  forall w o w',
    m w = Some (o, w') ->
    quiet is_exists w w' /\
    (forall d, o = Some d ->
       truthy d = true /\ is_Some (files w !! workbench_of h d)).


(** A copy from a backup to its file. *)
Definition is_undo (o : fsop) : Prop :=
  match o with
  | OpCopy src dst => src = bak dst
  | _ => is_query o
  end.

(** A line that [analyzeFile] prints. *)
Definition is_analysis_line (m : msg) : Prop :=
  match m with
  | LogNoOnChange _ | LogFound _ _ | LogNames _ _ _ | LogNoPolicy _
  | LogPolicy _ | LogNoSecure _ | LogSecure _ | LogNoEffect _
  | LogEffect _ _ => True
  | _ => False
  end.

(** Every group of the pattern is a quantified class of [lo] to [hi] code
    units. *)
Fixpoint groups_between (lo hi : nat) (r : regex) : Prop :=
  match r with
  | Grp _ (Rep _ l (Some h)) => lo <= l /\ h <= hi
  | Grp _ _ => False
  | Seq r1 r2 => groups_between lo hi r1 /\ groups_between lo hi r2
  | _ => True
  end.

Definition sized (lo hi : nat) (w : list N) : Prop :=
  lo <= length w /\ length w <= hi.

(** A host like Linux, for normalised absolute paths: [slash] joins names
    with [/] and [parent] drops the last name. *)
Definition slash (dir : string) (names : list string) : string :=
  fold_left (fun d n => d +:+ "/" +:+ n) names dir.

Fixpoint drop_name (l : list ascii) : list ascii :=
  match l with
  | [] => []
  | c :: l' => if bool_decide (c = "/"%char) then l' else drop_name l'
  end.

Definition parent (d : string) : string :=
  match rev (drop_name (rev (list_ascii_of_string d))) with
  | [] => "/"
  | l => string_of_list_ascii l
  end.

Definition linux : host :=
  Host "linux" slash parent (fun p => p) (fun _ => None) "/root"
       "/root/work" "/" ["/usr/bin"; "/opt/antigravity/bin"]
       (fun _ => None) (fun _ => true) (fun _ _ => Some "1.0 (IDE 1.0)")
       "/cli/fixes/auto-run-fix/patch.js".

(** An installation whose workbench bundle has a backup beside it. *)
Definition restorable_install : world :=
  World (<[bak workbench_js := sample_text]>
           (<[workbench_js := drifted_text]> {[ jetski_js := sample_text ]}))
        [] [].

(** A text with the beginning of a patch only. *)
Definition half_patched : list N := lit "x;_aep=f(()=>{aEAGER".

(** An installation under [/opt/antigravity] with its launcher in [bin]. *)
Definition linux_install : process :=
  Process (<[ "/opt/antigravity/bin/antigravity" := lit "#!/bin/sh" ]>
             (<[ "/opt/antigravity/resources/app/package.json" := lit "{}" ]>
                (<[ "/opt/antigravity/resources/app/product.json" := lit "{}" ]>
                   (<[ workbench_js := sample_text ]>
                      {[ jetski_js := sample_text ]}))))
          [] [].

Definition nothing_installed : process := Process ∅ [] [].

(** The same installation, with the patch script of the command line. *)
Definition packaged_install : process :=
  Process (<[ fix_script linux := lit "#!/usr/bin/env node" ]>
             (disk linux_install))
          [] [].

(** * Properties of the matcher *)

Lemma strip_prefix_app (l s t : list N) :
  strip_prefix l s = Some t <-> s = l ++ t.
Proof.
  revert s. induction l as [|a l IH]; intros s; simpl.
  - split; [intros [= ->]; reflexivity | intros ->; reflexivity].
  - destruct s as [|b s]; [split; discriminate|].
    destruct (N.eqb_spec a b) as [->|Hne].
    + rewrite IH. split; [intros ->; reflexivity | intros [= ->]; reflexivity].
    + split; [discriminate | intros [= <- _]; contradiction].
Qed.

Lemma last_char_cons (p : option N) (x : N) (w : list N) :
  last_char p (x :: w) = last_char (Some x) w.
Proof.
  unfold last_char. destruct w as [|y w]; [reflexivity|].
  change (last (x :: y :: w)) with (last (y :: w)).
  destruct (last (y :: w)) eqn:E; [reflexivity|].
  apply last_None in E. discriminate.
Qed.

Lemma last_char_app (p : option N) (u v : list N) :
  last_char p (u ++ v) = last_char (last_char p u) v.
Proof.
  revert p. induction u as [|x u IH]; intros p; [reflexivity|].
  simpl app. rewrite !last_char_cons. apply IH.
Qed.

Lemma last_char_None (w : list N) : last_char None w = last w.
Proof. unfold last_char. destruct (last w); reflexivity. Qed.

Section MatcherFacts.
Context {A : Type}.

Lemma rep_match_sound cl s : forall lo hi p (k : option N -> list N -> option A) a,
  rep_match cl lo hi p s k = Some a ->
  exists w t, s = w ++ t /\ Forall (fun c => in_class cl c = true) w /\
    lo <= length w /\ fits (length w) hi /\ k (last_char p w) t = Some a.
Proof.
  induction s as [|x s IH]; intros lo hi p k a H; simpl in H.
  - destruct lo; [|discriminate].
    exists [], []. repeat split; auto. destruct hi; simpl; lia.
  - assert (Hstop : match lo with O => k p (x :: s) | S _ => None end = Some a ->
              exists w t, x :: s = w ++ t /\
                Forall (fun c => in_class cl c = true) w /\
                lo <= length w /\ fits (length w) hi /\
                k (last_char p w) t = Some a).
    { intros E. destruct lo; [|discriminate].
      exists [], (x :: s). repeat split; auto. destruct hi; simpl; lia. }
    destruct (in_class cl x && room hi) eqn:Hc; [|auto].
    apply andb_prop in Hc as [Hx Hr].
    destruct (rep_match cl (pred lo) (dec hi) (Some x) s k) eqn:E; [|auto].
    injection H as ->.
    apply IH in E as (w & t & -> & Hw & Hlo & Hhi & Hk).
    exists (x :: w), t. rewrite last_char_cons. repeat split; auto.
    + simpl. lia.
    + destruct hi as [[|h]|]; simpl in *; try discriminate; lia.
Qed.

Lemma rep_match_complete cl w : forall lo hi p t (k : option N -> list N -> option A),
  Forall (fun c => in_class cl c = true) w ->
  lo <= length w -> fits (length w) hi ->
  is_Some (k (last_char p w) t) ->
  is_Some (rep_match cl lo hi p (w ++ t) k).
Proof.
  induction w as [|x w IH]; intros lo hi p t k Hw Hlo Hhi Hk.
  - simpl in Hlo. assert (lo = 0) as -> by lia. simpl app.
    destruct t as [|y t]; simpl; [exact Hk|].
    destruct (in_class cl y && room hi); [|exact Hk].
    destruct (rep_match cl 0 (dec hi) (Some y) t k); [eauto | exact Hk].
  - apply Forall_cons in Hw as [Hx Hw]. simpl in Hlo.
    simpl. rewrite Hx.
    assert (room hi = true) as ->.
    { destruct hi as [[|h]|]; simpl in *; auto; lia. }
    simpl.
    destruct (IH (pred lo) (dec hi) (Some x) t k) as [a Ha]; auto.
    + lia.
    + destruct hi as [h|]; simpl in *; auto; lia.
    + rewrite <- (last_char_cons p). exact Hk.
    + rewrite Ha. eauto.
Qed.

Lemma run_sound r : forall st (k : mstate -> option A) a,
  run r st k = Some a ->
  exists st', matches r st st' /\ k st' = Some a.
Proof.
  induction r as [l|cl lo hi|n r IH|n| |r1 IH1 r2 IH2]; intros st k a H; simpl in H.
  - unfold lit_match in H. destruct (strip_prefix l (rest st)) eqn:E; [|discriminate].
    eexists; split; [apply M_Str; eauto | exact H].
  - apply rep_match_sound in H as (w & t & Hs & Hw & Hlo & Hhi & Hk).
    eexists; split; [eapply M_Rep; eauto | exact Hk].
  - apply IH in H as (st' & Hm & Hk).
    eexists; split; [apply M_Grp; eauto | exact Hk].
  - destruct (caps st n) eqn:Ec.
    + unfold lit_match in H. destruct (strip_prefix l (rest st)) eqn:E; [|discriminate].
      eexists; split; [eapply M_BrefSome; eauto | exact H].
    + eexists; split; [apply M_BrefNone; eauto | exact H].
  - destruct (at_boundary st) eqn:E; [|discriminate].
    eexists; split; [apply M_WordB; eauto | exact H].
  - apply IH1 in H as (st1 & Hm1 & H). apply IH2 in H as (st2 & Hm2 & H).
    eexists; split; [eapply M_Seq; eauto | exact H].
Qed.

Lemma run_complete r st st' :
  matches r st st' ->
  forall k : mstate -> option A, is_Some (k st') -> is_Some (run r st k).
Proof.
  induction 1 as [l st t E|cl lo hi st w t Hs Hw Hlo Hhi|n r st st' Hm IH
                 |n l st t Ec E|n st Ec|st Hb|r1 r2 st st1 st2 H1 IH1 H2 IH2];
    intros k Hk; simpl.
  - unfold lit_match. rewrite E. exact Hk.
  - rewrite Hs. apply rep_match_complete; auto.
  - apply IH. exact Hk.
  - rewrite Ec. unfold lit_match. rewrite E. exact Hk.
  - rewrite Ec. exact Hk.
  - rewrite Hb. exact Hk.
  - apply IH1. apply IH2. exact Hk.
Qed.
End MatcherFacts.

Lemma consumed_app (w t : list N) : consumed (w ++ t) t = w.
Proof.
  unfold consumed. rewrite length_app.
  replace (length w + length t - length t) with (length w) by lia.
  apply take_app_length.
Qed.

(** A match consumes a prefix of the input, at least [min_len] long, and
    moves the previous code unit along. *)
Lemma matches_rest r st st' :
  matches r st st' ->
  exists w, rest st = w ++ rest st' /\ prev st' = last_char (prev st) w /\
            min_len r <= length w.
Proof.
  induction 1 as [l st t E|cl lo hi st w t Hs Hw Hlo Hhi|n r st st' Hm IH
                 |n l st t Ec E|n st Ec|st Hb|r1 r2 st st1 st2 H1 IH1 H2 IH2];
    simpl.
  - apply strip_prefix_app in E. exists l. auto.
  - exists w. auto.
  - exact IH.
  - apply strip_prefix_app in E. exists l. split; [auto|split; [auto|lia]].
  - exists []. split; [auto|split; [auto|simpl; lia]].
  - exists []. split; [auto|split; [auto|simpl; lia]].
  - destruct IH1 as (w1 & E1 & P1 & L1), IH2 as (w2 & E2 & P2 & L2).
    exists (w1 ++ w2). rewrite E1, E2, P2, P1, last_char_app, length_app, <- app_assoc.
    split; [auto|split; [auto|lia]].
Qed.

Lemma match_here_sound r p s i m :
  match_here r p s i = Some m ->
  exists post,
    s = mtext m ++ post /\ mindex m = i /\ min_len r <= length (mtext m) /\
    matches r (MState p s no_caps)
              (MState (last_char p (mtext m)) post (mcaps m)).
Proof.
  unfold match_here. intros H.
  apply run_sound in H as (st' & Hm & [= <-]). simpl.
  destruct (matches_rest _ _ _ Hm) as (w & E & P & L). simpl in *.
  exists (rest st'). rewrite E, consumed_app. repeat split; auto.
  rewrite <- P, <- E. destruct st'; exact Hm.
Qed.

Lemma match_here_complete r p s i st' :
  matches r (MState p s no_caps) st' -> is_Some (match_here r p s i).
Proof.
  intros Hm. unfold match_here. eapply run_complete; eauto.
Qed.

Lemma exec_at_sound r s : forall p i m,
  exec_at r p s i = Some m ->
  exists pre post,
    s = pre ++ mtext m ++ post /\ mindex m = i + length pre /\
    min_len r <= length (mtext m) /\
    matches r (MState (last_char p pre) (mtext m ++ post) no_caps)
              (MState (last_char (last_char p pre) (mtext m)) post (mcaps m)) /\
    forall pre' s', s = pre' ++ s' -> length pre' < length pre ->
      match_here r (last_char p pre') s' (i + length pre') = None.
Proof.
  induction s as [|c s IH]; intros p i m H; simpl in H.
  - destruct (match_here r p [] i) eqn:E; [|discriminate]. injection H as ->.
    apply match_here_sound in E as (post & Es & Ei & Hl & Hm).
    exists [], post. simpl. rewrite <- Es.
    split; [auto|]. split; [lia|]. split; [auto|]. split; [auto|].
    intros pre' s' _ Hlt. simpl in Hlt. lia.
  - destruct (match_here r p (c :: s) i) eqn:E.
    + injection H as ->.
      apply match_here_sound in E as (post & Es & Ei & Hl & Hm).
      exists [], post. simpl. rewrite <- Es.
      split; [auto|]. split; [lia|]. split; [auto|]. split; [auto|].
      intros pre' s' _ Hlt. simpl in Hlt. lia.
    + apply IH in H as (pre & post & Es & Ei & Hl & Hm & Hleft).
      exists (c :: pre), post. rewrite last_char_cons. simpl.
      split; [rewrite Es; reflexivity|]. split; [lia|]. split; [auto|].
      split; [auto|].
      intros pre' s' E' Hlt. destruct pre' as [|c' pre'].
      * simpl in E'. subst s'. simpl. rewrite Nat.add_0_r. exact E.
      * simpl in E'. injection E' as <- E'. simpl in Hlt.
        rewrite last_char_cons. simpl.
        replace (i + S (length pre')) with (S i + length pre') by lia.
        apply Hleft; [auto|lia].
Qed.

Lemma exec_at_complete r pre : forall s' p i st',
  matches r (MState (last_char p pre) s' no_caps) st' ->
  is_Some (exec_at r p (pre ++ s') i).
Proof.
  induction pre as [|c pre IH]; intros s' p i st' Hm.
  - simpl app. destruct (match_here_complete r p s' i st' Hm) as [m E].
    destruct s'; simpl; rewrite E; eauto.
  - simpl. destruct (match_here r p (c :: pre ++ s') i); [eauto|].
    eapply IH. rewrite <- (last_char_cons p). exact Hm.
Qed.

(** [match] finds a match exactly when the pattern matches somewhere, and
    then returns a match at the least index where it does. *)
Lemma re_match_sound r s m :
  re_match r s = Some m ->
  matches_at r s (mindex m) (mtext m) (mcaps m) /\
  min_len r <= length (mtext m) /\
  forall j w c, j < mindex m -> ~ matches_at r s j w c.
Proof.
  unfold re_match. intros H.
  apply exec_at_sound in H as (pre & post & Es & Ei & Hl & Hm & Hleft).
  simpl in Ei. rewrite last_char_None in Hm.
  split; [|split; [exact Hl|]].
  - exists pre, post. split; [auto|]. split; [auto|exact Hm].
  - intros j w c Hj (pre' & post' & Es' & Hlen & Hm').
    specialize (Hleft pre' (w ++ post') Es' ltac:(lia)).
    rewrite last_char_None in Hleft.
    destruct (match_here_complete r (last pre') (w ++ post') (0 + length pre') _ Hm')
      as [m' E].
    congruence.
Qed.

Lemma re_match_complete r s i w c :
  matches_at r s i w c -> is_Some (re_match r s).
Proof.
  intros (pre & post & -> & _ & Hm). unfold re_match.
  eapply exec_at_complete. rewrite last_char_None. exact Hm.
Qed.

Lemma re_test_true r s :
  re_test r s = true <-> exists i w c, matches_at r s i w c.
Proof.
  unfold re_test. rewrite bool_decide_eq_true. split.
  - intros [m E]. apply re_match_sound in E as [Hm _]. eauto.
  - intros (i & w & c & Hm). eapply re_match_complete, Hm.
Qed.

(** The [exec] loop of a pattern that cannot match the empty string ends. *)
Lemma exec_loop_total r s :
  0 < min_len r -> forall p i skip, is_Some (exec_loop r p s i skip).
Proof.
  intros Hr. induction s as [|c s IH]; intros p i skip.
  - destruct skip; simpl; [|eauto].
    destruct (match_here r p [] i) as [m|] eqn:E; [|eauto].
    apply match_here_sound in E as (post & _ & _ & Hl & _).
    destruct (length (mtext m)); [lia | eauto].
  - destruct skip; simpl; [|apply IH].
    destruct (match_here r p (c :: s) i) as [m|] eqn:E; [|apply IH].
    apply match_here_sound in E as (post & _ & _ & Hl & _).
    destruct (length (mtext m)) as [|k]; [lia|].
    destruct (IH (Some c) (S i) k) as [l ->]. simpl. eauto.
Qed.

Lemma is_word_in_cw c : in_class cw c = true <-> is_word c = true.
Proof.
  unfold in_class, cw. simpl. rewrite orb_false_r. reflexivity.
Qed.

(** Captures of a pattern whose groups are all [\w{lo,hi}] with [lo >= 1]
    are word tokens. *)
Lemma matches_groups_word r st st' :
  matches r st st' -> groups_word r ->
  caps_all word_token (caps st) -> caps_all word_token (caps st').
Proof.
  induction 1 as [l st t E|cl lo hi st w t Hs Hw Hlo Hhi|n r st st' Hm IH
                 |n l st t Ec E|n st Ec|st Hb|r1 r2 st st1 st2 H1 IH1 H2 IH2];
    simpl; intros Hg Hc; auto.
  - destruct r; try contradiction. destruct Hg as [-> Hlo].
    inversion Hm; subst. simpl in *.
    intros m u. unfold set_cap. destruct (Nat.eqb m n); [|apply Hc].
    intros [= <-]. match goal with H : rest st = _ |- _ => rewrite H end.
    rewrite consumed_app. split.
    + intros ->. simpl in *. lia.
    + eapply Forall_impl; [eassumption|]. intros c. apply is_word_in_cw.
  - destruct Hg. auto.
Qed.

Lemma matches_binds r st st' n :
  matches r st st' -> binds r n = true \/ is_Some (caps st n) ->
  is_Some (caps st' n).
Proof.
  induction 1 as [l st t E|cl lo hi st w t Hs Hw Hlo Hhi|m r st st' Hm IH
                 |m l st t Ec E|m st Ec|st Hb|r1 r2 st st1 st2 H1 IH1 H2 IH2];
    simpl; intros [Hb'|Hc]; try discriminate; auto.
  - unfold set_cap. destruct (Nat.eqb n m) eqn:E; [eauto|]. simpl in Hb'. auto.
  - unfold set_cap. destruct (Nat.eqb n m); [eauto|]. auto.
  - apply orb_prop in Hb' as [Hb'|Hb']; auto.
Qed.

(** Every code unit consumed by a match lies in the pattern's alphabet,
    provided the captures it may refer back to do. *)
Lemma matches_alphabet P r st st' :
  matches r st st' -> alphabet P r ->
  caps_all (Forall (fun c => P c = true)) (caps st) ->
  Forall (fun c => P c = true) (consumed (rest st) (rest st')) /\
  caps_all (Forall (fun c => P c = true)) (caps st').
Proof.
  induction 1 as [l st t E|cl lo hi st w t Hs Hw Hlo Hhi|n r st st' Hm IH
                 |n l st t Ec E|n st Ec|st Hb|r1 r2 st st1 st2 H1 IH1 H2 IH2];
    simpl; intros Ha Hc.
  - apply strip_prefix_app in E. rewrite E, consumed_app. split; [|auto].
    apply Forall_forall. intros c Hin. rewrite forallb_forall in Ha.
    apply Ha. apply list_elem_of_In. exact Hin.
  - rewrite Hs, consumed_app. split; [|auto].
    eapply Forall_impl; [eassumption|]. auto.
  - destruct (IH Ha Hc) as [Hw Hc']. split; [auto|].
    intros m u. unfold set_cap. destruct (Nat.eqb m n); [|apply Hc'].
    intros [= <-]. exact Hw.
  - apply strip_prefix_app in E. rewrite E, consumed_app. split; [|auto]. eauto.
  - split; [|auto]. unfold consumed. rewrite Nat.sub_diag. constructor.
  - split; [|auto]. unfold consumed. rewrite Nat.sub_diag. constructor.
  - destruct Ha as [Ha1 Ha2]. destruct (IH1 Ha1 Hc) as [Hw1 Hc1].
    destruct (IH2 Ha2 Hc1) as [Hw2 Hc2]. split; [|auto].
    destruct (matches_rest _ _ _ H1) as (w1 & E1 & _).
    destruct (matches_rest _ _ _ H2) as (w2 & E2 & _).
    rewrite E1, E2 in *. rewrite consumed_app in Hw2.
    rewrite app_assoc, consumed_app. rewrite consumed_app in Hw1.
    apply Forall_app; auto.
Qed.

(** * The tally and the choice of the scheduling hook *)

Lemma first_seen_snoc l a :
  first_seen (l ++ [a]) =
  if bool_decide (a ∈ first_seen l) then first_seen l else first_seen l ++ [a].
Proof. unfold first_seen. rewrite fold_left_app. reflexivity. Qed.

Lemma first_seen_elem l a : a ∈ first_seen l <-> a ∈ l.
Proof.
  revert a. induction l as [|b l IH] using rev_ind; intros a; [reflexivity|].
  rewrite first_seen_snoc, elem_of_app, list_elem_of_singleton.
  case_bool_decide as Hb.
  - rewrite IH. rewrite IH in Hb. split; [auto|]. intros [H| ->]; auto.
  - rewrite elem_of_app, list_elem_of_singleton, IH. reflexivity.
Qed.

Lemma first_seen_NoDup l : NoDup (first_seen l).
Proof.
  induction l as [|b l IH] using rev_ind; [constructor|].
  rewrite first_seen_snoc. case_bool_decide as Hb; [exact IH|].
  apply NoDup_app. split; [exact IH|]. split; [|apply NoDup_singleton].
  intros x Hx Hx'. apply list_elem_of_singleton in Hx'. subst. auto.
Qed.

Lemma bump_map (f : list N -> Z) a w D :
  NoDup D ->
  bump a w (map (fun b => (b, f b)) D) =
  if bool_decide (a ∈ D)
  then map (fun b => (b, if bool_decide (b = a) then (f b + w)%Z else f b)) D
  else map (fun b => (b, f b)) D ++ [(a, w)].
Proof.
  induction D as [|b D IH]; intros Hnd; [reflexivity|].
  apply NoDup_cons in Hnd as [Hb Hnd]. simpl.
  destruct (decide (a = b)) as [->|Hne].
  - rewrite !bool_decide_eq_true_2 by (auto; apply list_elem_of_here).
    f_equal. apply map_ext_in. intros c Hc.
    rewrite bool_decide_eq_false_2; [reflexivity|].
    intros ->. apply Hb. apply list_elem_of_In. exact Hc.
  - rewrite (bool_decide_eq_false_2 (a = b)) by auto.
    rewrite (bool_decide_eq_false_2 (b = a)) by auto.
    rewrite IH by auto.
    destruct (decide (a ∈ D)) as [Hin|Hin].
    + rewrite !bool_decide_eq_true_2; auto. apply list_elem_of_further; auto.
    + rewrite !bool_decide_eq_false_2; auto.
      rewrite elem_of_cons. intros [?|?]; auto.
Qed.

Lemma total_snoc a incs b w :
  total a (incs ++ [(b, w)]) =
  (total a incs + if bool_decide (b = a) then w else 0)%Z.
Proof.
  induction incs as [|e incs IH]; simpl.
  - case_bool_decide; lia.
  - rewrite IH. repeat case_bool_decide; lia.
Qed.

Lemma total_absent a incs : a ∉ map fst incs -> total a incs = 0%Z.
Proof.
  induction incs as [|e incs IH]; simpl; [reflexivity|].
  rewrite not_elem_of_cons. intros [Hne Hin].
  rewrite bool_decide_eq_false_2 by auto. auto.
Qed.

(** The tally lists the aliases in the order of their first increment, each
    with the sum of its increments. *)
Lemma bump_all_closed incs :
  bump_all incs [] =
  map (fun a => (a, total a incs)) (first_seen (map fst incs)).
Proof.
  induction incs as [|[b w] incs IH] using rev_ind; [reflexivity|].
  unfold bump_all in *. rewrite fold_left_app. simpl. rewrite IH.
  rewrite map_app. simpl. rewrite first_seen_snoc.
  rewrite bump_map by apply first_seen_NoDup.
  case_bool_decide as Hin.
  - apply map_ext. intros c. rewrite total_snoc.
    rewrite (bool_decide_ext (c = b) (b = c)) by (split; auto).
    case_bool_decide; f_equal; lia.
  - rewrite map_app. simpl. f_equal.
    + apply map_ext_in. intros c Hc. rewrite total_snoc.
      rewrite bool_decide_eq_false_2; [f_equal; lia|].
      intros ->. apply Hin. apply list_elem_of_In. exact Hc.
    + rewrite total_snoc, total_absent, bool_decide_eq_true_2; auto.
      rewrite <- first_seen_elem. exact Hin.
Qed.

Lemma effect_steps cb ms t :
  fold_left (effect_step cb) ms t =
  bump_all (map (fun a => (a, 1%Z))
              (List.filter (keep_effect cb) (map (fun m => group m 1) ms))) t.
Proof.
  revert t. induction ms as [|m ms IH]; intros t; [reflexivity|].
  simpl. rewrite IH. unfold effect_step. fold (keep_effect cb (group m 1)).
  destruct (keep_effect cb (group m 1)); reflexivity.
Qed.

Lemma cleanup_steps cb ms t :
  fold_left (cleanup_step cb) ms t =
  bump_all (map (fun a => (a, 5%Z))
              (List.filter (keep_cleanup cb) (map (fun m => group m 1) ms))) t.
Proof.
  revert t. induction ms as [|m ms IH]; intros t; [reflexivity|].
  simpl. rewrite IH. unfold cleanup_step. fold (keep_cleanup cb (group m 1)).
  destruct (keep_cleanup cb (group m 1)); reflexivity.
Qed.

Lemma total_app a i1 i2 : total a (i1 ++ i2) = (total a i1 + total a i2)%Z.
Proof.
  induction i1 as [|e i1 IH]; simpl; [reflexivity|].
  rewrite IH. case_bool_decide; lia.
Qed.

Lemma total_const a w l :
  total a (map (fun b => (b, w)) l) = (w * occ a l)%Z.
Proof.
  unfold occ. induction l as [|b l IH]; simpl; [lia|].
  rewrite IH. case_bool_decide; simpl length; lia.
Qed.

Lemma tally_closed cb ms1 ms5 :
  let c1 := List.filter (keep_effect cb) (map (fun m => group m 1) ms1) in
  let c5 := List.filter (keep_cleanup cb) (map (fun m => group m 1) ms5) in
  fold_left (cleanup_step cb) ms5 (fold_left (effect_step cb) ms1 []) =
  map (fun a => (a, weight c1 c5 a)) (first_seen (c1 ++ c5)).
Proof.
  intros c1 c5. rewrite effect_steps, cleanup_steps. fold c1 c5.
  unfold bump_all. rewrite <- fold_left_app.
  fold (bump_all (map (fun a => (a, 1%Z)) c1 ++ map (fun a => (a, 5%Z)) c5) []).
  rewrite bump_all_closed. rewrite map_app, !map_map. simpl. rewrite !map_id.
  apply map_ext. intros a. unfold weight.
  rewrite total_app, !total_const. f_equal. lia.
Qed.

Lemma insert_idx_map {A B} (g : A -> B) (e : N * A) l :
  map (fun x => (x.1, g x.2)) (insert_idx e l) =
  insert_idx (e.1, g e.2) (map (fun x => (x.1, g x.2)) l).
Proof.
  induction l as [|x l IH]; [reflexivity|].
  simpl. destruct (e.1 <? x.1)%N; simpl; [reflexivity|]. rewrite IH. reflexivity.
Qed.

(** [Object.entries] of a tally given by a weight function lists the keys
    in [enum_order]. *)
Lemma entries_map (W : list N -> Z) D :
  entries (map (fun a => (a, W a)) D) = map (fun a => (a, W a)) (enum_order D).
Proof.
  unfold entries, enum_order, index_entries. rewrite map_app. f_equal.
  - induction D as [|a D IH]; [reflexivity|].
    simpl. destruct (array_index a) as [v|]; simpl; [|exact IH].
    set (g := fun a : list N => (a, W a)) in *.
    rewrite !map_map in *.
    transitivity (map snd (map (fun x : N * list N => (x.1, g x.2))
        (insert_idx (v, a) (foldr insert_idx []
           (omap (fun a0 => (fun v0 => (v0, a0)) <$> array_index a0) D))))).
    + rewrite insert_idx_map. simpl. f_equal. f_equal.
      clear IH. induction D as [|b D IH]; [reflexivity|].
      simpl. destruct (array_index b); simpl; [|exact IH].
      rewrite insert_idx_map. simpl. f_equal. exact IH.
    + rewrite map_map. reflexivity.
  - induction D as [|a D IH]; [reflexivity|].
    simpl. destruct (bool_decide (array_index a = None)); simpl; [f_equal|]; exact IH.
Qed.

Lemma best_pos W order b : best W order = Some b -> (0 < W b)%Z.
Proof.
  revert b. induction order as [|a t IH]; intros b; simpl; [discriminate|].
  destruct (best W t) as [c|].
  - specialize (IH c eq_refl). destruct (Z.leb_spec (W c) (W a)); intros [= <-]; lia.
  - destruct (Z.ltb_spec 0 (W a)); [intros [= <-]; lia | discriminate].
Qed.

(** The loop with a strict comparison from [maxCount = 0] returns the first
    alias of highest positive weight. *)
Lemma pick_fold W order acc :
  (0 <= acc.2)%Z ->
  fold_left pick_step (map (fun a => (a, W a)) order) acc =
  match best W order with
  | Some b => if (W b >? acc.2)%Z then (Some b, W b) else acc
  | None => acc
  end.
Proof.
  revert acc. induction order as [|a t IH]; intros acc Hacc; [reflexivity|].
  simpl. rewrite IH.
  - unfold pick_step. simpl.
    pose proof (best_pos W t) as Hpos.
    destruct (best W t) as [b|].
    + specialize (Hpos b eq_refl).
      destruct (Z.leb_spec (W b) (W a)), (Z.gtb_spec (W a) acc.2); simpl;
        destruct (Z.gtb_spec (W b) (W a)); destruct (Z.gtb_spec (W b) acc.2);
        try reflexivity; try lia.
    + destruct (Z.ltb_spec 0 (W a)), (Z.gtb_spec (W a) acc.2);
        try reflexivity; lia.
  - unfold pick_step. simpl. destruct (Z.gtb_spec (W a) acc.2); simpl; lia.
Qed.

Lemma pick_best W D :
  pick (map (fun a => (a, W a)) D) =
  (best W (enum_order D), default 0%Z (W <$> best W (enum_order D))).
Proof.
  unfold pick. rewrite entries_map, pick_fold by (simpl; lia).
  pose proof (best_pos W (enum_order D)) as Hpos.
  destruct (best W (enum_order D)) as [b|]; [|reflexivity].
  specialize (Hpos b eq_refl). simpl.
  destruct (Z.gtb_spec (W b) 0); [reflexivity|lia].
Qed.

Lemma exec_loop_sound r s : forall p i skip ms,
  exec_loop r p s i skip = Some ms ->
  Forall (fun m => exists p' s' i', match_here r p' s' i' = Some m) ms.
Proof.
  induction s as [|c s IH]; intros p i skip ms H.
  - destruct skip; simpl in H; [|injection H as <-; constructor].
    destruct (match_here r p [] i) as [m|] eqn:E; [|injection H as <-; constructor].
    destruct (length (mtext m)); [discriminate|]. injection H as <-.
    constructor; [eauto|constructor].
  - destruct skip; simpl in H; [|eapply IH; eauto].
    destruct (match_here r p (c :: s) i) as [m|] eqn:E; [|eapply IH; eauto].
    destruct (length (mtext m)) as [|k]; [discriminate|].
    destruct (exec_loop r (Some c) s (S i) k) as [l|] eqn:El; [|discriminate].
    simpl in H. injection H as <-. constructor; [eauto|eapply IH; eauto].
Qed.

Lemma no_caps_all Q : caps_all Q no_caps.
Proof. intros n w. discriminate. Qed.

Lemma match_here_group r p s i m n :
  match_here r p s i = Some m -> groups_word r -> binds r n = true ->
  word_token (group m n).
Proof.
  intros H Hg Hb. apply match_here_sound in H as (post & _ & _ & _ & Hm).
  pose proof (matches_groups_word _ _ _ Hm Hg (no_caps_all _)) as Hc.
  destruct (matches_binds _ _ _ n Hm (or_introl Hb)) as [w Hw].
  simpl in *. unfold group. rewrite Hw. simpl. eapply Hc, Hw.
Qed.

Lemma re_match_group r s m n :
  re_match r s = Some m -> groups_word r -> binds r n = true ->
  word_token (group m n).
Proof.
  intros H Hg Hb. apply re_match_sound in H as [(pre & post & _ & _ & Hm) _].
  pose proof (matches_groups_word _ _ _ Hm Hg (no_caps_all _)) as Hc.
  destruct (matches_binds _ _ _ n Hm (or_introl Hb)) as [w Hw].
  simpl in *. unfold group. rewrite Hw. simpl. eapply Hc, Hw.
Qed.

Lemma hits_word r s a :
  groups_word r -> binds r 1 = true -> a ∈ hits r s -> word_token a.
Proof.
  intros Hg Hb. unfold hits, exec_all.
  destruct (exec_loop r None s 0 0) as [ms|] eqn:E; simpl; [|intros H; inversion H].
  apply exec_loop_sound in E. rewrite list_elem_of_In, in_map_iff.
  intros (m & <- & Hin). rewrite Forall_forall in E.
  apply list_elem_of_In, E in Hin as (p' & s' & i' & Hm).
  eapply match_here_group; eauto.
Qed.

Lemma effectRe_shape : groups_word effectRe /\ binds effectRe 1 = true /\ 0 < min_len effectRe.
Proof. repeat split; simpl; lia. Qed.

Lemma cleanupRe_shape : groups_word cleanupRe /\ binds cleanupRe 1 = true /\ 0 < min_len cleanupRe.
Proof. repeat split; simpl; lia. Qed.

Lemma exec_all_hits r s :
  0 < min_len r ->
  exists ms, exec_all r s = Some ms /\ hits r s = map (fun m => group m 1) ms.
Proof.
  intros Hr. unfold hits, exec_all.
  destruct (exec_loop_total r s Hr None 0 0) as [ms ->]. eauto.
Qed.

(** Step 4 always terminates, and returns the selection [select_amended]
    with its weight. *)
Lemma effect_alias_select content matchIndex cb :
  effect_alias content matchIndex cb =
  Some (select_amended content matchIndex cb,
        default 0%Z (hook_weight content matchIndex cb
                     <$> select_amended content matchIndex cb)).
Proof.
  unfold effect_alias, select_amended, hook_weight, window_candidates,
    cleanup_candidates, nearby.
  destruct (exec_all_hits effectRe
              (substring content (Z.max 0 (matchIndex - 5000)) (matchIndex + 5000))
              (proj2 (proj2 effectRe_shape))) as (ms1 & -> & ->).
  destruct (exec_all_hits cleanupRe content (proj2 (proj2 cleanupRe_shape)))
    as (ms5 & -> & ->).
  simpl. rewrite tally_closed, pick_best. reflexivity.
Qed.

Lemma insert_idx_perm {A} (e : N * A) l : insert_idx e l ≡ₚ e :: l.
Proof.
  induction l as [|x l IH]; [reflexivity|].
  simpl. destruct (e.1 <? x.1)%N; [reflexivity|].
  rewrite IH. apply Permutation_swap.
Qed.

Lemma sort_idx_perm {A} (l : list (N * A)) : foldr insert_idx [] l ≡ₚ l.
Proof.
  induction l as [|x l IH]; [reflexivity|].
  simpl. rewrite insert_idx_perm, IH. reflexivity.
Qed.

Lemma enum_order_elem D a : a ∈ enum_order D <-> a ∈ D.
Proof.
  unfold enum_order. rewrite elem_of_app.
  rewrite (list_elem_of_In (List.filter _ _)), filter_In, <- list_elem_of_In.
  rewrite bool_decide_eq_true.
  assert (a ∈ map snd (foldr insert_idx []
            (omap (fun a0 => (fun v => (v, a0)) <$> array_index a0) D))
          <-> a ∈ D /\ is_Some (array_index a)) as ->.
  { change (map snd ?l) with (snd <$> l). rewrite sort_idx_perm.
    rewrite list_elem_of_fmap. split.
    - intros ([v b] & -> & Hin). apply list_elem_of_omap in Hin as (c & Hc & Hv).
      destruct (array_index c) eqn:E; simpl in Hv; [|discriminate].
      injection Hv as <- <-. simpl. split; [auto|]. rewrite E. eauto.
    - intros [Hin [v Hv]]. exists (v, a). split; [reflexivity|].
      apply list_elem_of_omap. exists a. rewrite Hv. auto. }
  destruct (array_index a) eqn:E; split; intros H.
  - destruct H as [[H _]|[H _]]; auto.
  - left. split; [exact H|eauto].
  - destruct H as [[_ [? ?]]|[? _]]; [discriminate|auto].
  - right. auto.
Qed.

Lemma best_elem W order b : best W order = Some b -> b ∈ order.
Proof.
  revert b. induction order as [|a t IH]; intros b; simpl; [discriminate|].
  destruct (best W t) as [c|].
  - destruct (W c <=? W a)%Z; intros [= <-];
      [apply list_elem_of_here | apply list_elem_of_further; auto].
  - destruct (0 <? W a)%Z; [intros [= <-]; apply list_elem_of_here | discriminate].
Qed.

Lemma best_none W order : best W order = None -> forall a, a ∈ order -> (W a <= 0)%Z.
Proof.
  induction order as [|a t IH]; simpl; intros H b Hb; [inversion Hb|].
  destruct (best W t) as [c|].
  - destruct (W c <=? W a)%Z; discriminate.
  - destruct (Z.ltb_spec 0 (W a)); [discriminate|].
    apply elem_of_cons in Hb as [->|Hb]; auto.
Qed.

(** [best] returns an alias of highest weight, and every alias listed before
    it weighs strictly less. *)
Lemma best_max W order b :
  best W order = Some b ->
  exists pre post, order = pre ++ b :: post /\
    (forall a, a ∈ pre -> (W a < W b)%Z) /\
    (forall a, a ∈ post -> (W a <= W b)%Z).
Proof.
  revert b. induction order as [|a t IH]; intros b; simpl; [discriminate|].
  pose proof (best_none W t) as Hnone. pose proof (best_pos W t) as Hpos.
  destruct (best W t) as [c|].
  - destruct (IH c eq_refl) as (pre & post & -> & Hpre & Hpost).
    destruct (Z.leb_spec (W c) (W a)); intros [= <-].
    + exists [], (pre ++ c :: post). split; [reflexivity|]. split.
      * intros x Hx. inversion Hx.
      * intros x Hx. apply elem_of_app in Hx as [Hx|Hx].
        -- specialize (Hpre x Hx). lia.
        -- apply elem_of_cons in Hx as [->|Hx]; [lia|]. specialize (Hpost x Hx). lia.
    + exists (a :: pre), post. split; [reflexivity|]. split; [|exact Hpost].
      intros x Hx. apply elem_of_cons in Hx as [->|Hx]; [lia|auto].
  - destruct (Z.ltb_spec 0 (W a)); [|discriminate]. intros [= <-].
    exists [], t. split; [reflexivity|]. split.
    + intros x Hx. inversion Hx.
    + intros x Hx. specialize (Hnone eq_refl x Hx). lia.
Qed.

Lemma occ_pos a l : a ∈ l -> (0 < occ a l)%Z.
Proof.
  unfold occ. induction l as [|b l IH]; intros H; [inversion H|].
  simpl. apply elem_of_cons in H as [->|H].
  - rewrite bool_decide_eq_true_2 by reflexivity. simpl length. lia.
  - specialize (IH H). case_bool_decide; simpl length; lia.
Qed.

Lemma occ_nonneg a l : (0 <= occ a l)%Z.
Proof. unfold occ. lia. Qed.

Lemma candidates_word content matchIndex cb a :
  a ∈ window_candidates content matchIndex cb ++ cleanup_candidates content cb ->
  word_token a.
Proof.
  unfold window_candidates, cleanup_candidates.
  rewrite elem_of_app, !list_elem_of_In, !filter_In, <- !list_elem_of_In.
  intros [[H _]|[H _]].
  - eapply hits_word; [apply effectRe_shape..|exact H].
  - eapply hits_word; [apply cleanupRe_shape..|exact H].
Qed.

Lemma select_amended_word content matchIndex cb a :
  select_amended content matchIndex cb = Some a ->
  word_token a /\ (0 < hook_weight content matchIndex cb a)%Z.
Proof.
  intros H. split; [|eapply best_pos, H].
  apply best_elem in H. rewrite enum_order_elem, first_seen_elem in H.
  eapply candidates_word, H.
Qed.

Lemma select_amended_none content matchIndex cb :
  select_amended content matchIndex cb = None <->
  window_candidates content matchIndex cb = [] /\
  cleanup_candidates content cb = [].
Proof.
  split.
  - intros H. pose proof (best_none _ _ H) as Hall.
    assert (forall a, a ∉ window_candidates content matchIndex cb
                          ++ cleanup_candidates content cb) as Hno.
    { intros a Hin. specialize (Hall a).
      rewrite enum_order_elem, first_seen_elem in Hall. specialize (Hall Hin).
      unfold hook_weight, weight in Hall. apply elem_of_app in Hin as [Hin|Hin].
      - pose proof (occ_pos _ _ Hin).
        pose proof (occ_nonneg a (cleanup_candidates content cb)). lia.
      - pose proof (occ_pos _ _ Hin).
        pose proof (occ_nonneg a (window_candidates content matchIndex cb)). lia. }
    destruct (window_candidates content matchIndex cb) as [|x l].
    + destruct (cleanup_candidates content cb) as [|y l']; [auto|].
      exfalso. apply (Hno y). apply list_elem_of_here.
    + exfalso. apply (Hno x). apply list_elem_of_here.
  - intros [H1 H5]. unfold select_amended. rewrite H1, H5. reflexivity.
Qed.

(** * Extraction *)

Lemma onChangeRe_shape :
  groups_word onChangeRe /\ (forall n, 1 <= n <= 5 -> binds onChangeRe n = true).
Proof.
  split; [simpl; repeat split; lia|].
  intros n Hn. assert (n = 1 \/ n = 2 \/ n = 3 \/ n = 4 \/ n = 5) as H by lia.
  destruct H as [->|[->|[->|[->| ->]]]]; reflexivity.
Qed.

Lemma policyRe_shape e : groups_word (policyRe e) /\ binds (policyRe e) 1 = true.
Proof. split; [simpl; repeat split; lia|reflexivity]. Qed.

Lemma secureRe_shape : groups_word secureRe /\ binds secureRe 1 = true.
Proof. split; [simpl; repeat split; lia|reflexivity]. Qed.

(** What [extract] returns, stage by stage. *)
Lemma extract_cases content label :
  extract content label =
  match re_match onChangeRe content with
  | None => Some ([LogNoOnChange label], None)
  | Some m =>
      let i := indexOf content (mtext m) in
      let log1 := [LogFound label i;
                   LogNames (group m 2) (group m 4) (group m 5)] in
      match re_match (policyRe (group m 4)) (before content m) with
      | None => Some (log1 ++ [LogNoPolicy label], None)
      | Some pm =>
          match re_match secureRe (before content m) with
          | None =>
              Some ((log1 ++ [LogPolicy (group pm 1)]) ++ [LogNoSecure label],
                    None)
          | Some sm =>
              let log3 := (log1 ++ [LogPolicy (group pm 1)])
                          ++ [LogSecure (group sm 1)] in
              match select_amended content i (group m 2) with
              | Some hook =>
                  Some (log3 ++ [LogEffect hook
                                   (hook_weight content i (group m 2) hook)],
                        Some (symbols_of content m pm sm hook))
              | None => Some (log3 ++ [LogNoEffect label], None)
              end
          end
      end
  end.
Proof.
  unfold extract, before.
  destruct (re_match onChangeRe content) as [m|]; [|reflexivity].
  destruct (re_match (policyRe (group m 4)) _) as [pm|]; [|reflexivity].
  destruct (re_match secureRe _) as [sm|]; [|reflexivity].
  cbv zeta. rewrite effect_alias_select.
  destruct (select_amended content (indexOf content (mtext m)) (group m 2))
    as [hook|] eqn:E; [|reflexivity].
  apply select_amended_word in E as [[Hne _] _].
  destruct hook; [contradiction|reflexivity].
Qed.

Lemma extract_total content label : is_Some (extract content label).
Proof.
  rewrite extract_cases.
  destruct (re_match onChangeRe content) as [m|]; [|eauto].
  destruct (re_match (policyRe (group m 4)) _); [|eauto].
  destruct (re_match secureRe _); [|eauto].
  cbv zeta. destruct (select_amended _ _ _); eauto.
Qed.

(** A record of symbols is only ever returned complete: each symbol is a
    non-empty string of [\w] code units, and the matched text is the result
    of the leftmost match. *)
Lemma extract_tokens content label log s :
  extract content label = Some (log, Some s) ->
  all_tokens s /\
  exists m, re_match onChangeRe content = Some m /\ fullMatch s = mtext m /\
            callbackAlias s = group m 2 /\
            select_amended content (indexOf content (mtext m)) (group m 2)
            = Some (useEffectAlias s).
Proof.
  rewrite extract_cases.
  destruct (re_match onChangeRe content) as [m|] eqn:E1; [|discriminate].
  destruct (re_match (policyRe (group m 4)) _) as [pm|] eqn:E2; [|discriminate].
  destruct (re_match secureRe _) as [sm|] eqn:E3; [|discriminate].
  cbv zeta.
  destruct (select_amended _ _ _) as [hook|] eqn:E4; [|discriminate].
  intros [= <- <-]. split; [|exists m; auto].
  destruct onChangeRe_shape as [Hg Hb].
  assert (Hm : forall n, 1 <= n <= 5 -> word_token (group m n)).
  { intros n Hn. eapply re_match_group; [exact E1|exact Hg|apply Hb, Hn]. }
  unfold all_tokens, symbols_of; simpl.
  do 5 (split; [apply Hm; lia|]).
  split; [eapply re_match_group; [exact E2|apply policyRe_shape..]|].
  split; [eapply re_match_group; [exact E3|apply secureRe_shape..]|].
  apply select_amended_word in E4 as [? _]. auto.
Qed.

(** * Symbolic execution of patchFile *)

Lemma string_length_append (a b : string) :
  String.length (a +:+ b) = String.length a + String.length b.
Proof. induction a as [|c a IH]; simpl; [reflexivity|]. rewrite IH. reflexivity. Qed.

Lemma bak_neq p : bak p <> p.
Proof.
  unfold bak. intros H. apply (f_equal String.length) in H.
  rewrite string_length_append in H. simpl in H. lia.
Qed.

(** The backup path differs from the live path. *)
Ltac bak_ne :=
  let H := fresh in intros H; exact (bak_neq _ (eq_sym H)).

(** No call of a short explicit trace satisfies the predicate. *)
Ltac no_such_call H :=
  repeat (apply Exists_cons in H as [H|H]; [contradiction|]);
  apply Exists_nil in H; contradiction.

Section ApplyFacts.
Variable analyze : list N -> string -> option (list msg * option analysis).

Lemma patchFile_with_cases p label w :
  patchFile_with analyze p label w =
  match files w !! p with
  | None =>
      Some (false, World (files w) (trace w ++ [OpExists p])
                         (out w ++ [LogFileNotFound label p]))
  | Some content =>
      let tr := (trace w ++ [OpExists p]) ++ [OpRead p] in
      if already_patched content then
        Some (true, World (files w) tr (out w ++ [LogAlreadyPatched label]))
      else
        match analyze content label with
        | None => None
        | Some (l, None) => Some (false, World (files w) tr (out w ++ l))
        | Some (l, Some a) =>
            if bool_decide (count_of content (target a) <> 1%Z) then
              Some (false,
                    World (files w) tr
                      ((out w ++ l)
                       ++ [LogAmbiguous label (count_of content (target a))]))
            else
              let patched := replace content (target a) (replacement a) in
              match files w !! bak p with
              | Some _ =>
                  Some (true,
                        World (<[p := patched]> (files w))
                          ((((tr ++ [OpExists (bak p)])
                             ++ [OpWrite p patched]) ++ [OpStat p])
                           ++ [OpStat (bak p)])
                          ((out w ++ l) ++ [LogPatched label]))
              | None =>
                  Some (true,
                        World (<[p := patched]> (<[bak p := content]> (files w)))
                          (((((tr ++ [OpExists (bak p)])
                              ++ [OpCopy p (bak p)])
                             ++ [OpWrite p patched]) ++ [OpStat p])
                           ++ [OpStat (bak p)])
                          (((out w ++ l) ++ [LogBackup label])
                           ++ [LogPatched label]))
              end
        end
  end.
Proof.
  unfold patchFile_with, bind, existsSync, readFileSync, record. simpl.
  destruct (files w !! p) as [content|] eqn:Ep; simpl; [|reflexivity].
  rewrite Ep. fold (already_patched content).
  destruct (already_patched content); [reflexivity|].
  unfold run_analysis. simpl.
  destruct (analyze content label) as [[l [a|]]|]; try reflexivity.
  cbn [bind logs ret]. fold (count_of content (target a)).
  destruct (bool_decide (count_of content (target a) <> 1%Z)); [reflexivity|].
  simpl.
  destruct (files w !! bak p) as [b|] eqn:Eb; simpl.
  - unfold statSync, record. simpl.
    rewrite lookup_insert_eq. simpl.
    rewrite lookup_insert_ne by bak_ne.
    rewrite Eb. reflexivity.
  - unfold copyFileSync. simpl. rewrite Ep. simpl.
    unfold statSync, record. simpl.
    rewrite lookup_insert_eq. simpl.
    rewrite lookup_insert_ne by bak_ne.
    rewrite lookup_insert_eq. reflexivity.
Qed.
End ApplyFacts.

(** * String methods *)

Lemma index_from_sound needle s : forall i j,
  index_from needle s i = Some j ->
  exists pre post, s = pre ++ needle ++ post /\ j = i + length pre.
Proof.
  induction s as [|c s IH]; intros i j H; simpl in H.
  - destruct (strip_prefix needle []) eqn:E; [|discriminate]. injection H as <-.
    apply strip_prefix_app in E. exists [], l. split; [exact E|simpl; lia].
  - destruct (strip_prefix needle (c :: s)) eqn:E.
    + injection H as <-. apply strip_prefix_app in E.
      exists [], l. split; [exact E|simpl; lia].
    + apply IH in H as (pre & post & -> & ->).
      exists (c :: pre), post. split; [reflexivity|simpl; lia].
Qed.

Lemma index_from_complete needle pre : forall post i,
  is_Some (index_from needle (pre ++ needle ++ post) i).
Proof.
  induction pre as [|c pre IH]; intros post i.
  - simpl app. assert (strip_prefix needle (needle ++ post) = Some post) as E
      by (apply strip_prefix_app; reflexivity).
    destruct (needle ++ post); simpl; simpl in E; rewrite E; eauto.
  - simpl. destruct (strip_prefix needle (c :: pre ++ needle ++ post)); eauto.
Qed.

Lemma includes_app s pre needle post :
  s = pre ++ needle ++ post -> includes s needle = true.
Proof.
  intros ->. unfold includes. apply bool_decide_eq_true, index_from_complete.
Qed.

Lemma get_substitution_plain matched before after templ :
  Forall (fun c => negb (N.eqb c 36) = true) templ ->
  get_substitution matched before after templ = templ.
Proof.
  induction 1 as [|c t Hc Ht IH]; [reflexivity|].
  simpl. apply negb_true_iff in Hc. rewrite Hc, IH. reflexivity.
Qed.

(** A replacement text without [$] is inserted as it is, in place of the
    first occurrence of the pattern. *)
Lemma replace_plain s pat repl :
  Forall (fun c => negb (N.eqb c 36) = true) repl ->
  is_Some (index_from pat s 0) ->
  exists pre post, s = pre ++ pat ++ post /\
                   replace s pat repl = pre ++ repl ++ post.
Proof.
  intros Hr [i Hi]. unfold replace. rewrite Hi.
  apply index_from_sound in Hi as (pre & post & -> & ->). simpl.
  exists pre, post. split; [reflexivity|].
  rewrite get_substitution_plain by exact Hr.
  rewrite take_app_length.
  replace (drop (length pre + length pat) (pre ++ pat ++ post)) with post;
    [reflexivity|].
  rewrite (app_assoc pre pat post), <- length_app, drop_app_length. reflexivity.
Qed.

Lemma split_go_pos sep s k p : 1 <= length (split_go sep s k p).
Proof.
  revert k p. induction s as [|c s IH]; intros k p; simpl; [lia|].
  destruct k; [|apply IH].
  destruct (strip_prefix sep (c :: s)); simpl; [lia|apply IH].
Qed.

Lemma split_go_skip sep x : forall s p,
  split_go sep (x ++ s) (length x) p = split_go sep s 0 p.
Proof.
  induction x as [|c x IH]; intros s p; [reflexivity|]. simpl. apply IH.
Qed.

(** Each occurrence of a non-empty separator adds a piece. *)
Lemma split_go_step sep pre : forall rest p,
  sep <> [] ->
  exists u, length (split_go sep (pre ++ sep ++ rest) 0 p) =
            S (length (split_go sep (u ++ rest) 0 [])).
Proof.
  induction pre as [|c pre IH]; intros rest p Hsep.
  - destruct sep as [|a sep]; [contradiction|]. exists []. simpl.
    rewrite N.eqb_refl.
    assert (strip_prefix sep (sep ++ rest) = Some rest) as ->
      by (apply strip_prefix_app; reflexivity).
    simpl. rewrite split_go_skip. reflexivity.
  - simpl. destruct (strip_prefix sep (c :: pre ++ sep ++ rest)) as [t|] eqn:E.
    + destruct sep as [|a sep']; [contradiction|].
      apply strip_prefix_app in E. simpl in E. injection E as _ E.
      exists (drop (length sep') (pre ++ a :: sep')).
      simpl length. simpl pred. f_equal.
      simpl app. rewrite E at 1. rewrite split_go_skip. f_equal.
      assert (t = drop (length sep') (sep' ++ t)) as Ht
        by (rewrite drop_app_length; reflexivity).
      rewrite Ht, <- E.
      change (pre ++ a :: sep' ++ rest) with (pre ++ (a :: sep') ++ rest).
      rewrite (app_assoc pre), drop_app_le; [reflexivity|].
      rewrite length_app. simpl. lia.
    + destruct (IH rest (p ++ [c]) Hsep) as [u Hu]. exists u. exact Hu.
Qed.

Lemma count_of_twice pre tgt mid post :
  tgt <> [] ->
  (2 <= count_of (pre ++ tgt ++ mid ++ tgt ++ post) tgt)%Z.
Proof.
  intros Ht. unfold count_of, split.
  assert (forall s, match tgt with
                    | [] => map (fun c => [c]) s
                    | _ :: _ => split_go tgt s 0 []
                    end = split_go tgt s 0 []) as ->
    by (intros s; destruct tgt; [contradiction|reflexivity]).
  destruct (split_go_step tgt pre (mid ++ tgt ++ post) [] Ht) as [u ->].
  rewrite app_assoc.
  destruct (split_go_step tgt (u ++ mid) post [] Ht) as [v ->].
  pose proof (split_go_pos tgt (v ++ post) 0 []). lia.
Qed.

(** * The patched text is recognised as patched *)

Lemma is_word_range c :
  is_word c = true ->
  (48 <= c <= 57 \/ 65 <= c <= 90 \/ 97 <= c <= 122 \/ c = 95)%N.
Proof.
  unfold is_word. rewrite !orb_true_iff, !andb_true_iff, !N.leb_le, N.eqb_eq.
  tauto.
Qed.

Lemma word_no_brace c : is_word c = true -> in_class (cnot 125) c = true.
Proof.
  intros H. apply is_word_range in H. unfold in_class, cnot.
  cbn [cneg citems existsb in_item]. rewrite orb_false_r.
  destruct (N.eqb_spec 125 c); [lia|reflexivity].
Qed.

Lemma word_no_dollar c : is_word c = true -> negb (N.eqb c 36) = true.
Proof.
  intros H. apply is_word_range in H.
  destruct (N.eqb_spec c 36); [lia|reflexivity].
Qed.

Lemma token_no_brace w :
  word_token w -> Forall (fun c => in_class (cnot 125) c = true) w.
Proof. intros [_ H]. eapply Forall_impl; [exact H|]. apply word_no_brace. Qed.

Lemma token_no_dollar w :
  word_token w -> Forall (fun c => negb (N.eqb c 36) = true) w.
Proof. intros [_ H]. eapply Forall_impl; [exact H|]. apply word_no_dollar. Qed.

Lemma token_length w : word_token w -> 1 <= length w.
Proof. intros [H _]. destruct w; [contradiction|simpl; lia]. Qed.

Create HintDb tokens.
#[local] Hint Resolve token_no_brace token_no_dollar token_length : tokens.

Lemma matches_str p l t c :
  matches (Str l) (MState p (l ++ t) c) (MState (last_char p l) t c).
Proof. apply (M_Str l (MState p (l ++ t) c)). apply strip_prefix_app. reflexivity. Qed.

Lemma matches_rep cl lo hi p w t c :
  Forall (fun x => in_class cl x = true) w -> lo <= length w ->
  fits (length w) hi ->
  matches (Rep cl lo hi) (MState p (w ++ t) c) (MState (last_char p w) t c).
Proof. intros. apply (M_Rep cl lo hi (MState p (w ++ t) c)); auto. Qed.

Lemma matches_at_intro r pre w post st' :
  matches r (MState (last pre) (w ++ post) no_caps) st' ->
  rest st' = post ->
  matches_at r (pre ++ w ++ post) (length pre) w (caps st').
Proof.
  intros Hm Hr. exists pre, post. split; [reflexivity|]. split; [reflexivity|].
  destruct (matches_rest _ _ _ Hm) as (w' & E & P & _). simpl in E, P.
  rewrite Hr in E. apply app_inv_tail in E. subst w'.
  destruct st' as [p' r' c']. simpl in *. subst. exact Hm.
Qed.

Lemma onChangeRe_no_dollar :
  alphabet (fun c => negb (N.eqb c 36)) onChangeRe.
Proof.
  assert (Hw : forall c, in_class cw c = true -> negb (N.eqb c 36) = true).
  { intros c H. apply word_no_dollar, is_word_in_cw, H. }
  simpl. repeat split; try reflexivity; try exact Hw.
  intros c. unfold in_class, cwcomma.
  cbn [cneg citems existsb in_item xorb]. rewrite orb_false_r.
  intros H. apply orb_prop in H as [H|H]; [apply word_no_dollar, H|].
  apply N.eqb_eq in H. subst. reflexivity.
Qed.

Lemma re_match_no_dollar content m :
  re_match onChangeRe content = Some m ->
  Forall (fun c => negb (N.eqb c 36) = true) (mtext m).
Proof.
  intros H. apply re_match_sound in H as [(pre & post & _ & _ & Hm) _].
  destruct (matches_alphabet _ _ _ _ Hm onChangeRe_no_dollar (no_caps_all _))
    as [Hw _].
  simpl in Hw. rewrite consumed_app in Hw. exact Hw.
Qed.

Lemma re_match_occurs r content m :
  re_match r content = Some m ->
  exists pre post, content = pre ++ mtext m ++ post.
Proof.
  intros H. apply re_match_sound in H as [(pre & post & E & _) _]. eauto.
Qed.

Lemma analyzeFile_cases content label :
  analyzeFile content label =
  match extract content label with
  | Some (log, r) => Some (log, (fun s => build s label) <$> r)
  | None => None
  end.
Proof. reflexivity. Qed.

Lemma analyzeFile_total content label : is_Some (analyzeFile content label).
Proof.
  rewrite analyzeFile_cases.
  destruct (extract_total content label) as [[log r] ->]. eauto.
Qed.

Lemma analyzeFile_success content label log a :
  analyzeFile content label = Some (log, Some a) ->
  exists s, extract content label = Some (log, Some s) /\ a = build s label.
Proof.
  rewrite analyzeFile_cases.
  destruct (extract content label) as [[l [s|]]|]; try discriminate.
  intros [= <- <-]. eauto.
Qed.

Lemma lit_forall (P : N -> bool) (l : list N) :
  forallb P l = true -> Forall (fun c => P c = true) l.
Proof.
  rewrite forallb_forall. intros H. apply Forall_forall. intros c Hc.
  apply H, list_elem_of_In, Hc.
Qed.

Lemma patchCode_no_dollar s :
  all_tokens s -> Forall (fun c => negb (N.eqb c 36) = true) (patchCode s).
Proof.
  intros (_ & _ & _ & He & Hc & Hp & Hs & Hu). unfold patchCode.
  repeat (apply Forall_app; split);
    try (solve [auto with tokens]);
    apply lit_forall; reflexivity.
Qed.

(** The patch matches the pattern that [patchFile] looks for. *)
Lemma patchCode_recognised s pre post :
  all_tokens s ->
  occurs existingPatchRe (pre ++ patchCode s ++ post).
Proof.
  intros (_ & _ & _ & He & Hc & Hp & Hs & Hu).
  set (body1 := policyVar s ++ lit "===" ++ enumAlias s ++ lit ".").
  set (body2 := lit "&&!" ++ secureVar s ++ lit "&&" ++ confirmFn s ++ lit "(!0)").
  set (w := lit "_aep=" ++ useEffectAlias s ++ lit "(()=>{" ++ body1
            ++ lit "EAGER" ++ body2 ++ lit "},[])").
  assert (E : patchCode s ++ post = w ++ lit "," ++ post).
  { unfold patchCode, w, body1, body2. rewrite <- !app_assoc. simpl.
    repeat (rewrite <- !app_assoc; simpl). reflexivity. }
  rewrite E. exists (length pre), w.
  eexists. eapply matches_at_intro; cycle 1; [shelve|].
  unfold w, existingPatchRe, S_, plus. rewrite <- !app_assoc.
  eapply M_Seq; [apply matches_str|].
  eapply M_Seq; [apply matches_rep; [|auto with tokens|exact I]|].
  { destruct Hu as [_ Hu]. eapply Forall_impl; [exact Hu|].
    intros c. apply is_word_in_cw. }
  eapply M_Seq; [apply matches_str|].
  eapply M_Seq; [apply (matches_rep _ _ _ _ body1); [| |exact I]|].
  { unfold body1. repeat (apply Forall_app; split);
      try (solve [auto with tokens]); apply lit_forall; reflexivity. }
  { unfold body1. rewrite !length_app. simpl. lia. }
  eapply M_Seq; [apply matches_str|].
  eapply M_Seq; [apply (matches_rep _ _ _ _ body2); [| |exact I]|].
  { unfold body2. repeat (apply Forall_app; split);
      try (solve [auto with tokens]); apply lit_forall; reflexivity. }
  { unfold body2. rewrite !length_app. simpl. lia. }
  apply matches_str.
  Unshelve. reflexivity.
Qed.

Lemma patched_shape content label log s :
  extract content label = Some (log, Some s) ->
  exists pre post,
    content = pre ++ fullMatch s ++ post /\
    replace content (fullMatch s) (patchCode s ++ fullMatch s)
    = pre ++ (patchCode s ++ fullMatch s) ++ post.
Proof.
  intros He. apply extract_tokens in He as (Htok & m & Hm & Hf & _).
  assert (Hd : Forall (fun c => negb (N.eqb c 36) = true)
                 (patchCode s ++ fullMatch s)).
  { apply Forall_app. split; [apply patchCode_no_dollar, Htok|].
    rewrite Hf. eapply re_match_no_dollar, Hm. }
  destruct (re_match_occurs _ _ _ Hm) as (pre0 & post0 & E0).
  apply (replace_plain content (fullMatch s) _ Hd).
  rewrite Hf, E0. apply index_from_complete.
Qed.

Lemma patched_recognised content label log a :
  analyzeFile content label = Some (log, Some a) ->
  already_patched (replace content (target a) (replacement a)) = true.
Proof.
  intros H. apply analyzeFile_success in H as (s & He & ->).
  pose proof (extract_tokens _ _ _ _ He) as [Htok _].
  apply patched_shape in He as (pre & post & _ & Er).
  change (replace content (target (build s label)) (replacement (build s label)))
    with (replace content (fullMatch s) (patchCode s ++ fullMatch s)).
  rewrite Er. unfold already_patched. apply andb_true_intro. split.
  - unfold patchCode. rewrite <- !app_assoc.
    eapply (includes_app _ pre). reflexivity.
  - apply re_test_true. rewrite <- app_assoc.
    apply patchCode_recognised, Htok.
Qed.

(** * The index of the match *)

Lemma matches_relocate r st st' :
  matches r st st' -> no_boundary r ->
  forall w q t,
    rest st = w ++ rest st' ->
    matches r (MState q (w ++ t) (caps st))
              (MState (last_char q w) t (caps st')).
Proof.
  induction 1 as [l st t0 E|cl lo hi st w0 t0 Hs Hw Hlo Hhi|n r st st' Hm IH
                 |n l st t0 Ec E|n st Ec|st Hb|r1 r2 st st1 st2 H1 IH1 H2 IH2];
    simpl; intros Hnb w q t Hr.
  - apply strip_prefix_app in E. rewrite E in Hr. apply app_inv_tail in Hr.
    subst w. apply matches_str.
  - rewrite Hs in Hr. apply app_inv_tail in Hr. subst w.
    apply matches_rep; auto.
  - specialize (IH Hnb w q t Hr). apply M_Grp with (n := n) in IH.
    simpl in IH. rewrite consumed_app in IH. rewrite Hr, consumed_app. exact IH.
  - apply strip_prefix_app in E. rewrite E in Hr. apply app_inv_tail in Hr.
    subst w. apply (M_BrefSome n l (MState q (l ++ t) (caps st))); [exact Ec|].
    apply strip_prefix_app. reflexivity.
  - assert (w = []) as ->.
    { apply (f_equal length) in Hr. rewrite length_app in Hr.
      destruct w; [reflexivity|simpl in Hr; lia]. }
    apply (M_BrefNone n (MState q t (caps st))). exact Ec.
  - contradiction.
  - destruct Hnb as [Hn1 Hn2].
    destruct (matches_rest _ _ _ H1) as (w1 & E1 & _).
    destruct (matches_rest _ _ _ H2) as (w2 & E2 & _).
    assert (w = w1 ++ w2) as ->.
    { rewrite E1, E2, app_assoc in Hr. apply app_inv_tail in Hr. auto. }
    rewrite <- app_assoc, last_char_app.
    eapply M_Seq; [apply IH1; auto|apply IH2; auto].
Qed.

Lemma index_from_least needle s : forall i j,
  index_from needle s i = Some j ->
  forall pre post, s = pre ++ needle ++ post -> j <= i + length pre.
Proof.
  induction s as [|c s IH]; intros i j H pre post E; simpl in H.
  - destruct (strip_prefix needle []); [|discriminate]. injection H as <-. lia.
  - destruct (strip_prefix needle (c :: s)) eqn:Es.
    + injection H as <-. lia.
    + destruct pre as [|c' pre].
      * simpl in E. rewrite E in Es.
        assert (strip_prefix needle (needle ++ post) = Some post) as Es'
          by (apply strip_prefix_app; reflexivity).
        congruence.
      * simpl in E. injection E as _ E.
        specialize (IH (S i) j H pre post E). simpl. lia.
Qed.

Lemma onChangeRe_no_boundary : no_boundary onChangeRe.
Proof. simpl. tauto. Qed.

(** [content.indexOf(fullMatch)] is the index of the match itself: the
    matched text cannot occur earlier, since the shape would match there. *)
Lemma indexOf_match content m :
  re_match onChangeRe content = Some m ->
  indexOf content (mtext m) = Z.of_nat (mindex m).
Proof.
  intros Hm. destruct (re_match_sound _ _ _ Hm) as ((pre & post & E & Hl & H) & _ & Hleft).
  unfold indexOf.
  destruct (index_from (mtext m) content 0) as [j|] eqn:Ej.
  2: { pose proof (index_from_complete (mtext m) pre post 0) as [j Hj].
       rewrite <- E in Hj. congruence. }
  f_equal.
  pose proof (index_from_least _ _ _ _ Ej pre post E) as Hle. simpl in Hle.
  destruct (Nat.eq_dec j (mindex m)) as [->|Hne]; [reflexivity|].
  exfalso. apply index_from_sound in Ej as (pre' & post' & E' & ->).
  simpl in *. apply (Hleft (length pre') (mtext m) (mcaps m)); [lia|].
  exists pre', post'. split; [exact E'|]. split; [reflexivity|].
  apply (matches_relocate _ _ _ H onChangeRe_no_boundary (mtext m) (last pre') post').
  reflexivity.
Qed.

Lemma re_match_nonempty_text content m :
  re_match onChangeRe content = Some m -> mtext m <> [].
Proof.
  intros H. apply re_match_sound in H as (_ & Hl & _).
  assert (0 < min_len onChangeRe) by (vm_compute; lia).
  intros E. rewrite E in Hl. simpl in Hl. lia.
Qed.

(** * Occurrences of the matched text *)

Lemma positions_spec t s : forall k i,
  i ∈ positions t s k <->
  exists pre post, s = pre ++ t ++ post /\ i = k + length pre.
Proof.
  induction s as [|c s IH]; intros k i; simpl.
  - rewrite app_nil_r. destruct (strip_prefix t []) as [r|] eqn:E.
    + apply strip_prefix_app in E. rewrite list_elem_of_singleton. split.
      * intros ->. exists [], r. split; [exact E|simpl; lia].
      * intros (pre & post & E' & ->). destruct pre; [simpl; lia|discriminate].
    + split; [intros H; inversion H|].
      intros (pre & post & E' & _). destruct pre; [|discriminate].
      simpl in E'. rewrite E' in E.
      assert (strip_prefix t (t ++ post) = Some post)
        by (apply strip_prefix_app; reflexivity).
      congruence.
  - rewrite elem_of_app, IH. split.
    + intros [H|(pre & post & -> & ->)].
      * destruct (strip_prefix t (c :: s)) as [r|] eqn:E; [|inversion H].
        apply list_elem_of_singleton in H. subst i.
        apply strip_prefix_app in E. exists [], r. split; [exact E|simpl; lia].
      * exists (c :: pre), post. split; [reflexivity|simpl; lia].
    + intros (pre & post & E & ->). destruct pre as [|c' pre].
      * left. simpl in E.
        assert (strip_prefix t (c :: s) = Some post) as ->
          by (apply strip_prefix_app; exact E).
        apply list_elem_of_singleton. simpl. lia.
      * right. injection E as _ ->. exists pre, post.
        split; [reflexivity|simpl; lia].
Qed.

Lemma occurs_at_positions s t i : occurs_at s t i <-> i ∈ positions t s 0.
Proof.
  rewrite positions_spec. unfold occurs_at. split.
  - intros (pre & post & E & <-). eauto.
  - intros (pre & post & E & ->). eauto.
Qed.

Lemma split_go_absent sep s : forall p,
  sep <> [] ->
  (forall pre post, s <> pre ++ sep ++ post) ->
  length (split_go sep s 0 p) = 1.
Proof.
  induction s as [|c s IH]; intros p Hsep Hno; [reflexivity|].
  simpl. destruct (strip_prefix sep (c :: s)) as [r|] eqn:E.
  - apply strip_prefix_app in E. destruct (Hno [] r). exact E.
  - apply IH; [exact Hsep|]. intros pre post ->.
    apply (Hno (c :: pre) post). reflexivity.
Qed.

Lemma split_go_first sep pre : forall rest p,
  sep <> [] ->
  (forall pre' post', pre ++ sep ++ rest = pre' ++ sep ++ post' ->
                      length pre <= length pre') ->
  length (split_go sep (pre ++ sep ++ rest) 0 p)
  = S (length (split_go sep rest 0 [])).
Proof.
  induction pre as [|c pre IH]; intros rest p Hsep Hfirst.
  - destruct sep as [|a sep]; [contradiction|]. simpl.
    rewrite N.eqb_refl.
    assert (strip_prefix sep (sep ++ rest) = Some rest) as ->
      by (apply strip_prefix_app; reflexivity).
    simpl. rewrite split_go_skip. reflexivity.
  - simpl. destruct (strip_prefix sep (c :: pre ++ sep ++ rest)) as [t|] eqn:E.
    + apply strip_prefix_app in E.
      specialize (Hfirst [] t E). simpl in Hfirst. lia.
    + apply IH; [exact Hsep|]. intros pre' post' E'.
      specialize (Hfirst (c :: pre') post'). simpl in Hfirst.
      rewrite E' in Hfirst. specialize (Hfirst eq_refl). lia.
Qed.

Lemma split_nonempty s sep :
  sep <> [] -> split s sep = split_go sep s 0 [].
Proof. intros H. destruct sep; [contradiction|reflexivity]. Qed.

(** A text that occurs at one index only is counted once. *)
Lemma count_of_unique s t i0 :
  t <> [] -> occurs_at s t i0 ->
  (forall i, occurs_at s t i -> i = i0) ->
  count_of s t = 1%Z.
Proof.
  intros Ht (pre & post & -> & <-) Huniq.
  unfold count_of. rewrite split_nonempty by exact Ht.
  rewrite split_go_first; [|exact Ht|].
  - rewrite split_go_absent; [lia|exact Ht|].
    intros pre' post' ->.
    assert (length (pre ++ t ++ pre') = length pre) as Hl.
    { apply Huniq. exists (pre ++ t ++ pre'), post'.
      split; [rewrite <- !app_assoc; reflexivity|reflexivity]. }
    rewrite !length_app in Hl. destruct t; [contradiction|simpl in Hl; lia].
  - intros pre' post' E.
    assert (length pre' = length pre) as ->; [|lia].
    apply Huniq. exists pre', post'. auto.
Qed.

Lemma split_last_matches r : forall i f st st',
  split_last r = Some (i, f) -> matches r st st' ->
  exists mid, matches i st mid /\ matches f mid st'.
Proof.
  induction r as [l|cl lo hi|n r IH|n| |r1 IH1 r2 IH2]; intros i f st st' E Hm;
    simpl in E; try discriminate.
  inversion Hm as [| | | | | |? ? ? st1 ? H1 H2]; subst.
  destruct (split_last r2) as [[i2 f2]|] eqn:E2.
  - injection E as <- <-.
    destruct (IH2 _ _ _ _ eq_refl H2) as (mid & Hi & Hf).
    exists mid. split; [eapply M_Seq; eauto|exact Hf].
  - injection E as <- <-. exists st1. auto.
Qed.

Lemma matches_seq_inv r1 r2 st st' :
  matches (r1 <+> r2) st st' ->
  exists st1, matches r1 st st1 /\ matches r2 st1 st'.
Proof. intros H. inversion H; subst. eauto. Qed.

Lemma matches_grp_head n cl lo hi st st' :
  matches (Grp n (Rep cl (S lo) hi)) st st' ->
  exists c t, rest st = c :: t /\ in_class cl c = true.
Proof.
  intros H. inversion H as [| |? ? ? st0 H0| | | |]; subst.
  inversion H0 as [|? ? ? ? w t0 Hs Hw Hlo _| | | | |]; subst.
  destruct w as [|c w]; [simpl in Hlo; lia|].
  apply Forall_cons in Hw as [Hc _]. exists c, (w ++ t0). auto.
Qed.

Lemma shape_text_tail content m :
  re_match onChangeRe content = Some m ->
  exists u, mtext m = u ++ lit "])" /\
            Forall (fun x => negb (N.eqb x 93) = true) u.
Proof.
  intros H. apply re_match_sound in H as [(pre & post & _ & _ & Hm) _].
  destruct (split_last onChangeRe) as [[i f]|] eqn:E; [|discriminate].
  destruct (split_last_matches _ _ _ _ _ E Hm) as (mid & Hi & Hf).
  vm_compute in E. injection E as Ei Ef.
  assert (Ha : alphabet (fun x => negb (N.eqb x 93)) i).
  { rewrite <- Ei.
    assert (Hw : forall c, in_class cw c = true -> negb (N.eqb c 93) = true).
    { intros c Hc. apply is_word_in_cw, is_word_range in Hc.
      destruct (N.eqb_spec c 93); [lia|reflexivity]. }
    simpl. repeat split; try reflexivity; try exact Hw.
    intros c. unfold in_class.
    cbn [cneg citems existsb in_item xorb]. rewrite orb_false_r.
    intros Hc. apply orb_prop in Hc as [Hc|Hc].
    - apply Hw, is_word_in_cw, Hc.
    - apply N.eqb_eq in Hc. subst. reflexivity. }
  destruct (matches_alphabet _ _ _ _ Hi Ha (no_caps_all _)) as [Hu _].
  destruct (matches_rest _ _ _ Hi) as (u & Eu & _).
  destruct (matches_rest _ _ _ Hf) as (v & Ev & _ & Hv).
  simpl in Eu, Hu, Ev. rewrite Eu, consumed_app in Hu.
  rewrite <- Ef in Hf. inversion Hf as [l st t Es| | | | | |]; subst.
  apply strip_prefix_app in Es. rewrite Es in Eu. simpl in Eu.
  exists u. split; [|exact Hu].
  change (u ++ 93%N :: 41%N :: post) with (u ++ [93%N; 41%N] ++ post) in Eu.
  rewrite app_assoc in Eu. apply app_inv_tail in Eu. exact Eu.
Qed.

(** The matched text starts with a [\w] code unit and ends with [])]; the
    code unit 93 occurs nowhere before that ending. *)
Lemma shape_text_form content m :
  re_match onChangeRe content = Some m ->
  exists c u, mtext m = (c :: u) ++ lit "])" /\ is_word c = true /\
              Forall (fun x => negb (N.eqb x 93) = true) (c :: u).
Proof.
  intros H. destruct (shape_text_tail _ _ H) as (u & Eu & Hu).
  apply re_match_sound in H as [(pre & post & _ & _ & Hm) _].
  unfold onChangeRe, plus in Hm.
  apply matches_seq_inv in Hm as (st1 & Hg & _).
  apply matches_grp_head in Hg as (c & t & Ec & Hc). simpl in Ec.
  apply is_word_in_cw in Hc. rewrite Eu in Ec.
  destruct u as [|c' u].
  - simpl in Ec. injection Ec as <- _. vm_compute in Hc. discriminate.
  - simpl in Ec. injection Ec as -> _. exists c, u. auto.
Qed.

(** The matched text cannot overlap a second copy of itself. *)
Lemma shape_no_overlap content m pre1 post1 pre2 post2 :
  re_match onChangeRe content = Some m ->
  pre1 ++ mtext m ++ post1 = pre2 ++ mtext m ++ post2 ->
  length pre1 < length pre2 ->
  length pre1 + length (mtext m) <= length pre2.
Proof.
  intros H E Hlt. destruct (shape_text_form _ _ H) as (c & u & Et & Hc & Hu).
  destruct (Nat.le_gt_cases (length pre1 + length (mtext m)) (length pre2))
    as [Hle|Hgt]; [exact Hle|exfalso].
  set (t := mtext m) in *. set (n := length (c :: u)).
  assert (Hn : length t = n + 2) by (rewrite Et, length_app; reflexivity).
  assert (Hget : forall pre post j, j < length t ->
            (pre ++ t ++ post) !! (length pre + j) = t !! j).
  { intros pre post j Hj. rewrite lookup_app_r by lia.
    replace (length pre + j - length pre) with j by lia.
    apply lookup_app_l. exact Hj. }
  (* the code unit 93 of the first copy, seen from the second copy *)
  assert (H93 : t !! n = Some 93%N).
  { rewrite Et. rewrite lookup_app_r by (unfold n; lia).
    replace (n - length (c :: u)) with 0 by (unfold n; lia). reflexivity. }
  assert (Hlow : forall j x, j < n -> t !! j = Some x -> x <> 93%N).
  { intros j x Hj Hx. rewrite Et, lookup_app_l in Hx by exact Hj.
    rewrite Forall_forall in Hu. apply list_elem_of_lookup_2 in Hx.
    specialize (Hu x Hx). intros ->. discriminate. }
  set (k := length pre2 - length pre1).
  destruct (Nat.le_gt_cases k n) as [Hk|Hk].
  - (* the second copy holds 93 below index n *)
    pose proof (Hget pre1 post1 n ltac:(lia)) as G1.
    pose proof (Hget pre2 post2 (n - k) ltac:(lia)) as G2.
    rewrite E in G1.
    replace (length pre2 + (n - k)) with (length pre1 + n) in G2
      by (unfold k; lia).
    rewrite G1, H93 in G2. symmetry in G2.
    apply (Hlow (n - k) 93%N); [unfold k in *; lia|exact G2|reflexivity].
  - (* the second copy starts on the closing parenthesis *)
    assert (k = n + 1) as Hk1 by (unfold k in *; lia).
    pose proof (Hget pre1 post1 (n + 1) ltac:(lia)) as G1.
    pose proof (Hget pre2 post2 0 ltac:(lia)) as G2.
    rewrite E in G1.
    replace (length pre2 + 0) with (length pre1 + (n + 1)) in G2
      by (unfold k in *; lia).
    rewrite G1 in G2.
    assert (t !! (n + 1) = Some 41%N) as H41.
    { rewrite Et. rewrite lookup_app_r by (unfold n; lia).
      replace (n + 1 - length (c :: u)) with 1 by (unfold n; lia). reflexivity. }
    assert (t !! 0 = Some c) as H0 by (rewrite Et; reflexivity).
    rewrite H41, H0 in G2. injection G2 as <-. vm_compute in Hc. discriminate.
Qed.

(** Two occurrences of the matched text are counted as at least two. *)
Lemma count_of_two content m i j :
  re_match onChangeRe content = Some m -> i <> j ->
  occurs_at content (mtext m) i -> occurs_at content (mtext m) j ->
  (2 <= count_of content (mtext m))%Z.
Proof.
  assert (Hord : forall i j,
            re_match onChangeRe content = Some m -> i < j ->
            occurs_at content (mtext m) i -> occurs_at content (mtext m) j ->
            (2 <= count_of content (mtext m))%Z).
  { clear i j. intros i j Hm Hlt (pre1 & post1 & E1 & L1) (pre2 & post2 & E2 & L2).
    assert (Hno : length pre1 + length (mtext m) <= length pre2).
    { eapply shape_no_overlap; [exact Hm| |lia]. rewrite <- E1, <- E2. reflexivity. }
    (* the second copy lies within [post1] *)
    assert (Epre : pre2 = pre1 ++ mtext m
                          ++ drop (length pre1 + length (mtext m)) pre2).
    { rewrite app_assoc.
      rewrite <- (take_drop (length pre1 + length (mtext m)) pre2) at 1.
      f_equal.
      assert (take (length pre1 + length (mtext m)) (pre2 ++ mtext m ++ post2)
              = take (length pre1 + length (mtext m)) (pre1 ++ mtext m ++ post1))
        as Ht by (rewrite <- E1, <- E2; reflexivity).
      rewrite take_app_le in Ht by lia.
      rewrite (app_assoc pre1) in Ht.
      rewrite <- (length_app pre1 (mtext m)) in Ht.
      rewrite take_app_length, length_app in Ht. exact Ht. }
    rewrite E2 at 1. rewrite Epre, <- !app_assoc.
    apply count_of_twice. eapply re_match_nonempty_text; eauto. }
  intros Hm Hne Hi Hj. destruct (Nat.lt_total i j) as [H|[H|H]].
  - eapply Hord; eauto.
  - contradiction.
  - eapply (Hord j i); eauto.
Qed.

Lemma unique_target_count content m :
  re_match onChangeRe content = Some m ->
  (forall i, occurs_at content (mtext m) i -> i = mindex m) ->
  count_of content (mtext m) = 1%Z.
Proof.
  intros Hm Hu. apply (count_of_unique _ _ (mindex m)); [|  |exact Hu].
  - eapply re_match_nonempty_text; eauto.
  - destruct (re_match_sound _ _ _ Hm) as ((pre & post & E & L & _) & _).
    exists pre, post. auto.
Qed.

(** * Extraction: success and failure *)

Lemma has_policy_iff content m :
  re_match onChangeRe content = Some m ->
  has_policy content <->
  is_Some (re_match (policyRe (group m 4)) (before content m)).
Proof.
  intros Hm. unfold has_policy. split.
  - intros (m' & Hm' & (i & w & c & H)). rewrite Hm in Hm'. injection Hm' as <-.
    eapply re_match_complete, H.
  - intros [pm H]. exists m. split; [exact Hm|].
    apply re_match_sound in H as [H _]. do 3 eexists. exact H.
Qed.

Lemma has_secure_iff content m :
  re_match onChangeRe content = Some m ->
  has_secure content <-> is_Some (re_match secureRe (before content m)).
Proof.
  intros Hm. unfold has_secure. split.
  - intros (m' & Hm' & (i & w & c & H)). rewrite Hm in Hm'. injection Hm' as <-.
    eapply re_match_complete, H.
  - intros [pm H]. exists m. split; [exact Hm|].
    apply re_match_sound in H as [H _]. do 3 eexists. exact H.
Qed.

Lemma has_candidate_iff content m :
  re_match onChangeRe content = Some m ->
  has_candidate content <->
  is_Some (select_amended content (indexOf content (mtext m)) (group m 2)).
Proof.
  intros Hm. unfold has_candidate. split.
  - intros (m' & Hm' & H). rewrite Hm in Hm'. injection Hm' as <-.
    destruct (select_amended _ _ _) eqn:E; [eauto|].
    apply select_amended_none in E as [E1 E5]. rewrite E1, E5 in H.
    contradiction.
  - intros [a H]. exists m. split; [exact Hm|]. intros E.
    apply app_eq_nil in E as [E1 E5].
    rewrite (proj2 (select_amended_none _ _ _) (conj E1 E5)) in H. discriminate.
Qed.

Lemma extract_success content label :
  has_policy content -> has_secure content -> has_candidate content ->
  exists log s, extract content label = Some (log, Some s) /\ all_tokens s.
Proof.
  intros Hp Hs Hc. destruct Hp as (m & Hm & Hp').
  assert (Hp : has_policy content) by (exists m; auto).
  apply (has_policy_iff _ _ Hm) in Hp as [pm Hp].
  apply (has_secure_iff _ _ Hm) in Hs as [sm Hs].
  apply (has_candidate_iff _ _ Hm) in Hc as [hook Hc].
  pose proof (extract_cases content label) as E.
  rewrite Hm, Hp, Hs in E. cbv zeta in E. rewrite Hc in E.
  do 2 eexists. split; [exact E|]. eapply extract_tokens, E.
Qed.

Lemma extract_failure content label :
  ~ has_policy content \/ ~ has_secure content \/ ~ has_candidate content ->
  exists log, extract content label = Some (log, None).
Proof.
  intros H. rewrite extract_cases.
  destruct (re_match onChangeRe content) as [m|] eqn:Hm; [|eauto].
  destruct (re_match (policyRe (group m 4)) _) as [pm|] eqn:Hp; [|eauto].
  destruct (re_match secureRe _) as [sm|] eqn:Hs; [|eauto].
  cbv zeta. destruct (select_amended _ _ _) as [hook|] eqn:Hc; [|eauto].
  exfalso. destruct H as [H|[H|H]]; apply H.
  - apply (has_policy_iff _ _ Hm). eauto.
  - apply (has_secure_iff _ _ Hm). eauto.
  - apply (has_candidate_iff _ _ Hm). eauto.
Qed.

Lemma occurs_re_match r s : occurs r s <-> is_Some (re_match r s).
Proof.
  split.
  - intros (i & w & c & H). eapply re_match_complete, H.
  - intros [m H]. apply re_match_sound in H as [H _]. do 3 eexists. exact H.
Qed.

Lemma occurs_test r s : re_test r s = true -> occurs r s.
Proof. apply re_test_true. Qed.

(** [match_here] decides whether the pattern matches at a given index. *)
Lemma shape_here content i m :
  match_here onChangeRe (last (take i content)) (drop i content) i = Some m ->
  i <= length content ->
  shape_at content i.
Proof.
  intros H Hi. apply match_here_sound in H as (post & E & _ & _ & Hm).
  exists (mtext m), (mcaps m), (take i content), post.
  split; [rewrite <- E; symmetry; apply take_drop|].
  split; [apply length_take_le, Hi|]. rewrite <- E. exact Hm.
Qed.
(** * The successive matches of a pattern *)

(** The greedy quantifier takes the longest run of code units after which
    the rest of the pattern succeeds. *)
Lemma rep_match_first {A} cl s :
  forall lo hi p (k : option N -> list N -> option A) a,
  rep_match cl lo hi p s k = Some a ->
  exists w t,
    s = w ++ t /\ Forall (fun c => in_class cl c = true) w /\
    lo <= length w /\ fits (length w) hi /\ k (last_char p w) t = Some a /\
    forall w' t',
      s = w' ++ t' -> Forall (fun c => in_class cl c = true) w' ->
      fits (length w') hi -> length w < length w' ->
      k (last_char p w') t' = None.
Proof.
  induction s as [|x s IH]; intros lo hi p k a H; simpl in H.
  - destruct lo; [|discriminate].
    exists [], []. repeat split; auto.
    + destruct hi; simpl; lia.
    + intros w' t' E _ _ Hlen. symmetry in E.
      apply app_eq_nil in E as [-> _]. simpl in Hlen. lia.
  - assert (Hstop :
      (forall w'' t', s = w'' ++ t' ->
         Forall (fun c => in_class cl c = true) (x :: w'') ->
         fits (S (length w'')) hi ->
         k (last_char (Some x) w'') t' = None) ->
      match lo with O => k p (x :: s) | S _ => None end = Some a ->
      exists w t,
        x :: s = w ++ t /\ Forall (fun c => in_class cl c = true) w /\
        lo <= length w /\ fits (length w) hi /\
        k (last_char p w) t = Some a /\
        forall w' t',
          x :: s = w' ++ t' -> Forall (fun c => in_class cl c = true) w' ->
          fits (length w') hi -> length w < length w' ->
          k (last_char p w') t' = None).
    { intros Hno E. destruct lo; [|discriminate].
      exists [], (x :: s). repeat split; auto.
      - destruct hi; simpl; lia.
      - intros w' t' E' Hw' Hhi Hlen. destruct w' as [|y w''].
        + simpl in Hlen. lia.
        + simpl in E'. injection E' as <- E'.
          rewrite last_char_cons. apply Hno; auto. }
    destruct (in_class cl x && room hi) eqn:Hc.
    + apply andb_prop in Hc as [Hx Hr].
      destruct (rep_match cl (pred lo) (dec hi) (Some x) s k) as [b|] eqn:E.
      * injection H as ->.
        apply IH in E as (w & t & -> & Hw & Hlo & Hhi & Hk & Hmax).
        exists (x :: w), t. rewrite last_char_cons. repeat split; auto.
        -- simpl. lia.
        -- destruct hi as [[|h]|]; simpl in *; try discriminate; lia.
        -- intros w' t' E' Hw' Hhi' Hlen. destruct w' as [|y w''].
           ++ simpl in Hlen. lia.
           ++ simpl in E'. injection E' as <- E'.
              apply Forall_cons in Hw' as [_ Hw'].
              rewrite last_char_cons. apply Hmax; auto.
              ** destruct hi as [h|]; simpl in *; auto. lia.
              ** simpl in Hlen. lia.
      * apply Hstop; [|exact H].
        intros w'' t' -> Hw' Hhi'. apply Forall_cons in Hw' as [_ Hw'].
        destruct (k (last_char (Some x) w'') t') as [b|] eqn:Ek; [|reflexivity].
        exfalso.
        assert (Hlo : pred lo <= length w'')
          by (destruct lo; [simpl; lia|discriminate]).
        assert (Hhi : fits (length w'') (dec hi))
          by (destruct hi as [h|]; simpl in *; auto; lia).
        assert (Hk : is_Some (k (last_char (Some x) w'') t'))
          by (rewrite Ek; eauto).
        destruct (rep_match_complete cl w'' (pred lo) (dec hi) (Some x) t' k
                    Hw' Hlo Hhi Hk) as [b' Hb'].
        congruence.
    + apply Hstop; [|exact H].
      intros w'' t' _ Hw' Hhi'. apply Forall_cons in Hw' as [Hx _].
      rewrite Hx in Hc. simpl in Hc.
      destruct hi as [[|h]|]; simpl in *; try discriminate; lia.
Qed.

(** A text without a match at its start is scanned as the text after its
    first code unit. *)
Lemma scan_shift r p c t l :
  (forall st', ~ matches r (MState p (c :: t) no_caps) st') ->
  scan r (Some c) t l -> scan r p (c :: t) l.
Proof.
  intros Hno H.
  inversion H as [p0 s0 Hnone|p0 pre w post cp l0 Hleft Hm Hlong Htail];
    subst.
  - apply scan_end. intros pre s' st' E. destruct pre as [|x pre].
    + simpl in E. subst s'. apply Hno.
    + simpl in E. injection E as <- ->. rewrite last_char_cons.
      eapply Hnone. reflexivity.
  - change (c :: pre ++ w ++ post) with ((c :: pre) ++ w ++ post).
    apply scan_next; rewrite ?last_char_cons; auto.
    intros pre' s' st' E Hlt. destruct pre' as [|x pre'].
    + simpl in E. subst s'. apply Hno.
    + simpl in E. injection E as <- E. rewrite last_char_cons.
      apply Hleft; [exact E|simpl in Hlt; lia].
Qed.

(** The [exec] loop visits the matches that [scan] describes. *)
Lemma exec_loop_scan r s :
  takes_longest r ->
  forall p i skip ms,
    skip <= length s ->
    exec_loop r p s i skip = Some ms ->
    scan r (last_char p (take skip s)) (drop skip s)
         (map (fun m => group m 1) ms).
Proof.
  intros Hlong. induction s as [|c t IH]; intros p i skip ms Hskip H.
  - simpl in Hskip. assert (skip = 0) as -> by lia. simpl in H.
    destruct (match_here r p [] i) as [m|] eqn:E.
    + apply match_here_sound in E as (post & Es & _).
      symmetry in Es. apply app_eq_nil in Es as [Em _].
      rewrite Em in H. simpl in H. discriminate.
    + injection H as <-. apply scan_end.
      intros pre s' st' Es Hm. symmetry in Es.
      apply app_eq_nil in Es as [-> ->].
      destruct (match_here_complete r p [] i _ Hm) as [m Em]. congruence.
  - destruct skip as [|k]; simpl in H.
    + change (scan r p (c :: t) (map (fun m => group m 1) ms)).
      destruct (match_here r p (c :: t) i) as [m|] eqn:E.
      * destruct (mtext m) as [|x w] eqn:Ew; [discriminate|].
        simpl in H.
        destruct (exec_loop r (Some c) t (S i) (length w)) as [l|] eqn:El;
          [|discriminate].
        simpl in H. injection H as <-.
        pose proof (fun st' => Hlong _ _ _ _ st' E) as Hmax.
        apply match_here_sound in E as (post & Es & _ & _ & Hm).
        rewrite Ew in Es, Hm, Hmax. simpl in Es. injection Es as <- ->.
        apply IH in El; [|rewrite length_app; lia].
        rewrite take_app_length, drop_app_length in El.
        simpl map. unfold group at 1.
        apply (scan_next r p [] (c :: w) post (mcaps m)).
        -- intros pre' s' st' _ Hlt. simpl in Hlt. lia.
        -- exact Hm.
        -- intros st' Hm'. specialize (Hmax st' Hm').
           simpl in Hmax. rewrite length_app in Hmax. simpl. lia.
        -- simpl last_char at 2. rewrite last_char_cons. exact El.
      * apply scan_shift.
        -- intros st' Hm. destruct (match_here_complete r p (c :: t) i _ Hm)
             as [m Em]. congruence.
        -- apply (IH (Some c) (S i) 0 ms); [lia|exact H].
    + simpl. rewrite last_char_cons. apply (IH (Some c) (S i) k ms);
        [simpl in Hskip; lia|exact H].
Qed.

(** The successive matches are determined by the text. *)
Lemma scan_functional r :
  one_alias r ->
  forall p s l1, scan r p s l1 -> forall l2, scan r p s l2 -> l1 = l2.
Proof.
  intros Hone p s l1 H1.
  induction H1 as [p s Hnone|p pre w post c l Hleft Hm Hlong Htail IH];
    intros l2 H2.
  - inversion H2 as [|p0 pre w post c l Hleft Hm Hlong Htail]; subst;
      [reflexivity|].
    exfalso. eapply Hnone; [reflexivity|exact Hm].
  - remember (pre ++ w ++ post) as s eqn:E.
    destruct H2 as [p s Hnone|p pre2 w2 post2 c2 l2' Hleft2 Hm2 Hlong2
                      Htail2].
    + exfalso. eapply Hnone; [exact E|exact Hm].
    + assert (Hlen : length pre = length pre2).
      { destruct (Nat.lt_trichotomy (length pre) (length pre2))
          as [Hlt|[Heq|Hgt]]; [|exact Heq|]; exfalso.
        - eapply (Hleft2 pre (w ++ post)); [exact E|exact Hlt|exact Hm].
        - eapply (Hleft pre2 (w2 ++ post2));
            [reflexivity|exact Hgt|exact Hm2]. }
      symmetry in E. destruct (app_inj_1 _ _ _ _ Hlen E) as [<- E'].
      rewrite <- E' in Hm2, Hlong2.
      pose proof (Hlong _ Hm2) as L1.
      pose proof (Hlong2 _ Hm) as L2. simpl in L1, L2.
      assert (Hpost : length post = length post2) by lia.
      destruct (app_inj_2 _ _ _ _ Hpost E') as [<- <-].
      rewrite (Hone _ _ _ Hm Hm2 : c 1 = c2 1). f_equal.
      apply IH. exact Htail2.
Qed.

(** [hits] lists the successive matches, and nothing else does. *)
Lemma hits_scan r s :
  0 < min_len r -> takes_longest r -> scan r None s (hits r s).
Proof.
  intros Hr Hl. destruct (exec_all_hits r s Hr) as (ms & E & ->).
  apply (exec_loop_scan r s Hl None 0 0 ms); [lia|exact E].
Qed.

Lemma scan_hits r s l :
  0 < min_len r -> takes_longest r -> one_alias r ->
  scan r None s l -> l = hits r s.
Proof.
  intros Hr Hl Ho H. eapply scan_functional; [exact Ho|exact H|].
  apply hits_scan; assumption.
Qed.

(** * The two hook patterns

    Both start with [\b(\w{2,3})\(\(\)=>\{].  The alias ends at the first
    code unit that is not [\w], so a start has one alias; the effect shape
    has one match at a start, and of the cleanup shape the matcher takes
    the longest. *)

Lemma split_unique (P : N -> bool) a :
  forall a' x x' t t',
    Forall (fun c => P c = true) a -> Forall (fun c => P c = true) a' ->
    P x = false -> P x' = false ->
    a ++ x :: t = a' ++ x' :: t' -> a = a' /\ t = t'.
Proof.
  induction a as [|y a IH]; intros [|y' a'] x x' t t' Ha Ha' Hx Hx' E;
    simpl in E.
  - injection E as _ ->. auto.
  - injection E as -> _. apply Forall_cons in Ha' as [Hy _]. congruence.
  - injection E as <- _. apply Forall_cons in Ha as [Hy _]. congruence.
  - injection E as <- E. apply Forall_cons in Ha as [_ Ha].
    apply Forall_cons in Ha' as [_ Ha'].
    destruct (IH _ _ _ _ _ Ha Ha' Hx Hx' E) as [-> ->]. auto.
Qed.

Lemma matches_str_inv l st st' :
  matches (Str l) st st' ->
  exists t, rest st = l ++ t /\
            st' = MState (last_char (prev st) l) t (caps st).
Proof.
  intros H. inversion H as [l0 st0 t E| | | | | |]; subst.
  apply strip_prefix_app in E. eauto.
Qed.

Lemma matches_rep_inv cl lo hi st st' :
  matches (Rep cl lo hi) st st' ->
  exists w t,
    rest st = w ++ t /\ Forall (fun c => in_class cl c = true) w /\
    lo <= length w /\ fits (length w) hi /\
    st' = MState (last_char (prev st) w) t (caps st).
Proof. intros H. inversion H; subst. eauto 10. Qed.

Lemma run_seq_sound {A} r1 r2 st (k : mstate -> option A) a :
  run (r1 <+> r2) st k = Some a ->
  exists st1, matches r1 st st1 /\ run r2 st1 k = Some a.
Proof. simpl. intros H. apply run_sound in H. exact H. Qed.

Lemma hook_head_inv st st1 st2 st3 :
  matches WordB st st1 ->
  matches (Grp 1 (range cw 2 3)) st1 st2 ->
  matches (S_ "(()=>{") st2 st3 ->
  exists a t,
    rest st = a ++ lit "(()=>{" ++ t /\
    Forall (fun c => in_class cw c = true) a /\
    st3 = MState (last_char (last_char (prev st) a) (lit "(()=>{")) t
                 (set_cap 1 a (caps st)).
Proof.
  intros Hb Hg Hs. inversion Hb; subst.
  inversion Hg as [| |n r0 st0 st' Hr| | | |]; subst.
  apply matches_rep_inv in Hr as (a & t0 & Ea & Ha & _ & _ & ->).
  apply matches_str_inv in Hs as (t & Et & ->).
  cbn [prev rest caps] in *. subst t0.
  exists a, t. rewrite Ea, consumed_app. auto.
Qed.

Lemma hook_head_unique a a' t t' :
  Forall (fun c => in_class cw c = true) a ->
  Forall (fun c => in_class cw c = true) a' ->
  a ++ lit "(()=>{" ++ t = a' ++ lit "(()=>{" ++ t' -> a = a' /\ t = t'.
Proof.
  intros Ha Ha' E.
  change (a ++ 40%N :: (lit "()=>{" ++ t)
          = a' ++ 40%N :: (lit "()=>{" ++ t')) in E.
  destruct (split_unique (in_class cw) a a' 40%N 40%N _ _ Ha Ha'
              eq_refl eq_refl E) as [-> E'].
  apply app_inv_head in E'. auto.
Qed.

Lemma effectRe_inv st st' :
  matches effectRe st st' ->
  exists a b t,
    rest st = a ++ lit "(()=>{" ++ b ++ lit "},[" ++ t /\
    Forall (fun c => in_class cw c = true) a /\
    Forall (fun c => in_class (cnot 125) c = true) b /\
    rest st' = t /\ caps st' = set_cap 1 a (caps st).
Proof.
  unfold effectRe. intros H.
  apply matches_seq_inv in H as (st1 & Hb & H).
  apply matches_seq_inv in H as (st2 & Hg & H).
  apply matches_seq_inv in H as (st3 & Hs & H).
  apply matches_seq_inv in H as (st4 & Hr & He).
  destruct (hook_head_inv _ _ _ _ Hb Hg Hs) as (a & t3 & Ea & Ha & ->).
  apply matches_rep_inv in Hr as (b & t4 & Eb & Hb' & _ & _ & ->).
  apply matches_str_inv in He as (t & Et & ->).
  cbn [prev rest caps] in *. subst t3 t4.
  exists a, b, t. auto.
Qed.

Lemma effectRe_unique st st1 st2 :
  matches effectRe st st1 -> matches effectRe st st2 ->
  rest st1 = rest st2 /\ caps st1 = caps st2.
Proof.
  intros H1 H2.
  apply effectRe_inv in H1 as (a & b & t & E & Ha & Hb & <- & ->).
  apply effectRe_inv in H2 as (a' & b' & t' & E' & Ha' & Hb' & <- & ->).
  rewrite E in E'.
  destruct (hook_head_unique _ _ _ _ Ha Ha' E') as [<- E2].
  change (b ++ 125%N :: (lit ",[" ++ rest st1)
          = b' ++ 125%N :: (lit ",[" ++ rest st2)) in E2.
  destruct (split_unique (in_class (cnot 125)) b b' 125%N 125%N _ _ Hb Hb'
              eq_refl eq_refl E2) as [_ E3].
  apply app_inv_head in E3. auto.
Qed.

Lemma effectRe_longest : takes_longest effectRe.
Proof.
  intros p s i m st' H Hm'.
  apply match_here_sound in H as (post & -> & _ & _ & Hm).
  destruct (effectRe_unique _ _ _ Hm Hm') as [E _]. simpl in E.
  rewrite <- E, length_app. lia.
Qed.

Lemma effectRe_one_alias : one_alias effectRe.
Proof.
  intros st st1 st2 H1 H2.
  destruct (effectRe_unique _ _ _ H1 H2) as [_ ->]. reflexivity.
Qed.

Lemma cleanup_tail_inv st st' :
  matches (S_ "return" <+> star cs <+> S_ "()=>") st st' ->
  exists sp t,
    rest st = lit "return" ++ sp ++ lit "()=>" ++ t /\
    Forall (fun c => in_class cs c = true) sp /\
    rest st' = t /\ caps st' = caps st.
Proof.
  intros H.
  apply matches_seq_inv in H as (st1 & Hs & H).
  apply matches_seq_inv in H as (st2 & Hr & He).
  apply matches_str_inv in Hs as (t1 & E1 & ->).
  apply matches_rep_inv in Hr as (sp & t2 & E2 & Hsp & _ & _ & ->).
  apply matches_str_inv in He as (t & Et & ->).
  cbn [prev rest caps] in *. subst t1 t2.
  exists sp, t. auto.
Qed.

Lemma cleanupRe_inv st st' :
  matches cleanupRe st st' ->
  exists a b sp t,
    rest st = a ++ lit "(()=>{" ++ b ++ lit "return" ++ sp ++ lit "()=>" ++ t
    /\ Forall (fun c => in_class cw c = true) a /\
    Forall (fun c => in_class (cnot 125) c = true) b /\
    Forall (fun c => in_class cs c = true) sp /\
    rest st' = t /\ caps st' = set_cap 1 a (caps st).
Proof.
  unfold cleanupRe. intros H.
  apply matches_seq_inv in H as (st1 & Hb & H).
  apply matches_seq_inv in H as (st2 & Hg & H).
  apply matches_seq_inv in H as (st3 & Hs & H).
  apply matches_seq_inv in H as (st4 & Hr & Ht).
  destruct (hook_head_inv _ _ _ _ Hb Hg Hs) as (a & t3 & Ea & Ha & ->).
  apply matches_rep_inv in Hr as (b & t4 & Eb & Hb' & _ & _ & ->).
  apply cleanup_tail_inv in Ht as (sp & t & Et & Hsp & <- & Ec).
  cbn [prev rest caps] in *. subst t3 t4.
  exists a, b, sp, (rest st'). auto 10.
Qed.

Lemma cleanupRe_one_alias : one_alias cleanupRe.
Proof.
  intros st st1 st2 H1 H2.
  apply cleanupRe_inv in H1 as (a & b & sp & t & E & Ha & _ & _ & _ & ->).
  apply cleanupRe_inv in H2
    as (a' & b' & sp' & t' & E' & Ha' & _ & _ & _ & ->).
  rewrite E in E'.
  destruct (hook_head_unique _ _ _ _ Ha Ha' E') as [<- _]. reflexivity.
Qed.

Lemma app_longer {X} (b b' t t' : list X) :
  b ++ t = b' ++ t' -> length b' <= length b -> exists d, t' = d ++ t.
Proof.
  intros E Hlen. apply app_eq_inv in E as [(d & -> & ->)|(d & -> & ->)].
  - eauto.
  - rewrite length_app in Hlen. destruct d; [|simpl in Hlen; lia].
    exists []. reflexivity.
Qed.

(** A [return] that begins later in the body ends the match later: the
    parenthesis after it cannot lie among the blanks of an earlier one. *)
Lemma cleanup_tail_le d sp sp' t t' :
  Forall (fun c => in_class cs c = true) sp' ->
  lit "return" ++ sp' ++ lit "()=>" ++ t'
  = d ++ lit "return" ++ sp ++ lit "()=>" ++ t ->
  length t <= length t'.
Proof.
  intros Hsp' E.
  destruct (le_lt_dec (length t) (length t')) as [|Hlt]; [assumption|exfalso].
  pose proof (f_equal length E) as Hlen. rewrite !length_app in Hlen.
  change (length (lit "return")) with 6 in Hlen.
  change (length (lit "()=>")) with 4 in Hlen.
  assert (L : (lit "return" ++ sp' ++ lit "()=>" ++ t')
              !! (6 + (length d + length sp)) = Some 40%N).
  { rewrite E.
    change (lit "()=>" ++ t) with (40%N :: (lit ")=>" ++ t)).
    rewrite !app_assoc. apply list_lookup_middle.
    rewrite !length_app. change (length (lit "return")) with 6. lia. }
  rewrite lookup_app_r in L by (change (length (lit "return")) with 6; lia).
  change (length (lit "return")) with 6 in L.
  replace (6 + (length d + length sp) - 6) with (length d + length sp) in L
    by lia.
  rewrite lookup_app_l in L by lia.
  pose proof (Forall_lookup_1 _ _ _ _ Hsp' L) as Hc.
  vm_compute in Hc. discriminate.
Qed.

Lemma cleanupRe_longest : takes_longest cleanupRe.
Proof.
  intros p s i m st' H Hm'. unfold match_here in H.
  unfold cleanupRe in H, Hm'.
  apply run_seq_sound in H as (st1 & Hb & H).
  apply run_seq_sound in H as (st2 & Hg & H).
  apply run_seq_sound in H as (st3 & Hs & H).
  destruct (hook_head_inv _ _ _ _ Hb Hg Hs) as (a & t3 & Ea & Ha & E3).
  apply matches_seq_inv in Hm' as (st1' & Hb' & Hm').
  apply matches_seq_inv in Hm' as (st2' & Hg' & Hm').
  apply matches_seq_inv in Hm' as (st3' & Hs' & Hm').
  apply matches_seq_inv in Hm' as (st4' & Hr' & Ht').
  destruct (hook_head_inv _ _ _ _ Hb' Hg' Hs') as (a' & t3' & Ea' & Ha' & E3').
  rewrite Ea in Ea'.
  destruct (hook_head_unique _ _ _ _ Ha Ha' Ea') as [<- <-].
  rewrite <- E3 in E3'. subst st3'. clear Hb' Hg' Hs' Ha' Ea'.
  (* the body and what follows it *)
  change (rep_match (cnot 125) 0 None (prev st3) (rest st3)
            (fun q u =>
               run (S_ "return" <+> star cs <+> S_ "()=>")
                   (MState q u (caps st3))
                   (fun st' => Some (MResult i (consumed s (rest st'))
                                             (caps st'))))
          = Some m) in H.
  apply rep_match_first in H as (b & t4 & Eb & _ & _ & _ & Hk & Hmax).
  apply run_sound in Hk as (st5 & Ht & [= <-]). cbn [mtext].
  apply matches_rep_inv in Hr' as (b' & t4' & Eb' & Hb4' & _ & _ & ->).
  destruct (le_lt_dec (length b') (length b)) as [Hle|Hlt].
  2: { exfalso. specialize (Hmax b' t4' Eb' Hb4' I Hlt).
       destruct (run_complete _ _ _ Ht'
                   (fun st' => Some (MResult i (consumed s (rest st'))
                                             (caps st')))) as [x Hx];
         [eauto|]. congruence. }
  rewrite Eb in Eb'. destruct (app_longer _ _ _ _ Eb' Hle) as (d & Ed).
  apply cleanup_tail_inv in Ht as (sp & t & Et & _ & E5 & _).
  apply cleanup_tail_inv in Ht' as (sp' & t' & Et' & Hsp' & E5' & _).
  cbn [rest] in Et, Et'. rewrite Et' in Ed. rewrite Et in Ed.
  pose proof (cleanup_tail_le _ _ _ _ _ Hsp' Ed) as Hlen.
  rewrite E5, E5'. unfold consumed. rewrite length_take. lia.
Qed.

(** For the two hook patterns, the successive matches are the ones the
    loops of [analyzeFile] visit. *)
Lemma scan_effectRe s l : scan effectRe None s l <-> l = hits effectRe s.
Proof.
  split.
  - apply scan_hits;
      [apply effectRe_shape|apply effectRe_longest|apply effectRe_one_alias].
  - intros ->. apply hits_scan; [apply effectRe_shape|apply effectRe_longest].
Qed.

Lemma scan_cleanupRe s l : scan cleanupRe None s l <-> l = hits cleanupRe s.
Proof.
  split.
  - apply scan_hits;
      [apply cleanupRe_shape|apply cleanupRe_longest
      |apply cleanupRe_one_alias].
  - intros ->.
    apply hits_scan; [apply cleanupRe_shape|apply cleanupRe_longest].
Qed.

Lemma elem_of_filter_list {X} (f : X -> bool) (l : list X) (x : X) :
  x ∈ List.filter f l <-> x ∈ l /\ f x = true.
Proof. rewrite !list_elem_of_In. apply filter_In. Qed.

Lemma keep_effect_true cb a :
  keep_effect cb a = true <-> a <> cb /\ a <> lit "var" /\ a <> lit "new".
Proof.
  unfold keep_effect. rewrite !andb_true_iff, !bool_decide_eq_true. tauto.
Qed.

Lemma keep_cleanup_true cb a : keep_cleanup cb a = true <-> a <> cb.
Proof. unfold keep_cleanup. apply bool_decide_eq_true. Qed.

(** The tally of the code is not empty exactly when a candidate counts. *)
Lemma counted_candidate_iff content :
  counted_candidate content <-> has_candidate content.
Proof.
  unfold counted_candidate, has_candidate, window_candidates,
    cleanup_candidates.
  split.
  - intros (m & c1 & c5 & a & Hm & H1 & H5 & Ha). exists m.
    split; [exact Hm|].
    apply scan_effectRe in H1. apply scan_cleanupRe in H5. subst c1 c5.
    intros E. apply app_eq_nil in E as [E1 E5].
    destruct Ha as [(Hin & Hk)|(Hin & Hk)].
    + assert (Hf : a ∈ List.filter (keep_effect (group m 2))
                       (hits effectRe
                          (nearby content (indexOf content (mtext m)))))
        by (apply elem_of_filter_list; split;
            [exact Hin|apply keep_effect_true, Hk]).
      rewrite E1 in Hf. inversion Hf.
    + assert (Hf : a ∈ List.filter (keep_cleanup (group m 2))
                       (hits cleanupRe content))
        by (apply elem_of_filter_list; split;
            [exact Hin|apply keep_cleanup_true, Hk]).
      rewrite E5 in Hf. inversion Hf.
  - intros (m & Hm & Hne).
    exists m, (hits effectRe (nearby content (indexOf content (mtext m)))),
      (hits cleanupRe content).
    destruct (List.filter (keep_effect (group m 2))
                (hits effectRe (nearby content (indexOf content (mtext m)))))
      as [|a l] eqn:E1.
    + destruct (List.filter (keep_cleanup (group m 2))
                  (hits cleanupRe content)) as [|a l] eqn:E5;
        [contradiction|].
      exists a. split; [exact Hm|].
      split; [apply scan_effectRe; reflexivity|].
      split; [apply scan_cleanupRe; reflexivity|]. right.
      assert (Hf : a ∈ List.filter (keep_cleanup (group m 2))
                       (hits cleanupRe content))
        by (rewrite E5; apply list_elem_of_here).
      apply elem_of_filter_list in Hf as [Hin Hk].
      split; [exact Hin|apply keep_cleanup_true, Hk].
    + exists a. split; [exact Hm|].
      split; [apply scan_effectRe; reflexivity|].
      split; [apply scan_cleanupRe; reflexivity|]. left.
      assert (Hf : a ∈ List.filter (keep_effect (group m 2))
                       (hits effectRe
                          (nearby content (indexOf content (mtext m)))))
        by (rewrite E1; apply list_elem_of_here).
      apply elem_of_filter_list in Hf as [Hin Hk].
      split; [exact Hin|apply keep_effect_true, Hk].
Qed.

(** [occurrences] lists one alias for each place where the pattern
    matches. *)
Lemma occurrence_here r p s a :
  one_alias r ->
  a ∈ match match_here r p s 0 with
      | Some m => [group m 1]
      | None => []
      end
  <-> exists st', matches r (MState p s no_caps) st' /\
                  default [] (caps st' 1) = a.
Proof.
  intros Hone. split.
  - destruct (match_here r p s 0) as [m|] eqn:E; [|intros H; inversion H].
    intros H. apply list_elem_of_singleton in H as ->.
    apply match_here_sound in E as (post & _ & _ & _ & Hm).
    eexists. split; [exact Hm|reflexivity].
  - intros (st' & Hm & <-).
    destruct (match_here_complete r p s 0 _ Hm) as [m E]. rewrite E.
    apply match_here_sound in E as (post & _ & _ & _ & Hm0).
    unfold group. rewrite (Hone _ _ _ Hm0 Hm : mcaps m 1 = caps st' 1).
    apply list_elem_of_here.
Qed.

Lemma occurrences_elem r a :
  one_alias r ->
  forall s p,
    a ∈ occurrences r p s <->
    exists pre s' st',
      s = pre ++ s' /\
      matches r (MState (last_char p pre) s' no_caps) st' /\
      default [] (caps st' 1) = a.
Proof.
  intros Hone. induction s as [|c t IH]; intros p; simpl occurrences;
    rewrite elem_of_app, (occurrence_here r p _ a Hone).
  - split.
    + intros [(st' & Hm & Ha)|H]; [|inversion H].
      exists [], [], st'. auto.
    + intros (pre & s' & st' & E & Hm & Ha). left. symmetry in E.
      apply app_eq_nil in E as [-> ->]. eauto.
  - rewrite IH. split.
    + intros [(st' & Hm & Ha)|(pre & s' & st' & -> & Hm & Ha)].
      * exists [], (c :: t), st'. auto.
      * exists (c :: pre), s', st'. rewrite last_char_cons. auto.
    + intros (pre & s' & st' & E & Hm & Ha). destruct pre as [|x pre].
      * simpl in E. subst s'. left. eauto.
      * simpl in E. injection E as <- ->. right.
        rewrite last_char_cons in Hm. eauto 6.
Qed.

(** * Properties of patchFile and revertFile *)

Lemma patchFile_cases p label w :
  patchFile p label w =
  match files w !! p with
  | None =>
      Some (false, World (files w) (trace w ++ [OpExists p])
                         (out w ++ [LogFileNotFound label p]))
  | Some content =>
      let tr := (trace w ++ [OpExists p]) ++ [OpRead p] in
      if already_patched content then
        Some (true, World (files w) tr (out w ++ [LogAlreadyPatched label]))
      else
        match analyzeFile content label with
        | None => None
        | Some (l, None) => Some (false, World (files w) tr (out w ++ l))
        | Some (l, Some a) =>
            if bool_decide (count_of content (target a) <> 1%Z) then
              Some (false,
                    World (files w) tr
                      ((out w ++ l)
                       ++ [LogAmbiguous label (count_of content (target a))]))
            else
              let patched := replace content (target a) (replacement a) in
              match files w !! bak p with
              | Some _ =>
                  Some (true,
                        World (<[p := patched]> (files w))
                          ((((tr ++ [OpExists (bak p)])
                             ++ [OpWrite p patched]) ++ [OpStat p])
                           ++ [OpStat (bak p)])
                          ((out w ++ l) ++ [LogPatched label]))
              | None =>
                  Some (true,
                        World (<[p := patched]> (<[bak p := content]> (files w)))
                          (((((tr ++ [OpExists (bak p)])
                              ++ [OpCopy p (bak p)])
                             ++ [OpWrite p patched]) ++ [OpStat p])
                           ++ [OpStat (bak p)])
                          (((out w ++ l) ++ [LogBackup label])
                           ++ [LogPatched label]))
              end
        end
  end.
Proof. apply patchFile_with_cases. Qed.

Lemma new_trace_app w f tr o :
  new_trace w (World f (trace w ++ tr) o) = tr.
Proof. unfold new_trace. simpl. apply drop_app_length. Qed.

Lemma new_out_app w f t o :
  new_out w (World f t (out w ++ o)) = o.
Proof. unfold new_out. simpl. apply drop_app_length. Qed.

Lemma write_after_check_short p a b :
  write_after_check p [OpExists a; OpRead b].
Proof.
  intros i d H. destruct i as [|[|i]]; simpl in H; discriminate.
Qed.

(** One run of [patchFile]: it returns, writes the backup only when there is
    none, and writes the live file only after it has looked for the backup,
    which exists by then. *)
Lemma patchFile_run p label w :
  exists b w' tr,
    patchFile p label w = Some (b, w') /\
    trace w' = trace w ++ tr /\
    write_after_check p tr /\
    (Exists (is_write (bak p)) tr -> files w !! bak p = None) /\
    (forall bk, files w !! bak p = Some bk -> files w' !! bak p = Some bk) /\
    (Exists (is_write p) tr -> is_Some (files w' !! bak p)).
Proof.
  rewrite patchFile_cases.
  destruct (files w !! p) as [content|] eqn:Ep.
  2: { do 3 eexists. split; [reflexivity|]. simpl. split; [reflexivity|].
       split; [|split; [|split]].
       - intros i d H. destruct i as [|i]; simpl in H; discriminate.
       - intros H. no_such_call H.
       - auto.
       - intros H. no_such_call H. }
  cbv zeta.
  assert (Hsame : forall b o,
    exists (b0 : bool) (w' : world) (tr : list fsop),
      Some (b, World (files w) ((trace w ++ [OpExists p]) ++ [OpRead p]) o)
      = Some (b0, w') /\
      trace w' = trace w ++ tr /\ write_after_check p tr /\
      (Exists (is_write (bak p)) tr -> files w !! bak p = None) /\
      (forall bk, files w !! bak p = Some bk -> files w' !! bak p = Some bk) /\
      (Exists (is_write p) tr -> is_Some (files w' !! bak p))).
  { intros b o.
    exists b, (World (files w) ((trace w ++ [OpExists p]) ++ [OpRead p]) o),
      [OpExists p; OpRead p].
    split; [reflexivity|]. simpl. split; [rewrite <- app_assoc; reflexivity|].
    split; [apply write_after_check_short|]. split; [|split; [auto|]].
    - intros H. no_such_call H.
    - intros H. no_such_call H. }
  destruct (already_patched content); [apply Hsame|].
  destruct (analyzeFile_total content label) as [[l [a|]] ->]; [|apply Hsame].
  destruct (bool_decide (count_of content (target a) <> 1%Z)); [apply Hsame|].
  destruct (files w !! bak p) as [bk|] eqn:Eb.
  - do 2 eexists.
    exists [OpExists p; OpRead p; OpExists (bak p);
            OpWrite p (replace content (target a) (replacement a));
            OpStat p; OpStat (bak p)].
    split; [reflexivity|]. simpl. split; [rewrite <- !app_assoc; reflexivity|].
    split; [|split; [|split]].
    + intros i d H.
      do 3 (destruct i as [|i]; [discriminate|]).
      exists 2. split; [lia|reflexivity].
    + intros H. repeat (apply Exists_cons in H as [H|H]; try contradiction).
      * simpl in H. symmetry in H. destruct (bak_neq p H).
      * apply Exists_nil in H. contradiction.
    + intros bk' [= ->]. rewrite lookup_insert_ne; [exact Eb|].
      bak_ne.
    + intros _. rewrite lookup_insert_ne; [eauto|].
      bak_ne.
  - do 2 eexists.
    exists [OpExists p; OpRead p; OpExists (bak p); OpCopy p (bak p);
            OpWrite p (replace content (target a) (replacement a));
            OpStat p; OpStat (bak p)].
    split; [reflexivity|]. simpl. split; [rewrite <- !app_assoc; reflexivity|].
    split; [|split; [|split]].
    + intros i d H.
      do 3 (destruct i as [|i]; [discriminate|]).
      exists 2. split; [lia|reflexivity].
    + auto.
    + intros bk' [=].
    + intros _. rewrite lookup_insert_ne, lookup_insert_eq; [eauto|].
      bak_ne.
Qed.

Lemma patchFile_total p label w : is_Some (patchFile p label w).
Proof.
  destruct (patchFile_run p label w) as (b & w' & tr & -> & _). eauto.
Qed.

Lemma reapply_keeps_backup p label bk edits : forall w,
  files w !! bak p = Some bk ->
  exists w' tr, reapply p label edits w = Some w' /\
             trace w' = trace w ++ tr /\
             Forall (fun o => ~ is_write (bak p) o) tr /\
             files w' !! bak p = Some bk.
Proof.
  induction edits as [|c edits IH]; intros w Hb; simpl.
  - exists w, []. rewrite app_nil_r. auto.
  - destruct (patchFile_run p label (edit p c w))
      as (b & w1 & tr1 & -> & Ht & _ & Hw & Hk & _).
    assert (Hb1 : files (edit p c w) !! bak p = Some bk).
    { destruct c; simpl.
      - rewrite lookup_insert_ne; [exact Hb|].
        bak_ne.
      - rewrite lookup_delete_ne; [exact Hb|].
        bak_ne. }
    destruct (IH w1 (Hk bk Hb1)) as (w' & tr & -> & Ht' & Hf & Hb').
    exists w', (tr1 ++ tr). split; [reflexivity|].
    split; [rewrite Ht', Ht, <- app_assoc; reflexivity|]. split; [|exact Hb'].
    apply Forall_app. split; [|exact Hf].
    apply Forall_forall. intros o Ho Hwr.
    assert (Exists (is_write (bak p)) tr1) as Hex
      by (apply Exists_exists; eauto).
    apply Hw in Hex. congruence.
Qed.



Lemma revertFile_with_backup p label w bk :
  files w !! bak p = Some bk ->
  revertFile p label w =
  Some (tt, World (<[p := bk]> (files w))
                  ((trace w ++ [OpExists (bak p)]) ++ [OpCopy (bak p) p])
                  (out w ++ [LogRestored label])).
Proof.
  intros Hb. unfold revertFile, bind, existsSync, record. simpl.
  rewrite Hb. simpl. unfold copyFileSync. simpl. rewrite Hb. reflexivity.
Qed.

Lemma revertFile_without_backup p label w :
  files w !! bak p = None ->
  revertFile p label w =
  Some (tt, World (files w) (trace w ++ [OpExists (bak p)])
                  (out w ++ [LogNoBackup label])).
Proof.
  intros Hb. unfold revertFile, bind, existsSync, record. simpl.
  rewrite Hb. reflexivity.
Qed.

(** C2. Round trip: from a state without backup, [patchFile] followed by
    [revertFile] leaves exactly the text [T] that the live file held.  When
    [T] holds the structural shape with its supporting context, the matched
    text occurs nowhere else and [T] does not already pass the
    already-patched test, [patchFile] reports success, saves [T] as the
    backup and writes [T] with the patch inserted just before the matched
    text; [revertFile] then copies the backup over it. *)
Theorem apply_then_revert_restores p label w T :
  files w !! p = Some T ->
  files w !! bak p = None ->
  exists b w1 w2,
    patchFile p label w = Some (b, w1) /\
    revertFile p label w1 = Some (tt, w2) /\
    files w2 !! p = Some T /\
    (has_policy T -> has_secure T -> has_candidate T -> unique_target T ->
     already_patched T = false ->
     b = true /\ files w1 !! bak p = Some T /\
     Exists (is_write p) (new_trace w1 w2) /\
     exists s pre post,
       all_tokens s /\ T = pre ++ fullMatch s ++ post /\
       files w1 !! p = Some (pre ++ (patchCode s ++ fullMatch s) ++ post)).
Proof.
  intros Hp Hb. rewrite patchFile_cases, Hp. cbv zeta.
  assert (Hsame : forall b tr o,
    exists (b0 : bool) (w1 w2 : world),
      Some (b, World (files w) tr o) = Some (b0, w1) /\
      revertFile p label w1 = Some (tt, w2) /\
      files w2 !! p = Some T).
  { intros b tr o. do 3 eexists. split; [reflexivity|].
    split; [apply revertFile_without_backup; exact Hb|exact Hp]. }
  destruct (already_patched T) eqn:Eap.
  { destruct (Hsame true ((trace w ++ [OpExists p]) ++ [OpRead p])
                (out w ++ [LogAlreadyPatched label]))
      as (b0 & w1 & w2 & E1 & E2 & E3).
    exists b0, w1, w2. split; [exact E1|]. split; [exact E2|].
    split; [exact E3|]. intros _ _ _ _ H. discriminate. }
  destruct (extract T label) as [[log [s|]]|] eqn:He.
  3: { destruct (extract_total T label) as [? E]. congruence. }
  2: { rewrite analyzeFile_cases, He. simpl.
       destruct (Hsame false ((trace w ++ [OpExists p]) ++ [OpRead p])
                   (out w ++ log)) as (b0 & w1 & w2 & E1 & E2 & E3).
       exists b0, w1, w2. split; [exact E1|]. split; [exact E2|].
       split; [exact E3|]. intros Hpol Hsec Hcand _ _. exfalso.
       destruct (extract_success T label Hpol Hsec Hcand) as (? & ? & E & _).
       congruence. }
  rewrite analyzeFile_cases, He. simpl.
  change (target (build s label)) with (fullMatch s).
  change (replacement (build s label)) with (patchCode s ++ fullMatch s).
  destruct (bool_decide (count_of T (fullMatch s) <> 1%Z)) eqn:Ec.
  { destruct (Hsame false ((trace w ++ [OpExists p]) ++ [OpRead p])
                ((out w ++ log)
                 ++ [LogAmbiguous label (count_of T (fullMatch s))]))
      as (b0 & w1 & w2 & E1 & E2 & E3).
    exists b0, w1, w2. split; [exact E1|]. split; [exact E2|].
    split; [exact E3|]. intros _ _ _ (m & Hm & Hu) _. exfalso.
    apply bool_decide_eq_true in Ec. apply Ec.
    apply extract_tokens in He as (_ & m' & Hm' & -> & _).
    rewrite Hm in Hm'. injection Hm' as <-.
    apply unique_target_count; auto. }
  rewrite Hb.
  set (patched := replace T (fullMatch s) (patchCode s ++ fullMatch s)).
  set (w1 := World (<[p := patched]> (<[bak p := T]> (files w)))
               (((((((trace w ++ [OpExists p]) ++ [OpRead p])
                    ++ [OpExists (bak p)]) ++ [OpCopy p (bak p)])
                  ++ [OpWrite p patched]) ++ [OpStat p]) ++ [OpStat (bak p)])
               (((out w ++ log) ++ [LogBackup label]) ++ [LogPatched label])).
  assert (Hb1 : files w1 !! bak p = Some T).
  { unfold w1. cbn [files].
    rewrite lookup_insert_ne, lookup_insert_eq; [reflexivity|].
    bak_ne. }
  exists true, w1,
    (World (<[p := T]> (files w1))
           ((trace w1 ++ [OpExists (bak p)]) ++ [OpCopy (bak p) p])
           (out w1 ++ [LogRestored label])).
  split; [reflexivity|].
  split; [apply revertFile_with_backup, Hb1|].
  split; [apply lookup_insert_eq|]. intros _ _ _ _ _.
  split; [reflexivity|]. split; [exact Hb1|]. split.
  { rewrite <- app_assoc, new_trace_app.
    apply Exists_cons_tl, Exists_cons_hd. reflexivity. }
  pose proof (extract_tokens _ _ _ _ He) as [Htok _].
  destruct (patched_shape _ _ _ _ He) as (pre & post & ET & Er).
  exists s, pre, post. split; [exact Htok|]. split; [exact ET|].
  unfold w1. cbn [files]. rewrite lookup_insert_eq. unfold patched.
  rewrite Er. reflexivity.
Qed.

Lemma sample_before :
  exists m, re_match onChangeRe sample_text = Some m /\
            group m 4 = lit "Dhe" /\ group m 2 = lit "Mt" /\
            mtext m = sample_shape /\ mindex m = 110 /\
            before sample_text m = sample_context ++ sample_hook.
Proof.
  eexists. split; [vm_compute; reflexivity|]. vm_compute. auto.
Qed.

Lemma sample_has_policy : has_policy sample_text.
Proof.
  destruct sample_before as (m & Hm & He & _ & _ & _ & Hb).
  exists m. split; [exact Hm|]. rewrite He, Hb.
  apply occurs_test. vm_compute. reflexivity.
Qed.

Lemma sample_has_secure : has_secure sample_text.
Proof.
  destruct sample_before as (m & Hm & _ & _ & _ & _ & Hb).
  exists m. split; [exact Hm|]. rewrite Hb.
  apply occurs_test. vm_compute. reflexivity.
Qed.

Lemma sample_has_candidate : has_candidate sample_text.
Proof.
  destruct sample_before as (m & Hm & _ & Hc & Ht & _).
  exists m. split; [exact Hm|]. rewrite Hc, Ht.
  vm_compute. discriminate.
Qed.

Lemma sample_unique : unique_target sample_text.
Proof.
  destruct sample_before as (m & Hm & _ & _ & Ht & Hi & _).
  exists m. split; [exact Hm|]. rewrite Ht, Hi. intros i Ho.
  apply occurs_at_positions in Ho. vm_compute in Ho.
  apply list_elem_of_singleton in Ho. exact Ho.
Qed.

Lemma apply_then_revert_restores_witness :
  (files sample_world !! "main.js" = Some sample_text /\
   files sample_world !! bak "main.js" = None) /\
  exists w1 w2,
    patchFile "main.js" "workbench" sample_world = Some (true, w1) /\
    files w1 !! bak "main.js" = Some sample_text /\
    revertFile "main.js" "workbench" w1 = Some (tt, w2) /\
    files w2 !! "main.js" = Some sample_text.
Proof.
  assert (H1 : files sample_world !! "main.js" = Some sample_text)
    by (vm_compute; reflexivity).
  assert (H2 : files sample_world !! bak "main.js" = None)
    by (vm_compute; reflexivity).
  split; [split; [exact H1|exact H2]|].
  destruct (apply_then_revert_restores "main.js" "workbench" sample_world
              sample_text H1 H2)
    as (b & w1 & w2 & E1 & E2 & E3 & Hmore).
  destruct (Hmore sample_has_policy sample_has_secure sample_has_candidate
              sample_unique ltac:(vm_compute; reflexivity))
    as (-> & Hbak & _).
  exists w1, w2. auto.
Defined.

(** C4. Idempotence: after a run of [patchFile] that succeeds and writes the
    live file, a second run reports "Already patched", makes no call to [fs]
    other than the existence test and the read, and leaves every file as the
    first run left it. *)
Theorem second_apply_is_noop p label w w1 d :
  patchFile p label w = Some (true, w1) ->
  OpWrite p d ∈ new_trace w w1 ->
  patchFile p label w1 =
  Some (true, World (files w1) (trace w1 ++ [OpExists p; OpRead p])
                    (out w1 ++ [LogAlreadyPatched label])).
Proof.
  intros H Hw. rewrite patchFile_cases in H.
  assert (Hno : forall f o,
            OpWrite p d ∈ new_trace w
              (World f ((trace w ++ [OpExists p]) ++ [OpRead p]) o) -> False).
  { intros f o Hin. rewrite <- app_assoc, new_trace_app in Hin.
    apply elem_of_cons in Hin as [Hin|Hin]; [discriminate|].
    apply list_elem_of_singleton in Hin. discriminate. }
  destruct (files w !! p) as [content|] eqn:Ep; [|discriminate].
  cbv zeta in H.
  destruct (already_patched content).
  { injection H as <-. destruct (Hno _ _ Hw). }
  destruct (analyzeFile content label) as [[l [a|]]|] eqn:Ea; try discriminate.
  destruct (bool_decide (count_of content (target a) <> 1%Z)); [discriminate|].
  pose proof (patched_recognised _ _ _ _ Ea) as Hrec.
  assert (Hfin : forall f tr o,
            w1 = World (<[p := replace content (target a) (replacement a)]> f) tr o ->
            patchFile p label w1 =
            Some (true, World (files w1) (trace w1 ++ [OpExists p; OpRead p])
                              (out w1 ++ [LogAlreadyPatched label]))).
  { intros f tr o ->. rewrite patchFile_cases. cbn [files trace out].
    rewrite lookup_insert_eq. cbv zeta. rewrite Hrec, <- app_assoc. reflexivity. }
  destruct (files w !! bak p); injection H as <-; eapply Hfin; reflexivity.
Qed.

Lemma second_apply_is_noop_witness :
  exists w1 d,
    patchFile "main.js" "workbench" sample_world = Some (true, w1) /\
    OpWrite "main.js" d ∈ new_trace sample_world w1 /\
    patchFile "main.js" "workbench" w1 =
    Some (true,
          World (files w1)
                (trace w1 ++ [OpExists "main.js"; OpRead "main.js"])
                (out w1 ++ [LogAlreadyPatched "workbench"])).
Proof.
  destruct (patchFile "main.js" "workbench" sample_world) as [[b w1]|] eqn:E;
    [|vm_compute in E; discriminate].
  assert (Hb : b = true) by (vm_compute in E; congruence). subst b.
  assert (Hw : exists d, OpWrite "main.js" d ∈ new_trace sample_world w1).
  { vm_compute in E. injection E as <-. eexists.
    unfold new_trace. cbn [trace sample_world one_file length drop].
    do 4 apply list_elem_of_further. apply list_elem_of_here. }
  destruct Hw as [d Hw]. exists w1, d. split; [reflexivity|]. split; [exact Hw|].
  exact (second_apply_is_noop "main.js" "workbench" sample_world w1 d E Hw).
Defined.

Lemma analyze_marked_cases g content label :
  analyze_marked g content label =
  match analyzeFile content label with
  | Some (l, r) => Some (l, with_marker g <$> r)
  | None => None
  end.
Proof. reflexivity. Qed.

Lemma analyzeFile_log content label log r lab :
  analyzeFile content label = Some (log, r) -> LogAlreadyPatched lab ∉ log.
Proof.
  rewrite analyzeFile_cases, extract_cases.
  destruct (re_match onChangeRe content) as [m|].
  2: { intros [= <- _] Hin. apply list_elem_of_singleton in Hin. discriminate. }
  cbv zeta.
  destruct (re_match (policyRe (group m 4)) _) as [pm|];
    [destruct (re_match secureRe _) as [sm|];
       [destruct (select_amended _ _ _)|]|];
    intros [= <- _] Hin;
    repeat (apply elem_of_app in Hin as [Hin|Hin]);
    repeat (apply elem_of_cons in Hin as [Hin|Hin]; [discriminate|]);
    apply elem_of_nil in Hin; contradiction.
Qed.

(** C10. The already-patched short cut depends on [already_patched] alone.
    Whenever the live file holds a text with ['_aep='] that matches
    [existingPatchRe], whatever its origin, [patchFile] reports success after
    the existence test and the read and prints "Already patched"; it does so
    for every analysis function, so none is called.  When the text fails the
    test, "Already patched" is not printed.  And on every path and state
    [patchFile] behaves the same when the [patchMarker] of the analysis is
    replaced by anything else. *)
Theorem already_patched_short_circuit p label w content :
  files w !! p = Some content ->
  (already_patched content = true ->
   forall analyze,
     patchFile_with analyze p label w =
     Some (true, World (files w) (trace w ++ [OpExists p; OpRead p])
                       (out w ++ [LogAlreadyPatched label]))) /\
  (already_patched content = false ->
   forall b w', patchFile p label w = Some (b, w') ->
                LogAlreadyPatched label ∉ new_out w w') /\
  (forall g q l v,
     patchFile_with (analyze_marked g) q l v = patchFile q l v).
Proof.
  intros Hp. split; [|split].
  - intros Ha analyze. rewrite patchFile_with_cases, Hp. cbv zeta.
    rewrite Ha, <- app_assoc. reflexivity.
  - intros Ha b w'. rewrite patchFile_cases, Hp. cbv zeta. rewrite Ha.
    destruct (analyzeFile content label) as [[l [a|]]|] eqn:Ea; [| |discriminate].
    + pose proof (analyzeFile_log _ _ _ _ label Ea) as Hl.
      destruct (bool_decide (count_of content (target a) <> 1%Z));
        [|destruct (files w !! bak p)];
        intros [= <- <-]; rewrite <- !(app_assoc (out w)), new_out_app;
        intros Hin; repeat (apply elem_of_app in Hin as [Hin|Hin]);
        try contradiction;
        repeat (apply elem_of_cons in Hin as [Hin|Hin]; [discriminate|]);
        apply elem_of_nil in Hin; contradiction.
    + pose proof (analyzeFile_log _ _ _ _ label Ea) as Hl.
      intros [= <- <-]. rewrite new_out_app. exact Hl.
  - intros g q l v. unfold patchFile. rewrite !patchFile_with_cases.
    destruct (files v !! q) as [c|]; [|reflexivity]. cbv zeta.
    destruct (already_patched c); [reflexivity|].
    rewrite analyze_marked_cases.
    destruct (analyzeFile c l) as [[lg [a|]]|]; reflexivity.
Qed.

Lemma already_patched_short_circuit_witness :
  files foreign_world !! "main.js" = Some foreign_text /\
  already_patched foreign_text = true /\
  patchFile "main.js" "workbench" foreign_world =
  Some (true, World (files foreign_world)
                    [OpExists "main.js"; OpRead "main.js"]
                    [LogAlreadyPatched "workbench"]).
Proof.
  assert (H1 : files foreign_world !! "main.js" = Some foreign_text)
    by (vm_compute; reflexivity).
  assert (H2 : already_patched foreign_text = true) by (vm_compute; reflexivity).
  split; [exact H1|]. split; [exact H2|].
  exact (proj1 (already_patched_short_circuit "main.js" "workbench"
                  foreign_world foreign_text H1) H2 analyzeFile).
Defined.

(** * Properties of extraction *)

(** C5, as amended.  Fail-closed extraction, for a text in which the
    structural shape occurs.  The scheduling-hook candidate is one that
    counts: the alias of one of the successive, non-overlapping matches of
    the effect shape in the window that is neither the wrapping function's
    nor [var] nor [new], or the alias of one of the successive matches of
    the cleanup shape in the file that is not the wrapping function's.
    When the policy-variable shape and the secure-mode shape occur in the
    2000 code units before the match and a candidate counts, [analyzeFile]
    returns a record built from eight symbols that are all non-empty [\w]
    tokens.  When one of the three is absent, [analyzeFile] returns [null]
    after stage 1: no record is built.  And no record is ever returned
    with a symbol that is not such a token. *)
Theorem extraction_fail_closed content label :
  occurs onChangeRe content ->
  (has_policy content /\ has_secure content /\ counted_candidate content ->
   exists log s,
     extract content label = Some (log, Some s) /\
     analyzeFile content label = Some (log, Some (build s label)) /\
     all_tokens s) /\
  (~ has_policy content \/ ~ has_secure content
   \/ ~ counted_candidate content ->
   exists m log,
     re_match onChangeRe content = Some m /\
     analyzeFile content label =
     Some (LogFound label (Z.of_nat (mindex m))
           :: LogNames (group m 2) (group m 4) (group m 5) :: log, None)) /\
  (forall log s, extract content label = Some (log, Some s) -> all_tokens s).
Proof.
  intros Hocc. rewrite counted_candidate_iff. split; [|split].
  - intros (Hp & Hs & Hc).
    destruct (extract_success content label Hp Hs Hc) as (log & s & He & Ht).
    exists log, s. split; [exact He|]. split; [|exact Ht].
    rewrite analyzeFile_cases, He. reflexivity.
  - intros H. apply occurs_re_match in Hocc as [m Hm]. exists m.
    destruct (extract_failure content label H) as [log He].
    rewrite analyzeFile_cases, He. rewrite extract_cases, Hm in He.
    cbv zeta in He. rewrite (indexOf_match _ _ Hm) in He.
    destruct (re_match (policyRe (group m 4)) _);
      [|injection He as <-; eexists; split; [exact Hm|reflexivity]].
    destruct (re_match secureRe _);
      [|injection He as <-; eexists; split; [exact Hm|reflexivity]].
    destruct (select_amended _ _ _);
      [discriminate|injection He as <-; eexists; split; [exact Hm|reflexivity]].
  - intros log s He. eapply extract_tokens, He.
Qed.

Lemma sample_occurs : occurs onChangeRe sample_text.
Proof. apply occurs_test. vm_compute. reflexivity. Qed.

Lemma sample_counted_candidate : counted_candidate sample_text.
Proof. apply counted_candidate_iff, sample_has_candidate. Qed.

Lemma extraction_fail_closed_witness :
  occurs onChangeRe sample_text /\
  exists log s,
    extract sample_text "workbench" = Some (log, Some s) /\
    analyzeFile sample_text "workbench"
    = Some (log, Some (build s "workbench")) /\
    all_tokens s.
Proof.
  split; [exact sample_occurs|].
  exact (proj1 (extraction_fail_closed sample_text "workbench" sample_occurs)
           (conj sample_has_policy
                 (conj sample_has_secure sample_counted_candidate))).
Defined.

Lemma var_before :
  exists m, re_match onChangeRe var_text = Some m /\
            group m 4 = lit "Dhe" /\ group m 2 = lit "Mt" /\
            indexOf var_text (mtext m) = 90%Z /\
            before var_text m
            = sample_context ++ lit "var(()=>{tick()},[]),".
Proof.
  eexists. split; [vm_compute; reflexivity|]. vm_compute. auto.
Qed.

(** C5 as worded fails on [var_text].  The structural shape, the
    policy-variable shape, the secure-mode shape and a call in effect shape
    with an alias other than the wrapping function's are all there, and
    extraction fails: the alias of the call is [var], which the code does
    not count. *)
Lemma extraction_counterexample :
  occurs onChangeRe var_text /\ has_policy var_text /\
  has_secure var_text /\ hook_call var_text /\
  ~ counted_candidate var_text /\
  analyzeFile var_text "workbench" =
  Some ([LogFound "workbench" 90;
         LogNames (lit "Mt") (lit "Dhe") (lit "b");
         LogPolicy (lit "u"); LogSecure (lit "d");
         LogNoEffect "workbench"], None).
Proof.
  destruct var_before as (m & Hm & He & Hc & Hi & Hb).
  split; [apply occurs_test; vm_compute; reflexivity|].
  split.
  { exists m. split; [exact Hm|]. rewrite He, Hb.
    apply occurs_test. vm_compute. reflexivity. }
  split.
  { exists m. split; [exact Hm|]. rewrite Hb.
    apply occurs_test. vm_compute. reflexivity. }
  split.
  { assert (E : exists m',
               re_match effectRe (nearby var_text 90) = Some m' /\
               mcaps m' 1 = Some (lit "var"))
      by (eexists; split; vm_compute; reflexivity).
    destruct E as (m' & E & Ha).
    apply re_match_sound in E as [Hat _].
    exists m, (mindex m'), (mtext m'), (mcaps m'), (lit "var").
    split; [exact Hm|]. rewrite Hi, Hc.
    split; [left; exact Hat|]. split; [exact Ha|].
    intros H. vm_compute in H. discriminate. }
  split.
  { rewrite counted_candidate_iff. intros (m' & Hm' & Hne).
    rewrite Hm in Hm'. injection Hm' as <-. rewrite Hi, Hc in Hne.
    apply Hne. vm_compute. reflexivity. }
  vm_compute. reflexivity.
Qed.

(** C6, as amended.  Stage 1 reports the file as unrecognised exactly when
    the structural shape matches nowhere; when it matches anywhere, at one
    index or at several, stage 1 goes on with the match at the least
    index. *)
Theorem stage1_takes_leftmost content label :
  (~ occurs onChangeRe content ->
   analyzeFile content label = Some ([LogNoOnChange label], None)) /\
  (occurs onChangeRe content ->
   exists m,
     re_match onChangeRe content = Some m /\
     shape_at content (mindex m) /\
     (forall j, j < mindex m -> ~ shape_at content j) /\
     exists log r,
       analyzeFile content label =
       Some (LogFound label (Z.of_nat (mindex m))
             :: LogNames (group m 2) (group m 4) (group m 5) :: log, r)).
Proof.
  split.
  - intros Hno. rewrite analyzeFile_cases, extract_cases.
    destruct (re_match onChangeRe content) as [m|] eqn:Hm; [|reflexivity].
    exfalso. apply Hno, occurs_re_match. rewrite Hm. eauto.
  - intros Hocc. apply occurs_re_match in Hocc as [m Hm]. exists m.
    split; [exact Hm|].
    destruct (re_match_sound _ _ _ Hm) as (Hat & _ & Hleft).
    split; [do 2 eexists; exact Hat|]. split.
    + intros j Hj (w & c & H). exact (Hleft j w c Hj H).
    + rewrite analyzeFile_cases, extract_cases, Hm. cbv zeta.
      rewrite (indexOf_match _ _ Hm).
      destruct (re_match (policyRe (group m 4)) _); [|simpl; eauto].
      destruct (re_match secureRe _); [|simpl; eauto].
      destruct (select_amended _ _ _); simpl; eauto.
Qed.

Lemma stage1_takes_leftmost_witness :
  occurs onChangeRe two_shapes /\
  exists m,
    re_match onChangeRe two_shapes = Some m /\
    shape_at two_shapes (mindex m) /\
    (forall j, j < mindex m -> ~ shape_at two_shapes j).
Proof.
  assert (H : occurs onChangeRe two_shapes)
    by (apply occurs_test; vm_compute; reflexivity).
  split; [exact H|].
  destruct (proj2 (stage1_takes_leftmost two_shapes "workbench") H)
    as (m & Hm & Hat & Hleft & _).
  exists m. auto.
Defined.

(** C6 as worded fails: in [two_shapes] the shape matches at index 110 and
    at index 184, and extraction goes on with the first match instead of
    reporting the file as unrecognised. *)
Lemma stage1_unique_counterexample :
  shape_at two_shapes 110 /\ shape_at two_shapes 184 /\
  exists log s,
    extract two_shapes "workbench" = Some (log, Some s) /\
    fullMatch s = sample_shape /\
    analyzeFile two_shapes "workbench"
    = Some (log, Some (build s "workbench")).
Proof.
  split; [|split].
  - eapply shape_here; [vm_compute; reflexivity|vm_compute; lia].
  - eapply shape_here; [vm_compute; reflexivity|vm_compute; lia].
  - do 2 eexists. split; [vm_compute; reflexivity|].
    split; vm_compute; reflexivity.
Qed.

(** * The uniqueness gate *)

(** C3, as amended.  When the text matched by the structural shape occurs
    twice in the live file, [patchFile] makes no backup and no write: it only
    tests that the file exists and reads it.  It reports the ambiguous
    target, with a count of at least 2, when the text does not pass the
    already-patched test and the analysis succeeds. *)
Theorem ambiguous_target_untouched p label w T :
  files w !! p = Some T ->
  twice_verbatim T ->
  exists b w',
    patchFile p label w = Some (b, w') /\
    files w' = files w /\
    new_trace w w' = [OpExists p; OpRead p] /\
    (already_patched T = false ->
     forall log a, analyzeFile T label = Some (log, Some a) ->
       b = false /\
       (2 <= count_of T (target a))%Z /\
       new_out w w' = log ++ [LogAmbiguous label (count_of T (target a))]).
Proof.
  intros Hp (m & i & j & Hm & Hij & Hi & Hj).
  rewrite patchFile_cases, Hp. cbv zeta.
  destruct (already_patched T) eqn:Eap.
  { do 2 eexists. split; [reflexivity|]. split; [reflexivity|].
    split; [rewrite <- app_assoc; apply new_trace_app|discriminate]. }
  destruct (analyzeFile_total T label) as [[l [a|]] Ea]; rewrite Ea.
  2: { do 2 eexists. split; [reflexivity|]. split; [reflexivity|].
       split; [rewrite <- app_assoc; apply new_trace_app|].
       intros _ log a [=]. }
  assert (Hc : (2 <= count_of T (target a))%Z).
  { pose proof Ea as Ea'. apply analyzeFile_success in Ea' as (s & He & ->).
    apply extract_tokens in He as (_ & m' & Hm' & Hf & _).
    rewrite Hm in Hm'. injection Hm' as <-.
    change (target (build s label)) with (fullMatch s). rewrite Hf.
    eapply count_of_two; eauto. }
  rewrite bool_decide_eq_true_2 by lia.
  do 2 eexists. split; [reflexivity|]. split; [reflexivity|].
  split; [rewrite <- app_assoc; apply new_trace_app|].
  intros _ log a' [= <- <-]. split; [reflexivity|]. split; [exact Hc|].
  rewrite <- (app_assoc (out w)). apply new_out_app.
Qed.

Lemma twice_text_verbatim : twice_verbatim twice_text.
Proof.
  eexists. exists 110, 184.
  split; [vm_compute; reflexivity|]. split; [lia|].
  split; apply occurs_at_positions; vm_compute.
  - apply list_elem_of_here.
  - apply list_elem_of_further, list_elem_of_here.
Qed.

Lemma ambiguous_target_untouched_witness :
  (files twice_world !! "main.js" = Some twice_text /\
   twice_verbatim twice_text /\ already_patched twice_text = false) /\
  exists w' log a,
    analyzeFile twice_text "workbench" = Some (log, Some a) /\
    patchFile "main.js" "workbench" twice_world = Some (false, w') /\
    files w' = files twice_world /\
    new_trace twice_world w' = [OpExists "main.js"; OpRead "main.js"] /\
    (2 <= count_of twice_text (target a))%Z /\
    new_out twice_world w'
    = log ++ [LogAmbiguous "workbench" (count_of twice_text (target a))].
Proof.
  assert (H1 : files twice_world !! "main.js" = Some twice_text)
    by (vm_compute; reflexivity).
  assert (H2 : already_patched twice_text = false) by (vm_compute; reflexivity).
  split; [split; [exact H1|split; [exact twice_text_verbatim|exact H2]]|].
  destruct (ambiguous_target_untouched "main.js" "workbench" twice_world
              twice_text H1 twice_text_verbatim) as (b & w' & E & Hf & Ht & Hm).
  destruct (analyzeFile twice_text "workbench") as [[log [a|]]|] eqn:Ea;
    [|vm_compute in Ea; discriminate..].
  destruct (Hm H2 log a eq_refl) as (-> & Hc & Ho).
  exists w', log, a. split; [reflexivity|]. split; [exact E|].
  split; [exact Hf|]. split; [exact Ht|]. split; [exact Hc|exact Ho].
Defined.

(** C3 as worded fails.  [twice_bare] holds the matched text twice, and
    [patchFile] reports the missing policy variable, not the ambiguous
    target.  [twice_patched] holds it twice as well, and [patchFile] reports
    "Already patched" and success. *)
Lemma ambiguous_target_counterexample :
  (twice_verbatim twice_bare /\
   patchFile "main.js" "workbench" twice_bare_world =
   Some (false,
         World (files twice_bare_world) [OpExists "main.js"; OpRead "main.js"]
               [LogFound "workbench" 0;
                LogNames (lit "Mt") (lit "Dhe") (lit "b");
                LogNoPolicy "workbench"])) /\
  (twice_verbatim twice_patched /\
   patchFile "main.js" "workbench" twice_patched_world =
   Some (true,
         World (files twice_patched_world)
               [OpExists "main.js"; OpRead "main.js"]
               [LogAlreadyPatched "workbench"])).
Proof.
  split; split.
  - eexists. exists 0, 74.
    split; [vm_compute; reflexivity|]. split; [lia|].
    split; apply occurs_at_positions; vm_compute.
    + apply list_elem_of_here.
    + apply list_elem_of_further, list_elem_of_here.
  - rewrite patchFile_cases.
    replace (files twice_bare_world !! "main.js") with (Some twice_bare)
      by (vm_compute; reflexivity).
    cbv zeta.
    replace (already_patched twice_bare) with false by (vm_compute; reflexivity).
    replace (analyzeFile twice_bare "workbench")
      with (Some ([LogFound "workbench" 0;
                   LogNames (lit "Mt") (lit "Dhe") (lit "b");
                   LogNoPolicy "workbench"], @None analysis))
      by (vm_compute; reflexivity).
    reflexivity.
  - eexists. exists 153, 227.
    split; [vm_compute; reflexivity|]. split; [lia|].
    split; apply occurs_at_positions; vm_compute.
    + apply list_elem_of_here.
    + apply list_elem_of_further, list_elem_of_here.
  - rewrite patchFile_cases.
    replace (files twice_patched_world !! "main.js") with (Some twice_patched)
      by (vm_compute; reflexivity).
    cbv zeta.
    replace (already_patched twice_patched) with true
      by (vm_compute; reflexivity).
    reflexivity.
Qed.

(** * The choice of the scheduling hook *)

(** C7, as amended.  Each of the two loops visits the successive matches
    of its shape: the leftmost match in what is left of the text, the
    longest one at its start, and then on from the end of that match, so
    that a call lying inside an earlier match is not visited.  Such a list
    of matches exists for every text, and for any such lists of the window
    and of the file the following holds.  The window tally leaves out the
    wrapping-function alias and the words [var] and [new] and counts 1 per
    match; the whole-file tally of the cleanup shape leaves out the
    wrapping-function alias and counts 5 per match.  Step 4 returns; it
    selects an alias of highest weight, and among those the first in the
    order in which [Object.entries] lists the tally: array-index aliases
    in ascending numeric order, then the others in order of discovery.  It
    selects nothing exactly when nothing was tallied, and then extraction
    fails. *)
Theorem scheduling_hook_selection content matchIndex callback :
  (exists c1 c5,
     scan effectRe None (nearby content matchIndex) c1 /\
     scan cleanupRe None content c5) /\
  (forall c1 c5,
     scan effectRe None (nearby content matchIndex) c1 ->
     scan cleanupRe None content c5 ->
     let k1 := List.filter (keep_effect callback) c1 in
     let k5 := List.filter (keep_cleanup callback) c5 in
     let W := weight k1 k5 in
     exists sel,
       effect_alias content matchIndex callback =
         Some (sel, default 0%Z (W <$> sel)) /\
       (sel = None <-> k1 ++ k5 = []) /\
       (forall a, sel = Some a ->
          (0 < W a)%Z /\
          exists pre post,
            enum_order (first_seen (k1 ++ k5)) = pre ++ a :: post /\
            (forall b, b ∈ pre -> (W b < W a)%Z) /\
            (forall b, b ∈ post -> (W b <= W a)%Z)) /\
       (forall label m,
          re_match onChangeRe content = Some m ->
          matchIndex = indexOf content (mtext m) ->
          callback = group m 2 ->
          (sel = None ->
           exists log, extract content label = Some (log, None)) /\
          (forall log s,
             extract content label = Some (log, Some s) ->
             sel = Some (useEffectAlias s)))).
Proof.
  split.
  { exists (hits effectRe (nearby content matchIndex)),
      (hits cleanupRe content).
    split; [apply scan_effectRe|apply scan_cleanupRe]; reflexivity. }
  intros c1 c5 H1 H5. apply scan_effectRe in H1. apply scan_cleanupRe in H5.
  subst c1 c5. intros k1 k5 W.
  exists (select_amended content matchIndex callback).
  split; [apply effect_alias_select|]. split; [|split].
  - rewrite select_amended_none. unfold k1, k5. split.
    + intros [E1 E5]. unfold window_candidates in E1.
      unfold cleanup_candidates in E5. rewrite E1, E5. reflexivity.
    + intros E. apply app_eq_nil in E. exact E.
  - intros a Ha. split; [eapply best_pos, Ha|]. apply best_max, Ha.
  - intros label m Hm -> ->. split.
    + intros Hn. apply extract_failure. right. right.
      rewrite (has_candidate_iff _ _ Hm), Hn. intros [? ?]. discriminate.
    + intros log s He. apply extract_tokens in He as (_ & m' & Hm' & _ & _ & Hs).
      rewrite Hm in Hm'. injection Hm' as <-. exact Hs.
Qed.

Lemma scheduling_hook_selection_witness :
  scan effectRe None (nearby overlap_text 124) [lit "zz"; lit "ab"] /\
  scan cleanupRe None overlap_text [] /\
  effect_alias overlap_text 124 (lit "Mt") = Some (Some (lit "zz"), 1%Z) /\
  effect_alias digits_text 109 (lit "Mt") = Some (Some (lit "12"), 1%Z) /\
  effect_alias sample_text 110 (lit "Mt") = Some (Some (lit "mn"), 5%Z).
Proof.
  assert (H1 : scan effectRe None (nearby overlap_text 124)
                 [lit "zz"; lit "ab"])
    by (apply scan_effectRe; vm_compute; reflexivity).
  assert (H5 : scan cleanupRe None overlap_text [])
    by (apply scan_cleanupRe; vm_compute; reflexivity).
  split; [exact H1|]. split; [exact H5|]. split; [|split].
  - destruct (proj2 (scheduling_hook_selection overlap_text 124 (lit "Mt"))
                _ _ H1 H5) as (sel & -> & Hnone & Hsel & _).
    destruct sel as [a|].
    + destruct (Hsel a eq_refl) as (Hpos & pre & post & Eo & Hpre & _).
      vm_compute in Eo. destruct pre as [|x [|y pre]].
      * injection Eo as <- _. reflexivity.
      * injection Eo as <- <- _. exfalso.
        specialize (Hpre (lit "zz") ltac:(apply list_elem_of_here)).
        vm_compute in Hpre. discriminate.
      * exfalso. destruct pre; discriminate.
    + exfalso. pose proof (proj1 Hnone eq_refl) as E.
      vm_compute in E. discriminate.
  - vm_compute. reflexivity.
  - vm_compute. reflexivity.
Defined.

(** C7 as worded fails three times.  In [var_text] the only call in effect
    shape is spelled [var]: the wording selects it, the code finds no
    candidate and extraction fails.  In [digits_text] the aliases [ab] and
    [12] both weigh 1 and [ab] is discovered first: the wording selects
    [ab], the code selects [12].  In [overlap_text] the alias [ab] is
    invoked twice in effect shape and [zz] once, but the first call of
    [ab] lies inside the match of [zz]: the wording selects [ab], the code
    counts one match each and selects [zz]. *)
Lemma scheduling_hook_counterexample :
  (select_as_specified var_text 90 (lit "Mt") = Some (lit "var") /\
   extract var_text "workbench" =
   Some ([LogFound "workbench" 90;
          LogNames (lit "Mt") (lit "Dhe") (lit "b");
          LogPolicy (lit "u"); LogSecure (lit "d");
          LogNoEffect "workbench"], None)) /\
  (select_as_specified digits_text 109 (lit "Mt") = Some (lit "ab") /\
   exists s,
     extract digits_text "workbench" =
     Some ([LogFound "workbench" 109;
            LogNames (lit "Mt") (lit "Dhe") (lit "b");
            LogPolicy (lit "u"); LogSecure (lit "d");
            LogEffect (lit "12") 1], Some s) /\
     useEffectAlias s = lit "12") /\
  (occurrences effectRe None (nearby overlap_text 124)
   = [lit "zz"; lit "ab"; lit "ab"] /\
   select_as_specified overlap_text 124 (lit "Mt") = Some (lit "ab") /\
   exists s,
     extract overlap_text "workbench" =
     Some ([LogFound "workbench" 124;
            LogNames (lit "Mt") (lit "Dhe") (lit "b");
            LogPolicy (lit "u"); LogSecure (lit "d");
            LogEffect (lit "zz") 1], Some s) /\
     useEffectAlias s = lit "zz").
Proof.
  split; [|split].
  - split; vm_compute; reflexivity.
  - split; [vm_compute; reflexivity|].
    eexists. split; vm_compute; reflexivity.
  - split; [vm_compute; reflexivity|]. split; [vm_compute; reflexivity|].
    eexists. split; vm_compute; reflexivity.
Qed.

(** * The apply case of main *)

(** C8.  What the code does instead: [every] stops at the first file for
    which [patchFile] returns [false]; the files after it are not
    processed. *)
Theorem apply_stops_at_first_failure f others w w1 :
  patchFile (tpath f) (tlabel f) w = Some (false, w1) ->
  main_apply (f :: others) w =
  Some (tt, World (files w1) (trace w1) (out w1 ++ [LogSomeFailed])).
Proof.
  intros H. unfold main_apply, bind. simpl. unfold bind. rewrite H. reflexivity.
Qed.

Lemma workbench_unrecognised :
  patchFile workbench_js "workbench" drifted_install =
  Some (false, World (files drifted_install)
                     [OpExists workbench_js; OpRead workbench_js]
                     [LogNoOnChange "workbench"]).
Proof.
  rewrite patchFile_cases.
  replace (files drifted_install !! workbench_js) with (Some drifted_text)
    by (vm_compute; reflexivity).
  cbv zeta.
  replace (already_patched drifted_text) with false by (vm_compute; reflexivity).
  replace (analyzeFile drifted_text "workbench")
    with (Some ([LogNoOnChange "workbench"], @None analysis))
    by (vm_compute; reflexivity).
  reflexivity.
Qed.

Lemma apply_stops_at_first_failure_witness :
  main_apply both_targets drifted_install =
  Some (tt, World (files drifted_install)
                  [OpExists workbench_js; OpRead workbench_js]
                  [LogNoOnChange "workbench"; LogSomeFailed])
  /\ exists w', patchFile jetski_js "jetskiAgent" drifted_install
                = Some (true, w').
Proof.
  split.
  - exact (apply_stops_at_first_failure
             (TargetFile workbench_js "workbench")
             [TargetFile jetski_js "jetskiAgent"] drifted_install _
             workbench_unrecognised).
  - eexists. vm_compute. reflexivity.
Defined.

(** The revert case, in contrast, goes through every file. *)
Lemma revert_visits_every_file :
  main_revert both_targets drifted_install =
  Some (tt, World (files drifted_install)
                  [OpExists (bak workbench_js); OpExists (bak jetski_js)]
                  [LogNoBackup "workbench"; LogNoBackup "jetskiAgent";
                   LogRestoredAll]).
Proof.
  unfold main_revert, both_targets, bind. cbn [forEach tpath tlabel bind].
  unfold bind. rewrite (revertFile_without_backup workbench_js)
    by (vm_compute; reflexivity).
  rewrite (revertFile_without_backup jetski_js) by (vm_compute; reflexivity).
  reflexivity.
Qed.

(** C9.  What the code does instead: the apply case ends with exit code 0
    also when a file failed and the closing line says so. *)
Theorem apply_failure_exits_zero f others w w1 :
  patchFile (tpath f) (tlabel f) w = Some (false, w1) ->
  exit_code (main_apply (f :: others)) w = Some 0%Z /\
  exists w', main_apply (f :: others) w = Some (tt, w') /\
             last (out w') = Some LogSomeFailed.
Proof.
  intros H. unfold exit_code.
  assert (E : main_apply (f :: others) w =
              Some (tt, World (files w1) (trace w1) (out w1 ++ [LogSomeFailed]))).
  { unfold main_apply, bind. simpl. unfold bind. rewrite H. reflexivity. }
  rewrite E. split; [reflexivity|].
  eexists. split; [reflexivity|]. simpl. apply last_snoc.
Qed.

Lemma apply_failure_exits_zero_witness :
  exit_code (main_apply both_targets) drifted_install = Some 0%Z /\
  exists w', main_apply both_targets drifted_install = Some (tt, w') /\
             last (out w') = Some LogSomeFailed.
Proof.
  exact (apply_failure_exits_zero
           (TargetFile workbench_js "workbench")
           [TargetFile jetski_js "jetskiAgent"] drifted_install _
           workbench_unrecognised).
Defined.

(** * Further properties of the file operations *)

(** The two ways a run of [patchFile] can end: without touching the store,
    or with the patch written. *)
Lemma patchFile_result p label w :
  exists b w',
    patchFile p label w = Some (b, w') /\
    ((files w' = files w /\
      (new_trace w w' = [OpExists p] \/
       new_trace w w' = [OpExists p; OpRead p]) /\
      (b = true <-> patched_on (files w) p)) \/
     (b = true /\
      exists T l a,
        files w !! p = Some T /\ already_patched T = false /\
        analyzeFile T label = Some (l, Some a) /\
        count_of T (target a) = 1%Z /\
        files w' = <[p := replace T (target a) (replacement a)]>
                     (match files w !! bak p with
                      | Some _ => files w
                      | None => <[bak p := T]> (files w)
                      end) /\
        new_trace w w' =
          [OpExists p; OpRead p; OpExists (bak p)]
          ++ (match files w !! bak p with
              | Some _ => []
              | None => [OpCopy p (bak p)]
              end)
          ++ [OpWrite p (replace T (target a) (replacement a));
              OpStat p; OpStat (bak p)])).
Proof.
  rewrite patchFile_cases.
  destruct (files w !! p) as [T|] eqn:Ep.
  2: { do 2 eexists. split; [reflexivity|]. left. cbn [files].
       split; [reflexivity|]. split; [left; apply new_trace_app|].
       split; [discriminate|]. intros (c & Hc & _). congruence. }
  cbv zeta.
  assert (Hquiet : forall b o,
    (b = true <-> already_patched T = true) ->
    exists (b0 : bool) (w' : world),
      Some (b, World (files w) ((trace w ++ [OpExists p]) ++ [OpRead p]) o)
      = Some (b0, w') /\
      ((files w' = files w /\
        (new_trace w w' = [OpExists p] \/
         new_trace w w' = [OpExists p; OpRead p]) /\
        (b0 = true <-> patched_on (files w) p)) \/
       (b0 = true /\
        exists T0 l a,
          Some T = Some T0 /\ already_patched T0 = false /\
          analyzeFile T0 label = Some (l, Some a) /\
          count_of T0 (target a) = 1%Z /\
          files w' = <[p := replace T0 (target a) (replacement a)]>
                       (match files w !! bak p with
                        | Some _ => files w
                        | None => <[bak p := T0]> (files w)
                        end) /\
          new_trace w w' =
            [OpExists p; OpRead p; OpExists (bak p)]
            ++ (match files w !! bak p with
                | Some _ => []
                | None => [OpCopy p (bak p)]
                end)
            ++ [OpWrite p (replace T0 (target a) (replacement a));
                OpStat p; OpStat (bak p)]))).
  { intros b o Hb. do 2 eexists. split; [reflexivity|]. left. cbn [files].
    split; [reflexivity|].
    split; [right; rewrite <- app_assoc; apply new_trace_app|].
    rewrite Hb. split.
    - intros H. exists T. auto.
    - intros (c & Hc & H). congruence. }
  destruct (already_patched T) eqn:Ea; [apply Hquiet; tauto|].
  destruct (analyzeFile_total T label) as [[l [a|]] El]; rewrite El.
  2: { apply Hquiet. split; discriminate. }
  destruct (bool_decide (count_of T (target a) <> 1%Z)) eqn:Ec.
  { apply Hquiet. split; discriminate. }
  apply bool_decide_eq_false in Ec.
  assert (Hc : count_of T (target a) = 1%Z).
  { destruct (decide (count_of T (target a) = 1%Z)); [assumption|].
    contradiction. }
  destruct (files w !! bak p) as [bk|] eqn:Eb.
  - do 2 eexists. split; [reflexivity|]. right. split; [reflexivity|].
    exists T, l, a. cbn [files]. repeat (split; [solve [auto]|]).
    rewrite <- !app_assoc. apply new_trace_app.
  - do 2 eexists. split; [reflexivity|]. right. split; [reflexivity|].
    exists T, l, a. cbn [files]. repeat (split; [solve [auto]|]).
    rewrite <- !app_assoc. apply new_trace_app.
Qed.

(** X1.  A run of [patchFile] that returns has changed no file other than
    the live file and its backup, and has removed no file: whatever the
    store held and whatever the result, every other path keeps its content
    and every file that existed still exists. *)
Theorem patchFile_touches_two_paths p label w b w' :
  patchFile p label w = Some (b, w') ->
  (forall q, q <> p -> q <> bak p -> files w' !! q = files w !! q) /\
  (forall q, is_Some (files w !! q) -> is_Some (files w' !! q)).
Proof.
  intros E0.
  destruct (patchFile_result p label w) as (b0 & w0 & E & H).
  rewrite E0 in E. injection E as <- <-.
  destruct H as [(Hf & _)|(_ & T & l & a & Ep & _ & _ & _ & Hf & _)];
    rewrite Hf.
  - split; auto.
  - split.
    + intros q Hq Hb. rewrite lookup_insert_ne by congruence.
      destruct (files w !! bak p); [reflexivity|].
      rewrite lookup_insert_ne by congruence. reflexivity.
    + intros q Hq. destruct (decide (q = p)) as [->|Hne].
      * rewrite lookup_insert_eq. eauto.
      * rewrite lookup_insert_ne by congruence.
        destruct (files w !! bak p); [exact Hq|].
        destruct (decide (q = bak p)) as [->|Hnb].
        -- rewrite lookup_insert_eq. eauto.
        -- rewrite lookup_insert_ne by congruence. exact Hq.
Qed.

Lemma patchFile_touches_two_paths_witness :
  exists w',
    patchFile workbench_js "workbench" (World (disk linux_install) [] [])
    = Some (true, w') /\
    files w' !! jetski_js = Some sample_text /\
    is_Some (files w' !! workbench_js).
Proof.
  destruct (patchFile workbench_js "workbench"
              (World (disk linux_install) [] []))
    as [[b w']|] eqn:E; [|vm_compute in E; discriminate].
  assert (Hb : b = true) by (vm_compute in E; congruence). subst b.
  destruct (patchFile_touches_two_paths _ _ _ _ _ E) as [Hother Hkeep].
  exists w'. split; [reflexivity|]. split.
  - rewrite Hother; [vm_compute; reflexivity|discriminate|discriminate].
  - apply Hkeep. vm_compute. eauto.
Defined.

(** X2.  A run of [patchFile] that returns [false] has left the store as it
    was and has made no call other than the existence test and the read of
    the live file: no backup is made for a patch that is not written. *)
Theorem failed_patch_leaves_store p label w :
  exists b w',
    patchFile p label w = Some (b, w') /\
    (b = false ->
     files w' = files w /\
     (new_trace w w' = [OpExists p] \/
      new_trace w w' = [OpExists p; OpRead p]) /\
     ~ patched_on (files w') p).
Proof.
  destruct (patchFile_result p label w) as (b & w' & E & H).
  exists b, w'. split; [exact E|]. intros ->.
  destruct H as [(Hf & Ht & Hb)|(Hb & _)]; [|discriminate].
  split; [exact Hf|]. split; [exact Ht|].
  rewrite Hf. intros Hp. apply Hb in Hp. discriminate.
Qed.

(** X3.  A run of [patchFile] that returns [true] leaves a live file that
    passes the already-patched test, whether it was found patched or has
    just been written. *)
Theorem patched_after_success p label w :
  exists b w',
    patchFile p label w = Some (b, w') /\
    (b = true -> patched_on (files w') p).
Proof.
  destruct (patchFile_result p label w) as (b & w' & E & H).
  exists b, w'. split; [exact E|]. intros ->.
  destruct H as [(Hf & _ & Hb)|(_ & T & l & a & _ & _ & El & _ & Hf & _)];
    rewrite Hf.
  - apply Hb. reflexivity.
  - eexists. rewrite lookup_insert_eq. split; [reflexivity|].
    eapply patched_recognised, El.
Qed.

(** A file that passes the already-patched test still does after a run of
    [patchFile] on any path. *)
Lemma patchFile_keeps_patched p label w b w' q :
  patchFile p label w = Some (b, w') ->
  patched_on (files w) q -> patched_on (files w') q.
Proof.
  intros E Hq.
  destruct (patchFile_result p label w) as (b0 & w0 & E0 & H).
  rewrite E in E0. injection E0 as <- <-.
  destruct H as [(Hf & _)|(_ & T & l & a & Ep & Ea & El & _ & Hf & _)];
    rewrite Hf; [exact Hq|].
  destruct Hq as (c & Hc & Hpat).
  destruct (decide (q = p)) as [->|Hne]; [congruence|].
  exists c. split; [|exact Hpat].
  rewrite lookup_insert_ne by congruence.
  destruct (files w !! bak p) eqn:Eb; [exact Hc|].
  rewrite lookup_insert_ne; [exact Hc|]. congruence.
Qed.

Lemma replace_insert s pat ins i :
  Forall (fun c => negb (N.eqb c 36) = true) (ins ++ pat) ->
  index_from pat s 0 = Some i ->
  replace s pat (ins ++ pat) = take i s ++ ins ++ drop i s.
Proof.
  intros Hr Hi. unfold replace. rewrite Hi.
  apply index_from_sound in Hi as (pre & post & -> & ->). simpl.
  rewrite get_substitution_plain by exact Hr.
  rewrite take_app_length, drop_app_length.
  replace (drop (length pre + length pat) (pre ++ pat ++ post)) with post.
  - rewrite <- !app_assoc. reflexivity.
  - rewrite (app_assoc pre pat post), <- length_app, drop_app_length.
    reflexivity.
Qed.

Lemma patchCode_length s :
  length (patchCode s) =
  35 + length (useEffectAlias s) + length (policyVar s)
  + length (enumAlias s) + length (secureVar s) + length (confirmFn s).
Proof.
  unfold patchCode. rewrite !length_app.
  change (length (lit "_aep=")) with 5.
  change (length (lit "(()=>{")) with 6.
  change (length (lit "===")) with 3.
  change (length (lit ".EAGER&&!")) with 9.
  change (length (lit "&&")) with 2.
  change (length (lit "(!0)},[]),")) with 10.
  lia.
Qed.

(** X4.  The patch is an insertion.  When [patchFile] writes the live
    file, the text written is the text read with the patch code inserted
    at the index of the leftmost match of the handler shape: nothing is
    removed or reordered, the text read is what remains when the insertion
    is taken out, and the file grows by 35 code units plus the lengths of
    the five names spliced into the patch code. *)
Theorem patch_is_insertion p label w b w' T d :
  files w !! p = Some T ->
  patchFile p label w = Some (b, w') ->
  OpWrite p d ∈ new_trace w w' ->
  exists m log s,
    re_match onChangeRe T = Some m /\
    extract T label = Some (log, Some s) /\
    d = take (mindex m) T ++ patchCode s ++ drop (mindex m) T /\
    files w' !! p = Some d /\
    take (mindex m) d ++ drop (mindex m + length (patchCode s)) d = T /\
    length d =
      length T + 35 + length (useEffectAlias s) + length (policyVar s)
      + length (enumAlias s) + length (secureVar s) + length (confirmFn s).
Proof.
  intros Ep E Hw.
  destruct (patchFile_result p label w) as (b0 & w0 & E0 & H).
  rewrite E in E0. injection E0 as <- <-.
  destruct H as [(_ & Ht & _)|(_ & T0 & l & a & Ep0 & _ & El & _ & Hf & Ht)].
  { destruct Ht as [Ht|Ht]; rewrite Ht in Hw;
      repeat (apply elem_of_cons in Hw as [Hw|Hw]; [discriminate|]);
      apply elem_of_nil in Hw; contradiction. }
  rewrite Ep in Ep0. injection Ep0 as <-.
  assert (Hd : d = replace T (target a) (replacement a)).
  { rewrite Ht in Hw.
    repeat (apply elem_of_cons in Hw as [Hw|Hw]; [discriminate|]).
    apply elem_of_app in Hw as [Hw|Hw].
    - destruct (files w !! bak p).
      + apply elem_of_nil in Hw. contradiction.
      + apply list_elem_of_singleton in Hw. discriminate.
    - apply elem_of_cons in Hw as [Hw|Hw]; [congruence|].
      repeat (apply elem_of_cons in Hw as [Hw|Hw]; [discriminate|]).
      apply elem_of_nil in Hw. contradiction. }
  apply analyzeFile_success in El as (s & He & ->).
  pose proof (extract_tokens _ _ _ _ He) as (Htok & m & Hm & Hfm & _).
  change (replace T (target (build s label)) (replacement (build s label)))
    with (replace T (fullMatch s) (patchCode s ++ fullMatch s)) in *.
  assert (Hi : index_from (fullMatch s) T 0 = Some (mindex m)).
  { pose proof (indexOf_match _ _ Hm) as Hio. unfold indexOf in Hio.
    rewrite Hfm.
    destruct (index_from (mtext m) T 0) as [i|]; [|lia].
    f_equal. lia. }
  assert (Hplain : Forall (fun c => negb (N.eqb c 36) = true)
                     (patchCode s ++ fullMatch s)).
  { apply Forall_app. split; [apply patchCode_no_dollar, Htok|].
    rewrite Hfm. eapply re_match_no_dollar, Hm. }
  rewrite (replace_insert _ _ _ _ Hplain Hi) in Hd, Hf.
  assert (Hlen : mindex m <= length T).
  { apply index_from_sound in Hi as (pre & post & -> & ->).
    rewrite length_app. simpl. lia. }
  exists m, l, s. split; [exact Hm|]. split; [exact He|].
  split; [exact Hd|]. split.
  { rewrite Hf, lookup_insert_eq, Hd. reflexivity. }
  split.
  - rewrite Hd. rewrite take_app_le by (rewrite length_take; lia).
    rewrite take_take, Nat.min_id.
    rewrite drop_app_ge by (rewrite length_take; lia).
    rewrite length_take, Nat.min_l by lia.
    replace (mindex m + length (patchCode s) - mindex m)
      with (length (patchCode s)) by lia.
    rewrite drop_app_length. apply take_drop.
  - rewrite Hd, !length_app, length_take, length_drop, patchCode_length.
    lia.
Qed.

Lemma patch_is_insertion_witness :
  exists w' d m log s,
    files sample_world !! "main.js" = Some sample_text /\
    patchFile "main.js" "workbench" sample_world = Some (true, w') /\
    OpWrite "main.js" d ∈ new_trace sample_world w' /\
    re_match onChangeRe sample_text = Some m /\
    extract sample_text "workbench" = Some (log, Some s) /\
    d = take (mindex m) sample_text ++ patchCode s
        ++ drop (mindex m) sample_text /\
    length d = length sample_text + 43.
Proof.
  assert (H1 : files sample_world !! "main.js" = Some sample_text)
    by (vm_compute; reflexivity).
  destruct (patchFile "main.js" "workbench" sample_world) as [[b w']|] eqn:E;
    [|vm_compute in E; discriminate].
  assert (Hb : b = true) by (vm_compute in E; congruence). subst b.
  assert (Hw : exists d, OpWrite "main.js" d ∈ new_trace sample_world w').
  { vm_compute in E. injection E as <-. eexists.
    unfold new_trace. cbn [trace sample_world one_file length drop].
    do 4 apply list_elem_of_further. apply list_elem_of_here. }
  destruct Hw as [d Hw].
  destruct (patch_is_insertion "main.js" "workbench" sample_world true w'
              sample_text d H1 E Hw)
    as (m & log & s & Hm & He & Hd & _ & _ & Hlen).
  exists w', d, m, log, s. repeat (split; [solve [auto]|]).
  rewrite Hlen. vm_compute in He. injection He as _ <-. reflexivity.
Defined.

(** ** The scheduling-hook alias *)

Lemma matches_groups_between lo hi r st st' :
  matches r st st' -> groups_between lo hi r ->
  caps_all (sized lo hi) (caps st) -> caps_all (sized lo hi) (caps st').
Proof.
  induction 1 as [l st t E|cl l0 h0 st w t Hs Hw Hlo Hhi|n r st st' Hm IH
                 |n l st t Ec E|n st Ec|st Hb|r1 r2 st st1 st2 H1 IH1 H2 IH2];
    simpl; intros Hg Hc; auto.
  - destruct r; try contradiction. destruct hi0 as [h|]; [|contradiction].
    destruct Hg as [Hl Hh].
    inversion Hm; subst. simpl in *.
    intros m u. unfold set_cap. destruct (Nat.eqb m n); [|apply Hc].
    intros [= <-]. match goal with H : rest st = _ |- _ => rewrite H end.
    rewrite consumed_app. unfold sized. lia.
  - destruct Hg. auto.
Qed.

Lemma hits_between lo hi r s a :
  groups_between lo hi r -> binds r 1 = true -> a ∈ hits r s ->
  sized lo hi a.
Proof.
  intros Hg Hb. unfold hits, exec_all.
  destruct (exec_loop r None s 0 0) as [ms|] eqn:E; simpl;
    [|intros H; inversion H].
  apply exec_loop_sound in E. rewrite list_elem_of_In, in_map_iff.
  intros (m & <- & Hin). rewrite Forall_forall in E.
  apply list_elem_of_In, E in Hin as (p' & s' & i' & Hm).
  apply match_here_sound in Hm as (post & _ & _ & _ & Hm).
  pose proof (matches_groups_between _ _ _ _ _ Hm Hg (no_caps_all _)) as Hc.
  destruct (matches_binds _ _ _ 1 Hm (or_introl Hb)) as [w Hw].
  simpl in *. unfold group. rewrite Hw. simpl. eapply Hc, Hw.
Qed.

(** X5.  The alias that a successful analysis takes for the scheduling
    hook is never the alias of the callback wrapper of the handler, and it
    has two or three code units: the patch never schedules its effect
    through the function that wraps the handler. *)
Theorem hook_alias_differs_from_wrapper content label log s :
  extract content label = Some (log, Some s) ->
  useEffectAlias s <> callbackAlias s /\
  2 <= length (useEffectAlias s) /\ length (useEffectAlias s) <= 3.
Proof.
  intros He. apply extract_tokens in He as (_ & m & _ & _ & Hcb & Hsel).
  apply best_elem in Hsel. rewrite enum_order_elem, first_seen_elem in Hsel.
  unfold window_candidates, cleanup_candidates in Hsel.
  rewrite elem_of_app, !list_elem_of_In, !filter_In, <- !list_elem_of_In
    in Hsel.
  rewrite Hcb.
  destruct Hsel as [[Hin Hk]|[Hin Hk]].
  - split.
    + unfold keep_effect in Hk. apply andb_prop in Hk as [Hk _].
      apply andb_prop in Hk as [Hk _]. apply bool_decide_eq_true in Hk.
      exact Hk.
    + apply (hits_between 2 3) in Hin; [exact Hin|simpl; lia|reflexivity].
  - split.
    + unfold keep_cleanup in Hk. apply bool_decide_eq_true in Hk. exact Hk.
    + apply (hits_between 2 3) in Hin; [exact Hin|simpl; lia|reflexivity].
Qed.

Lemma hook_alias_differs_from_wrapper_witness :
  exists log s,
    extract sample_text "workbench" = Some (log, Some s) /\
    useEffectAlias s <> callbackAlias s /\
    2 <= length (useEffectAlias s) /\ length (useEffectAlias s) <= 3.
Proof.
  destruct (extract sample_text "workbench") as [[log [s|]]|] eqn:E;
    try (vm_compute in E; discriminate).
  exists log, s. split; [reflexivity|].
  exact (hook_alias_differs_from_wrapper sample_text "workbench" log s E).
Defined.

(** ** Cycles of apply and revert *)

(** X6.  Revert brings back a file that apply patches again in the same
    way.  When a first apply has made the backup and written the patch,
    a revert followed by a second apply writes the same text again, without
    a new copy, and leaves the store exactly as the first apply left it. *)
Theorem apply_revert_apply p label w w1 d :
  files w !! bak p = None ->
  patchFile p label w = Some (true, w1) ->
  OpWrite p d ∈ new_trace w w1 ->
  exists T w2 w3,
    files w !! p = Some T /\
    revertFile p label w1 = Some (tt, w2) /\
    files w2 !! p = Some T /\
    patchFile p label w2 = Some (true, w3) /\
    new_trace w2 w3 =
      [OpExists p; OpRead p; OpExists (bak p); OpWrite p d;
       OpStat p; OpStat (bak p)] /\
    files w3 = files w1 /\
    files w3 !! bak p = Some T.
Proof.
  intros Eb E Hw.
  destruct (patchFile_result p label w) as (b0 & w0 & E0 & H).
  rewrite E in E0. injection E0 as <- <-.
  destruct H as [(_ & Ht & _)|(_ & T & l & a & Ep & Ea & El & Hc & Hf & Ht)].
  { destruct Ht as [Ht|Ht]; rewrite Ht in Hw;
      repeat (apply elem_of_cons in Hw as [Hw|Hw]; [discriminate|]);
      apply elem_of_nil in Hw; contradiction. }
  rewrite Eb in Hf, Ht.
  assert (Hd : d = replace T (target a) (replacement a)).
  { rewrite Ht in Hw.
    repeat (apply elem_of_cons in Hw as [Hw|Hw]; [discriminate|]).
    apply elem_of_cons in Hw as [Hw|Hw]; [congruence|].
    repeat (apply elem_of_cons in Hw as [Hw|Hw]; [discriminate|]).
    apply elem_of_nil in Hw. contradiction. }
  rewrite <- Hd in Hf.
  assert (Hbak : files w1 !! bak p = Some T).
  { rewrite Hf, lookup_insert_ne, lookup_insert_eq; [reflexivity|].
    bak_ne. }
  exists T. eexists. eexists. split; [exact Ep|].
  split; [apply (revertFile_with_backup _ _ _ _ Hbak)|].
  cbn [files]. split; [apply lookup_insert_eq|].
  rewrite patchFile_cases. cbn [files trace out].
  rewrite lookup_insert_eq. cbv zeta. rewrite Ea, El.
  rewrite bool_decide_eq_false_2 by (intros Hne; apply Hne, Hc).
  rewrite lookup_insert_ne, Hbak by bak_ne.
  split; [reflexivity|]. rewrite <- Hd.
  split.
  { unfold new_trace. cbn [trace].
    set (X := (trace w1 ++ [OpExists (bak p)]) ++ [OpCopy (bak p) p]).
    rewrite <- !app_assoc. apply drop_app_length. }
  cbn [files]. rewrite insert_insert_eq.
  split.
  - rewrite Hf at 1. rewrite insert_insert_eq. symmetry. exact Hf.
  - rewrite lookup_insert_ne by bak_ne. exact Hbak.
Qed.

Lemma apply_revert_apply_witness :
  exists w1 d w2 w3,
    files sample_world !! bak "main.js" = None /\
    patchFile "main.js" "workbench" sample_world = Some (true, w1) /\
    OpWrite "main.js" d ∈ new_trace sample_world w1 /\
    revertFile "main.js" "workbench" w1 = Some (tt, w2) /\
    patchFile "main.js" "workbench" w2 = Some (true, w3) /\
    files w3 = files w1.
Proof.
  assert (H0 : files sample_world !! bak "main.js" = None)
    by (vm_compute; reflexivity).
  destruct (patchFile "main.js" "workbench" sample_world) as [[b w1]|] eqn:E;
    [|vm_compute in E; discriminate].
  assert (Hb : b = true) by (vm_compute in E; congruence). subst b.
  assert (Hw : exists d, OpWrite "main.js" d ∈ new_trace sample_world w1).
  { vm_compute in E. injection E as <-. eexists.
    unfold new_trace. cbn [trace sample_world one_file length drop].
    do 4 apply list_elem_of_further. apply list_elem_of_here. }
  destruct Hw as [d Hw].
  destruct (apply_revert_apply "main.js" "workbench" sample_world w1 d
              H0 E Hw)
    as (T & w2 & w3 & _ & Er & _ & Ea & _ & Hf & _).
  exists w1, d, w2, w3. auto 10.
Defined.

(** X7.  A run of [revertFile] that returns has written nothing but the
    live file, which has become the backup when there is one (also when
    the live file was missing) and is left alone otherwise; and a second
    revert that returns changes nothing more. *)
Theorem revert_is_idempotent p label w w1 :
  revertFile p label w = Some (tt, w1) ->
  (forall q, q <> p -> files w1 !! q = files w !! q) /\
  (forall bk, files w !! bak p = Some bk -> files w1 !! p = Some bk) /\
  (files w !! bak p = None -> files w1 = files w) /\
  (forall w2, revertFile p label w1 = Some (tt, w2) -> files w2 = files w1).
Proof.
  destruct (files w !! bak p) as [bk|] eqn:Eb.
  - rewrite (revertFile_with_backup _ _ _ _ Eb). intros [= <-].
    cbn [files].
    split; [intros q Hq; rewrite lookup_insert_ne by congruence; reflexivity|].
    split; [intros bk' [= <-]; apply lookup_insert_eq|].
    split; [discriminate|].
    assert (Eb1 : <[p := bk]> (files w) !! bak p = Some bk).
    { rewrite lookup_insert_ne by bak_ne. exact Eb. }
    intros w2. rewrite (revertFile_with_backup _ _ _ bk) by exact Eb1.
    intros [= <-]. cbn [files]. apply insert_insert_eq.
  - rewrite (revertFile_without_backup _ _ _ Eb). intros [= <-].
    cbn [files]. split; [reflexivity|]. split; [discriminate|].
    split; [reflexivity|].
    intros w2. rewrite revertFile_without_backup by exact Eb.
    intros [= <-]. reflexivity.
Qed.

Lemma revert_is_idempotent_witness :
  exists w1 w2,
    revertFile workbench_js "workbench" restorable_install = Some (tt, w1) /\
    files w1 !! workbench_js = Some sample_text /\
    revertFile workbench_js "workbench" w1 = Some (tt, w2) /\
    files w2 = files w1.
Proof.
  destruct (revertFile workbench_js "workbench" restorable_install)
    as [[[] w1]|] eqn:E; [|vm_compute in E; discriminate].
  destruct (revert_is_idempotent _ _ _ _ E) as (_ & Hbk & _ & Hagain).
  destruct (revertFile workbench_js "workbench" w1) as [[[] w2]|] eqn:E2.
  2: { exfalso. vm_compute in E. injection E as <-.
       vm_compute in E2. discriminate. }
  exists w1, w2. split; [reflexivity|].
  split; [apply Hbk; vm_compute; reflexivity|].
  split; [exact E2|]. apply Hagain. reflexivity.
Defined.

(** The store after the [forEach] of the [revert] case. *)
Lemma forEach_revert fs : forall w,
  (forall f g, f ∈ fs -> g ∈ fs -> tpath f <> bak (tpath g)) ->
  exists w' tr,
    forEach (fun f => revertFile (tpath f) (tlabel f)) fs w = Some (tt, w') /\
    (forall f bk, f ∈ fs -> files w !! bak (tpath f) = Some bk ->
                  files w' !! tpath f = Some bk) /\
    (forall f, f ∈ fs -> files w !! bak (tpath f) = None ->
               files w' !! tpath f = files w !! tpath f) /\
    (forall q, (forall f, f ∈ fs -> q <> tpath f) ->
               files w' !! q = files w !! q) /\
    trace w' = trace w ++ tr /\ Forall (is_restore fs) tr.
Proof.
  induction fs as [|f t IH]; intros w Hd.
  - exists w, []. simpl. split; [reflexivity|].
    split; [intros f bk Hf; inversion Hf|].
    split; [intros f Hf; inversion Hf|].
    split; [reflexivity|].
    rewrite app_nil_r. split; [reflexivity|constructor].
  - assert (Hdt : forall f0 g, f0 ∈ t -> g ∈ t -> tpath f0 <> bak (tpath g)).
    { intros f0 g H0 Hg. apply Hd; apply list_elem_of_further; assumption. }
    assert (Hstep : exists w1 tr,
      revertFile (tpath f) (tlabel f) w = Some (tt, w1) /\
      trace w1 = trace w ++ tr /\ Forall (is_restore (f :: t)) tr /\
      (forall q, q <> tpath f -> files w1 !! q = files w !! q) /\
      files w1 !! tpath f =
        match files w !! bak (tpath f) with
        | Some bk => Some bk
        | None => files w !! tpath f
        end).
    { destruct (files w !! bak (tpath f)) as [bk|] eqn:Eb.
      - rewrite (revertFile_with_backup _ _ _ _ Eb).
        eexists. exists [OpExists (bak (tpath f)); OpCopy (bak (tpath f)) (tpath f)].
        split; [reflexivity|]. cbn [files trace].
        split; [rewrite <- app_assoc; reflexivity|].
        split.
        { constructor; [exact I|]. constructor; [|constructor].
          exists f. split; [apply list_elem_of_here|auto]. }
        split; [intros q Hq; rewrite lookup_insert_ne by congruence;
                reflexivity|].
        apply lookup_insert_eq.
      - rewrite (revertFile_without_backup _ _ _ Eb).
        eexists. exists [OpExists (bak (tpath f))].
        split; [reflexivity|]. cbn [files trace].
        split; [reflexivity|].
        split; [constructor; [exact I|constructor]|].
        split; reflexivity. }
    destruct Hstep as (w1 & tr & E1 & Htr & Hrs & Hframe & Hlive).
    destruct (IH w1 Hdt) as (w' & tr' & E' & Hrest & Hkeep & Hother & Htr'
                             & Hcalls).
    exists w', (tr ++ tr'). simpl. unfold bind at 1. rewrite E1.
    split; [exact E'|].
    assert (Hbak : forall g, g ∈ f :: t ->
              files w1 !! bak (tpath g) = files w !! bak (tpath g)).
    { intros g Hg. apply Hframe. intros Heq.
      apply (Hd f g); [apply list_elem_of_here|exact Hg|].
      symmetry. exact Heq. }
    assert (Hlone : forall g, g ∈ f :: t ->
              ~ Exists (fun g' => tpath g' = tpath g) t ->
              g = f /\ files w' !! tpath f = files w1 !! tpath f).
    { intros g Hg Hne.
      apply elem_of_cons in Hg as [->|Hg].
      - split; [reflexivity|]. apply Hother. intros g' Hg' Heq.
        apply Hne, Exists_exists. exists g'.
        split; [exact Hg'|]. symmetry. exact Heq.
      - destruct Hne. apply Exists_exists. exists g.
        split; [exact Hg|reflexivity]. }
    split; [|split; [|split]].
    + intros g bk Hg Hb.
      destruct (decide (Exists (fun g' => tpath g' = tpath g) t)) as [Hex|Hne].
      * apply Exists_exists in Hex as (g' & Hg' & Hpg).
        rewrite <- Hpg. apply Hrest; [exact Hg'|].
        rewrite Hbak by (apply list_elem_of_further; exact Hg').
        rewrite Hpg. exact Hb.
      * destruct (Hlone g Hg Hne) as [-> Hsame].
        rewrite Hsame, Hlive, Hb. reflexivity.
    + intros g Hg Hb.
      destruct (decide (Exists (fun g' => tpath g' = tpath g) t)) as [Hex|Hne].
      * apply Exists_exists in Hex as (g' & Hg' & Hpg).
        rewrite <- Hpg at 1.
        rewrite Hkeep;
          [|exact Hg'
           |rewrite Hbak by (apply list_elem_of_further; exact Hg');
            rewrite Hpg; exact Hb].
        rewrite Hpg.
        destruct (decide (tpath g = tpath f)) as [Heq|Hnf].
        -- rewrite Heq, Hlive. rewrite <- Heq, Hb. reflexivity.
        -- apply Hframe. exact Hnf.
      * destruct (Hlone g Hg Hne) as [-> Hsame].
        rewrite Hsame, Hlive, Hb. reflexivity.
    + intros q Hq. rewrite Hother.
      * apply Hframe. apply Hq. apply list_elem_of_here.
      * intros g Hg. apply Hq. apply list_elem_of_further. exact Hg.
    + split; [rewrite Htr', Htr, app_assoc; reflexivity|].
      apply Forall_app. split; [exact Hrs|].
      eapply Forall_impl; [exact Hcalls|].
      intros [] Ho; simpl in *; auto.
      destruct Ho as (g & Hg & Ho). exists g.
      split; [apply list_elem_of_further; exact Hg|exact Ho].
Qed.

(** X8.  The [revert] case deals with every target, whatever happened to
    the ones before it.  Provided no target is the backup of a target,
    every target that has a backup ends with the text of its backup, every
    target without one is left alone, no other file changes (the backups
    stay), and the only calls are existence tests and copies from a backup
    to its target. *)
Theorem revert_restores_every_backup fs w :
  (forall f g, f ∈ fs -> g ∈ fs -> tpath f <> bak (tpath g)) ->
  exists w',
    main_revert fs w = Some (tt, w') /\
    (forall f bk, f ∈ fs -> files w !! bak (tpath f) = Some bk ->
                  files w' !! tpath f = Some bk) /\
    (forall f, f ∈ fs -> files w !! bak (tpath f) = None ->
               files w' !! tpath f = files w !! tpath f) /\
    (forall q, (forall f, f ∈ fs -> q <> tpath f) ->
               files w' !! q = files w !! q) /\
    Forall (is_restore fs) (new_trace w w') /\
    last (out w') = Some LogRestoredAll.
Proof.
  intros Hd.
  destruct (forEach_revert fs w Hd)
    as (w1 & tr & E & Hrest & Hkeep & Hother & Htr & Hcalls).
  eexists. unfold main_revert, bind. rewrite E. split; [reflexivity|].
  cbn [files trace out].
  split; [exact Hrest|]. split; [exact Hkeep|]. split; [exact Hother|].
  split.
  - unfold new_trace. cbn [trace]. rewrite Htr, drop_app_length. exact Hcalls.
  - apply last_snoc.
Qed.

Lemma both_targets_apart f g :
  f ∈ both_targets -> g ∈ both_targets -> tpath f <> bak (tpath g).
Proof.
  unfold both_targets. intros Hf Hg.
  apply elem_of_cons in Hf as [->|Hf];
    [|apply list_elem_of_singleton in Hf as ->];
    (apply elem_of_cons in Hg as [->|Hg];
     [|apply list_elem_of_singleton in Hg as ->]);
    intros H; vm_compute in H; discriminate.
Qed.

Lemma revert_restores_every_backup_witness :
  exists w',
    main_revert both_targets restorable_install = Some (tt, w') /\
    files w' !! workbench_js = Some sample_text /\
    files w' !! jetski_js = Some sample_text.
Proof.
  destruct (revert_restores_every_backup both_targets restorable_install
              both_targets_apart)
    as (w' & E & Hrest & Hkeep & _).
  exists w'. split; [exact E|]. split.
  - apply (Hrest (TargetFile workbench_js "workbench"));
      [apply list_elem_of_here|vm_compute; reflexivity].
  - change jetski_js with (tpath (TargetFile jetski_js "jetskiAgent")) at 1.
    rewrite Hkeep;
      [vm_compute; reflexivity
      |apply list_elem_of_further, list_elem_of_here
      |vm_compute; reflexivity].
Defined.

(** The [every] of the [apply] case. *)
Lemma every_patch fs : forall w,
  exists b w',
    every (fun f => patchFile (tpath f) (tlabel f)) fs w = Some (b, w') /\
    (forall q, patched_on (files w) q -> patched_on (files w') q) /\
    (b = true -> forall f, f ∈ fs -> patched_on (files w') (tpath f)) /\
    (b = false ->
     exists pre f post,
       fs = pre ++ f :: post /\
       (forall g, g ∈ pre -> patched_on (files w') (tpath g)) /\
       ~ patched_on (files w') (tpath f)).
Proof.
  induction fs as [|f t IH]; intros w.
  - exists true, w. simpl. split; [reflexivity|]. split; [auto|].
    split; [intros _ f Hf; inversion Hf|discriminate].
  - destruct (patchFile_result (tpath f) (tlabel f) w) as (b1 & w1 & E1 & H).
    assert (Hkeep1 : forall q, patched_on (files w) q ->
                               patched_on (files w1) q).
    { intros q. eapply patchFile_keeps_patched, E1. }
    simpl. unfold bind at 1. rewrite E1. destruct b1.
    + assert (Hf : patched_on (files w1) (tpath f)).
      { destruct H as [(Hf & _ & Hb)
                      |(_ & T & l & a & _ & _ & El & _ & Hf & _)];
          rewrite Hf.
        - apply Hb. reflexivity.
        - eexists. rewrite lookup_insert_eq. split; [reflexivity|].
          eapply patched_recognised, El. }
      destruct (IH w1) as (b & w' & E & Hkeep & Hall & Hfail).
      exists b, w'. split; [exact E|]. split; [auto|]. split.
      * intros Hb g Hg. apply elem_of_cons in Hg as [->|Hg]; auto.
      * intros Hb. destruct (Hfail Hb) as (pre & g & post & -> & Hpre & Hg).
        exists (f :: pre), g, post. split; [reflexivity|].
        split; [|exact Hg].
        intros g' Hg'. apply elem_of_cons in Hg' as [->|Hg']; auto.
    + exists false, w1. split; [reflexivity|]. split; [exact Hkeep1|].
      split; [discriminate|]. intros _. exists [], f, t.
      split; [reflexivity|]. split; [intros g Hg; inversion Hg|].
      destruct H as [(Hf & _ & Hb)|(Hb & _)]; [|discriminate].
      rewrite Hf. intros Hp. apply Hb in Hp. discriminate.
Qed.

(** X9.  What the last line of an apply run says about the store, for a
    run of the [apply] case that returns.  When it ends with the line
    [Done], every target passes the already-patched test; when it ends
    with [Some patches failed], the targets before some target [f] pass it
    and [f] does not.  No assumption is made on the targets: a file that
    one run of [patchFile] has patched is not spoilt by a later run on
    another target. *)
Theorem apply_verdict_matches_store fs w w' :
  main_apply fs w = Some (tt, w') ->
  (last (out w') = Some LogDone /\
   forall f, f ∈ fs -> patched_on (files w') (tpath f)) \/
  (last (out w') = Some LogSomeFailed /\
   exists pre f post,
     fs = pre ++ f :: post /\
     (forall g, g ∈ pre -> patched_on (files w') (tpath g)) /\
     ~ patched_on (files w') (tpath f)).
Proof.
  destruct (every_patch fs w) as (b & w1 & E & _ & Hall & Hfail).
  unfold main_apply, bind. rewrite E. unfold log. intros [= <-].
  cbn [files out]. destruct b.
  - left. split; [apply last_snoc|]. apply Hall. reflexivity.
  - right. split; [apply last_snoc|]. apply Hfail. reflexivity.
Qed.

Lemma apply_verdict_matches_store_witness :
  exists w',
    main_apply both_targets drifted_install = Some (tt, w') /\
    last (out w') = Some LogSomeFailed /\
    exists f, f ∈ both_targets /\ ~ patched_on (files w') (tpath f).
Proof.
  destruct (main_apply both_targets drifted_install) as [[[] w']|] eqn:E;
    [|vm_compute in E; discriminate].
  exists w'. split; [reflexivity|].
  assert (Hlast : last (out w') = Some LogSomeFailed).
  { unfold main_apply, both_targets, bind in E. cbn [every tpath tlabel] in E.
    unfold bind in E. rewrite workbench_unrecognised in E.
    injection E as <-. reflexivity. }
  split; [exact Hlast|].
  destruct (apply_verdict_matches_store _ _ _ E)
    as [[Hl _]|(_ & pre & f & post & Efs & _ & Hf)].
  - rewrite Hlast in Hl. discriminate.
  - exists f. split; [|exact Hf]. rewrite Efs.
    apply elem_of_app. right. apply list_elem_of_here.
Defined.

(** * Properties of checkFile *)

Lemma lift_existsSync p s :
  lift (existsSync p) s =
  Some (bool_decide (is_Some (disk s !! p)),
        Process (disk s) (calls s ++ [OpExists p]) (console s)).
Proof.
  unfold lift, existsSync, record. cbn [files trace out map].
  rewrite app_nil_r. reflexivity.
Qed.

Lemma lift_readFileSync p s c :
  disk s !! p = Some c ->
  lift (readFileSync p) s =
  Some (c, Process (disk s) (calls s ++ [OpRead p]) (console s)).
Proof.
  intros E. unfold lift, readFileSync, record. cbn [files trace out].
  rewrite E. cbn [files trace out map]. rewrite app_nil_r. reflexivity.
Qed.

Lemma checkFile_cases p label s :
  checkFile p label s =
  match disk s !! p with
  | None =>
      Some (false, Process (disk s) (calls s ++ [OpExists p])
                           (console s ++ [Noted (CheckNotFound label)]))
  | Some content =>
      let tr := ((calls s ++ [OpExists p]) ++ [OpRead p])
                ++ [OpExists (bak p)] in
      if check_patched content then
        Some (true,
              Process (disk s) tr
                (console s
                 ++ [Noted (CheckPatched label
                              (bool_decide (is_Some (disk s !! bak p))))]))
      else
        match analyzeFile content label with
        | None => None
        | Some (l, r) =>
            Some (false,
                  Process (disk s) tr
                    ((console s ++ map Said l)
                     ++ [Noted (match r with
                                | Some _ => CheckPatchable label
                                | None => CheckIncompatible label
                                end)]))
        end
  end.
Proof.
  unfold checkFile, andThen. rewrite lift_existsSync.
  destruct (disk s !! p) as [content|] eqn:Ep.
  2: { rewrite bool_decide_eq_false_2 by (intros [? ?]; discriminate).
       reflexivity. }
  rewrite bool_decide_eq_true_2 by eauto. cbn [negb].
  rewrite (lift_readFileSync _ _ content) by exact Ep.
  rewrite lift_existsSync. cbn [disk calls console].
  fold (check_patched content).
  destruct (check_patched content); [reflexivity|].
  unfold lift, run_analysis. cbn [disk calls console].
  destruct (analyzeFile content label) as [[l r]|]; [|reflexivity].
  unfold bind, logs, ret. cbn [files trace out app].
  destruct r; reflexivity.
Qed.

(** A text in which the pattern of [patchFile] occurs has an occurrence of
    the shorter pattern of [checkFile]. *)
Lemma occurs_checkRe content :
  occurs existingPatchRe content -> occurs checkRe content.
Proof.
  intros (i & w & c & pre & post & E & Hi & Hm).
  unfold existingPatchRe in Hm.
  apply matches_seq_inv in Hm as (st1 & H1 & Hm).
  apply matches_seq_inv in Hm as (st2 & H2 & Hm).
  apply matches_seq_inv in Hm as (st3 & H3 & Hm).
  apply matches_seq_inv in Hm as (st4 & H4 & Hm).
  apply matches_seq_inv in Hm as (st5 & H5 & _).
  assert (Hc : matches checkRe (MState (last pre) (w ++ post) no_caps) st5).
  { unfold checkRe. repeat (eapply M_Seq; [eassumption|]). exact H5. }
  destruct (matches_rest _ _ _ Hc) as (w' & Er & _). cbn [rest] in Er.
  rewrite Er in Hc. rewrite E, Er.
  exists (length pre), w', (caps st5).
  apply matches_at_intro; [exact Hc|reflexivity].
Qed.

Lemma check_patched_of_patched content :
  already_patched content = true -> check_patched content = true.
Proof.
  unfold already_patched, check_patched. intros H.
  apply andb_prop in H as [Hi Ht]. apply andb_true_intro.
  split; [exact Hi|].
  apply re_test_true. apply occurs_checkRe, occurs_test, Ht.
Qed.

(** X10.  The test of [patchFile] is the stronger of the two.  A text that
    [patchFile] takes for already patched is reported as patched by
    [checkFile]; the converse fails, so [checkFile] can print [PATCHED] for
    a file that [patchFile] would go on to analyse. *)
Theorem apply_test_implies_check_test :
  (forall content,
     already_patched content = true -> check_patched content = true) /\
  (exists content,
     check_patched content = true /\ already_patched content = false).
Proof.
  split; [exact check_patched_of_patched|].
  exists half_patched. split; vm_compute; reflexivity.
Qed.

(** X11.  [checkFile] only looks.  A run of it that returns has left the
    store as it was and has called nothing but the existence tests and the
    read, and its result is [true] exactly when the file exists and passes
    the test. *)
Theorem checkFile_only_reads p label s b s' :
  checkFile p label s = Some (b, s') ->
  disk s' = disk s /\
  (new_calls s s' = [OpExists p] \/
   new_calls s s' = [OpExists p; OpRead p; OpExists (bak p)]) /\
  (b = true <->
   exists content, disk s !! p = Some content /\
                   check_patched content = true).
Proof.
  rewrite checkFile_cases. unfold new_calls.
  destruct (disk s !! p) as [content|] eqn:Ep.
  2: { intros [= <- <-]. cbn [disk calls].
       split; [reflexivity|]. split; [left; apply drop_app_length|].
       split; [discriminate|]. intros (c & Hc & _). discriminate. }
  cbv zeta. destruct (check_patched content) eqn:Ec.
  - intros [= <- <-]. cbn [disk calls].
    split; [reflexivity|].
    split; [right; rewrite <- !app_assoc; apply drop_app_length|].
    split; [eauto|reflexivity].
  - destruct (analyzeFile_total content label) as [[l r] El]. rewrite El.
    intros [= <- <-]. cbn [disk calls].
    split; [reflexivity|].
    split; [right; rewrite <- !app_assoc; apply drop_app_length|].
    split; [discriminate|]. intros (c & [= <-] & Hc). congruence.
Qed.

Lemma checkFile_only_reads_witness :
  exists s',
    checkFile workbench_js "workbench" linux_install = Some (false, s') /\
    disk s' = disk linux_install /\
    new_calls linux_install s'
    = [OpExists workbench_js; OpRead workbench_js;
       OpExists (bak workbench_js)].
Proof.
  destruct (checkFile workbench_js "workbench" linux_install)
    as [[b s']|] eqn:E; [|vm_compute in E; discriminate].
  assert (Hb : b = false) by (vm_compute in E; congruence). subst b.
  destruct (checkFile_only_reads _ _ _ _ _ E) as (Hd & [Hc|Hc] & _).
  - exfalso. vm_compute in E. injection E as <-.
    vm_compute in Hc. discriminate.
  - exists s'. auto.
Defined.

(** X12.  After an apply that returned [true], [checkFile] on the same
    path returns [true] and prints the line [PATCHED]; the line mentions
    the backup exactly when there is one. *)
Theorem check_confirms_apply p label s s1 :
  lift (patchFile p label) s = Some (true, s1) ->
  exists hasBak s2,
    checkFile p label s1 = Some (true, s2) /\
    disk s2 = disk s1 /\
    last (console s2) = Some (Noted (CheckPatched label hasBak)) /\
    (hasBak = true <-> is_Some (disk s1 !! bak p)).
Proof.
  unfold lift. intros H.
  destruct (patchFile_result p label (World (disk s) (calls s) []))
    as (b & w' & E & Hres).
  rewrite E in H. injection H as -> <-.
  assert (Hp : patched_on (files w') p).
  { destruct Hres as [(Hf & _ & Hb)
                     |(_ & T & l & a & _ & _ & El & _ & Hf & _)];
      rewrite Hf.
    - apply Hb. reflexivity.
    - eexists. rewrite lookup_insert_eq. split; [reflexivity|].
      eapply patched_recognised, El. }
  destruct Hp as (c & Hc & Hpat).
  rewrite checkFile_cases. cbn [disk calls console].
  rewrite Hc. cbv zeta. rewrite (check_patched_of_patched _ Hpat).
  do 2 eexists. split; [reflexivity|]. cbn [disk console].
  split; [reflexivity|]. split; [apply last_snoc|].
  apply bool_decide_eq_true.
Qed.

Lemma check_confirms_apply_witness :
  exists s1 s2,
    lift (patchFile "main.js" "workbench")
         (Process (files sample_world) [] []) = Some (true, s1) /\
    checkFile "main.js" "workbench" s1 = Some (true, s2) /\
    last (console s2) = Some (Noted (CheckPatched "workbench" true)).
Proof.
  destruct (lift (patchFile "main.js" "workbench")
              (Process (files sample_world) [] [])) as [[b s1]|] eqn:E;
    [|vm_compute in E; discriminate].
  assert (Hb : b = true) by (vm_compute in E; congruence). subst b.
  destruct (check_confirms_apply "main.js" "workbench" _ s1 E)
    as (hasBak & s2 & Ec & _ & Hl & Hb).
  assert (hasBak = true) as ->.
  { apply Hb. vm_compute in E. injection E as <-. vm_compute. eauto. }
  exists s1, s2. auto.
Defined.

(** X13.  What [checkFile] prints for an unpatched file foretells apply on
    the same store.  After [may be incompatible], [patchFile] returns
    [false] and changes nothing; after [patchable], [patchFile] returns
    [true] exactly when the matched text occurs once, so a file reported
    as patchable is still refused when its handler occurs twice. *)
Theorem check_verdict_foretells_apply p label s b s' :
  checkFile p label s = Some (b, s') ->
  (last (console s') = Some (Noted (CheckIncompatible label)) ->
   exists s1, lift (patchFile p label) s = Some (false, s1) /\
              disk s1 = disk s) /\
  (last (console s') = Some (Noted (CheckPatchable label)) ->
   exists T m b1 s1,
     disk s !! p = Some T /\ re_match onChangeRe T = Some m /\
     lift (patchFile p label) s = Some (b1, s1) /\
     (b1 = true <-> count_of T (mtext m) = 1%Z)).
Proof.
  rewrite checkFile_cases. unfold lift. rewrite patchFile_cases.
  cbn [files trace out].
  destruct (disk s !! p) as [content|] eqn:Ep.
  2: { intros [= <- <-]. cbn [console]. rewrite last_snoc.
       split; intros [=]. }
  cbv zeta. destruct (check_patched content) eqn:Ec.
  { intros [= <- <-]. cbn [console]. rewrite last_snoc. split; intros [=]. }
  assert (Ea : already_patched content = false).
  { destruct (already_patched content) eqn:Ea; [|reflexivity].
    apply check_patched_of_patched in Ea. congruence. }
  rewrite Ea.
  destruct (analyzeFile content label) as [[l [a|]]|] eqn:El; [| |discriminate];
    intros [= <- <-]; cbn [console]; rewrite last_snoc.
  - split; [intros [=]|]. intros _.
    pose proof El as Hs. apply analyzeFile_success in Hs as (sy & He & ->).
    apply extract_tokens in He as (_ & m & Hm & Hfm & _).
    change (target (build sy label)) with (fullMatch sy). rewrite Hfm.
    exists content, m.
    destruct (bool_decide (count_of content (mtext m) <> 1%Z)) eqn:Ecount.
    + do 2 eexists. split; [reflexivity|]. split; [exact Hm|].
      split; [reflexivity|]. apply bool_decide_eq_true in Ecount.
      split; [discriminate|]. intros H. contradiction.
    + apply bool_decide_eq_false in Ecount.
      destruct (disk s !! bak p); do 2 eexists;
        (split; [reflexivity|]); (split; [exact Hm|]);
        (split; [reflexivity|]);
        (split; [intros _|reflexivity]);
        (destruct (decide (count_of content (mtext m) = 1%Z));
           [assumption|contradiction]).
  - split; [|intros [=]]. intros _.
    eexists. split; [reflexivity|]. reflexivity.
Qed.

Lemma check_verdict_foretells_apply_witness :
  exists s' T m b1 s1,
    checkFile "main.js" "workbench" (Process (files twice_world) [] [])
    = Some (false, s') /\
    last (console s') = Some (Noted (CheckPatchable "workbench")) /\
    disk (Process (files twice_world) [] []) !! "main.js" = Some T /\
    re_match onChangeRe T = Some m /\
    lift (patchFile "main.js" "workbench") (Process (files twice_world) [] [])
    = Some (b1, s1) /\
    (b1 = true <-> count_of T (mtext m) = 1%Z).
Proof.
  destruct (checkFile "main.js" "workbench"
              (Process (files twice_world) [] [])) as [[b s']|] eqn:E;
    [|vm_compute in E; discriminate].
  assert (Hb : b = false) by (vm_compute in E; congruence). subst b.
  assert (Hl : last (console s') = Some (Noted (CheckPatchable "workbench"))).
  { vm_compute in E. injection E as <-. reflexivity. }
  destruct (check_verdict_foretells_apply "main.js" "workbench" _ false s' E)
    as [_ H].
  destruct (H Hl) as (T & m & b1 & s1 & H1 & H2 & H3 & H4).
  exists s', T, m, b1, s1. auto 10.
Defined.

(** * Properties of the detection of the installation *)

Lemma quiet_refl P w : quiet P w w.
Proof.
  split; [reflexivity|]. split; [reflexivity|].
  exists []. rewrite app_nil_r. split; [reflexivity|constructor].
Qed.

Lemma quiet_trans P w1 w2 w3 :
  quiet P w1 w2 -> quiet P w2 w3 -> quiet P w1 w3.
Proof.
  intros (F1 & O1 & tr1 & T1 & H1) (F2 & O2 & tr2 & T2 & H2).
  split; [congruence|]. split; [congruence|].
  exists (tr1 ++ tr2). split; [rewrite T2, T1, app_assoc; reflexivity|].
  apply Forall_app. auto.
Qed.

Lemma quiet_impl (P Q : fsop -> Prop) w w' :
  (forall o, P o -> Q o) -> quiet P w w' -> quiet Q w w'.
Proof.
  intros HPQ (F & O & tr & T & H). split; [exact F|]. split; [exact O|].
  exists tr. split; [exact T|]. eapply Forall_impl; eauto.
Qed.

Lemma quiet_existsSync p w :
  quiet is_exists w (record (OpExists p) w).
Proof.
  split; [reflexivity|]. split; [reflexivity|].
  exists [OpExists p]. split; [reflexivity|]. constructor; [exact I|constructor].
Qed.

Lemma isAntigravityDir_run h dir w b w' :
  isAntigravityDir h dir w = Some (b, w') ->
  quiet is_exists w w' /\
  b = truthy dir && bool_decide (is_Some (files w !! workbench_of h dir)).
Proof.
  unfold isAntigravityDir. destruct (truthy dir); cbn [negb andb].
  - unfold existsSync. intros [= <- <-].
    split; [apply quiet_existsSync|reflexivity].
  - unfold ret. intros [= <- <-]. split; [apply quiet_refl|reflexivity].
Qed.


Lemma looksLikeAntigravityRoot_run h dir w b w' :
  looksLikeAntigravityRoot h dir w = Some (b, w') -> quiet is_exists w w'.
Proof.
  unfold looksLikeAntigravityRoot. destruct (truthy dir); cbn [negb].
  - unfold existsSync. intros [= <- <-]. apply quiet_existsSync.
  - unfold ret. intros [= <- <-]. apply quiet_refl.
Qed.


Lemma finds_ret_None h : finds h (ret None).
Proof.
  intros w o w' [= <- <-]. split; [apply quiet_refl|]. intros d [=].
Qed.

(** A validated directory, or the rest of the search. *)
Lemma finds_validated h dir (rest : io (option string)) :
  finds h rest ->
  finds h (ok <- isAntigravityDir h dir;
           if ok then ret (Some dir) else rest).
Proof.
  intros Hrest w o w'. unfold bind.
  destruct (isAntigravityDir h dir w) as [[b w1]|] eqn:E; [|discriminate].
  apply isAntigravityDir_run in E as [Hq Hb].
  destruct b.
  - unfold ret. intros [= <- <-]. split; [exact Hq|].
    intros d [= <-]. symmetry in Hb. apply andb_prop in Hb as [Ht He].
    split; [exact Ht|]. apply bool_decide_eq_true in He. exact He.
  - intros Hr. apply Hrest in Hr as [Hq' Hv].
    split; [eapply quiet_trans; eassumption|].
    destruct Hq as (Hf & _). rewrite <- Hf. exact Hv.
Qed.

Lemma finds_after_test h p (k : bool -> io (option string)) :
  (forall b, finds h (k b)) ->
  finds h (b <- existsSync p; k b).
Proof.
  intros Hk w o w'. unfold bind, existsSync.
  intros Hr. apply Hk in Hr as [Hq Hv].
  split; [eapply quiet_trans; [apply quiet_existsSync|exact Hq]|].
  exact Hv.
Qed.

Lemma finds_scan_registry h keys : finds h (scan_registry h keys).
Proof.
  induction keys as [|k keys IH]; [apply finds_ret_None|].
  simpl. destruct (installLocation h k) as [dir|]; [|exact IH].
  apply finds_validated, IH.
Qed.

Lemma finds_findFromRegistry h : finds h (findFromRegistry h).
Proof.
  unfold findFromRegistry.
  destruct (bool_decide (platform h <> "win32"));
    [apply finds_ret_None|apply finds_scan_registry].
Qed.

Lemma finds_scan_path h dirs : finds h (scan_path h dirs).
Proof.
  induction dirs as [|dir dirs IH]; [apply finds_ret_None|].
  simpl. destruct (truthy dir); cbn [negb]; [|exact IH].
  apply finds_after_test. intros [|]; [|exact IH].
  apply finds_validated, finds_validated, IH.
Qed.

Lemma finds_first_valid h cs : finds h (first_valid h cs).
Proof.
  induction cs as [|c cs IH]; [apply finds_ret_None|].
  simpl. apply finds_validated, IH.
Qed.

Lemma finds_climb h fuel : forall dir, finds h (climb h fuel dir).
Proof.
  induction fuel as [|fuel IH]; intros dir w o w'; simpl;
    destruct (truthy dir && bool_decide (dir <> cwd_root h)) eqn:Eg;
    try discriminate; try (apply finds_ret_None).
  unfold bind at 1.
  destruct (looksLikeAntigravityRoot h dir w) as [[looks w1]|] eqn:El;
    [|discriminate].
  apply looksLikeAntigravityRoot_run in El.
  unfold bind at 1.
  assert (Hstep : forall b w2,
            quiet is_exists w w2 ->
            (b = true -> truthy dir = true /\
                         is_Some (files w !! workbench_of h dir)) ->
            (if b then ret (Some dir) else climb h fuel (path_dirname h dir))
              w2 = Some (o, w') ->
            quiet is_exists w w' /\
            (forall d, o = Some d ->
               truthy d = true /\ is_Some (files w !! workbench_of h d))).
  { intros b w2 Hq Hb. destruct b.
    - unfold ret. intros [= <- <-]. split; [exact Hq|].
      intros d [= <-]. apply Hb. reflexivity.
    - intros Hr. apply IH in Hr as [Hq' Hv].
      split; [eapply quiet_trans; eassumption|].
      destruct Hq as (Hf & _). rewrite <- Hf. exact Hv. }
  destruct looks.
  - destruct (isAntigravityDir h dir w1) as [[b w2]|] eqn:Ea; [|discriminate].
    apply isAntigravityDir_run in Ea as [Hq Hb].
    apply Hstep; [eapply quiet_trans; eassumption|].
    intros ->. symmetry in Hb. apply andb_prop in Hb as [Ht He].
    split; [exact Ht|]. apply bool_decide_eq_true in He.
    destruct El as (Hf & _). rewrite <- Hf. exact He.
  - unfold ret at 1. apply (Hstep false); [exact El|discriminate].
Qed.

Lemma finds_findAntigravityPath h fuel : finds h (findAntigravityPath h fuel).
Proof.
  intros w o w'. unfold findAntigravityPath. unfold bind at 1.
  destruct (climb h fuel (cwd h) w) as [[fromCwd w1]|] eqn:Ec; [|discriminate].
  apply finds_climb in Ec as [Hq1 Hv1].
  destruct fromCwd as [dir|].
  { unfold ret. intros [= <- <-]. split; [exact Hq1|exact Hv1]. }
  unfold bind at 1.
  destruct (findFromPath h w1) as [[fromPath w2]|] eqn:Ep; [|discriminate].
  apply finds_scan_path in Ep as [Hq2 Hv2].
  pose proof (quiet_trans _ _ _ _ Hq1 Hq2) as Hq12.
  assert (Hf1 : files w1 = files w) by apply Hq1.
  rewrite Hf1 in Hv2.
  destruct (found fromPath).
  { unfold ret. intros [= <- <-]. split; [exact Hq12|exact Hv2]. }
  unfold bind at 1.
  destruct (findFromRegistry h w2) as [[fromReg w3]|] eqn:Er; [|discriminate].
  apply finds_findFromRegistry in Er as [Hq3 Hv3].
  pose proof (quiet_trans _ _ _ _ Hq12 Hq3) as Hq13.
  assert (Hf2 : files w2 = files w) by apply Hq12.
  rewrite Hf2 in Hv3.
  destruct (found fromReg).
  { unfold ret. intros [= <- <-]. split; [exact Hq13|exact Hv3]. }
  intros Hr. apply finds_first_valid in Hr as [Hq4 Hv4].
  split; [eapply quiet_trans; eassumption|].
  assert (Hf3 : files w3 = files w) by apply Hq13.
  rewrite Hf3 in Hv4. exact Hv4.
Qed.

(** X14.  Every way of locating the installation validates what it
    returns.  Whatever the host (platform, environment, registry, [path]
    functions), when [findAntigravityPath] returns a directory, that
    directory is not the empty string and the workbench bundle exists under
    it; and the search has changed no file, printed nothing, and called
    nothing but [existsSync]. *)
Theorem findAntigravityPath_validates h fuel w o w' :
  findAntigravityPath h fuel w = Some (o, w') ->
  files w' = files w /\ out w' = out w /\
  Forall is_exists (new_trace w w') /\
  (forall d, o = Some d ->
     d <> "" /\ is_Some (files w !! workbench_of h d)).
Proof.
  intros H. apply finds_findAntigravityPath in H
    as [(Hf & Ho & tr & Ht & Htr) Hv].
  split; [exact Hf|]. split; [exact Ho|]. split.
  - unfold new_trace. rewrite Ht, drop_app_length. exact Htr.
  - intros d Hd. destruct (Hv d Hd) as [Htruthy Hw]. split; [|exact Hw].
    unfold truthy in Htruthy. apply bool_decide_eq_true in Htruthy.
    exact Htruthy.
Qed.

Lemma findAntigravityPath_validates_witness :
  exists w',
    findAntigravityPath linux 5
      (World (disk linux_install) [] []) =
    Some (Some "/opt/antigravity", w') /\
    files w' = disk linux_install /\
    Forall is_exists (new_trace (World (disk linux_install) [] []) w') /\
    is_Some (disk linux_install !! workbench_of linux "/opt/antigravity").
Proof.
  destruct (findAntigravityPath linux 5 (World (disk linux_install) [] []))
    as [[o w']|] eqn:E; [|vm_compute in E; discriminate].
  assert (Ho : o = Some "/opt/antigravity")
    by (vm_compute in E; congruence).
  subst o.
  destruct (findAntigravityPath_validates linux 5 _ _ w' E)
    as (Hf & _ & Ht & Hv).
  exists w'. split; [reflexivity|]. split; [exact Hf|]. split; [exact Ht|].
  apply (Hv "/opt/antigravity"). reflexivity.
Defined.

(** ** Totality *)






(** * Properties of main *)

Lemma lift_inv {A} (m : io A) s a s' :
  lift m s = Some (a, s') ->
  exists w',
    m (World (disk s) (calls s) []) = Some (a, w') /\
    s' = Process (files w') (trace w') (console s ++ map Said (out w')).
Proof.
  unfold lift. destruct (m (World (disk s) (calls s) [])) as [[a0 w']|];
    [|discriminate].
  intros [= <- <-]. eauto.
Qed.

Lemma lift_quiet {A} P (m : io A) s a s' :
  (forall w a w', m w = Some (a, w') -> quiet P w w') ->
  lift m s = Some (a, s') ->
  exists tr,
    Forall P tr /\ s' = Process (disk s) (calls s ++ tr) (console s) /\
    m (World (disk s) (calls s) []) =
    Some (a, World (disk s) (calls s ++ tr) []).
Proof.
  intros Hq H. apply lift_inv in H as (w' & E & ->).
  destruct (Hq _ _ _ E) as (Hf & Ho & tr & Ht & Htr).
  destruct w' as [f t o]. cbn [files trace out] in *. subst.
  exists tr. split; [exact Htr|]. cbn [map]. rewrite app_nil_r.
  split; [reflexivity|exact E].
Qed.

Lemma getVersion_run h base w :
  exists v tr,
    getVersion h base w = Some (v, World (files w) (trace w ++ tr) (out w)) /\
    Forall is_query tr /\
    (parsed h (files w !! package_json h base) = None ->
     v = "unknown" /\ tr = [OpRead (package_json h base)]) /\
    (forall t1,
       parsed h (files w !! package_json h base) = Some t1 ->
       tr = [OpRead (package_json h base); OpRead (product_json h base)] /\
       v = match parsed h (files w !! product_json h base) with
           | Some t2 => default "unknown" (version_line h t1 t2)
           | None => "unknown"
           end).
Proof.
  unfold getVersion, bind, tryReadFileSync, ret.
  set (pkg := package_json h base).
  set (prod := product_json h base).
  destruct (parsed h (files w !! pkg)) as [t1|] eqn:E1.
  2: { exists "unknown", [OpRead pkg]. split; [reflexivity|].
       split; [repeat constructor|]. split; [auto|]. discriminate. }
  unfold record. cbn [files trace out].
  assert (Hq : Forall is_query [OpRead pkg; OpRead prod])
    by (repeat constructor).
  destruct (parsed h (files w !! prod)) as [t2|] eqn:E2.
  2: { exists "unknown", [OpRead pkg; OpRead prod].
       rewrite <- app_assoc. split; [reflexivity|]. split; [exact Hq|].
       split; [discriminate|]. intros t [= <-]. auto. }
  destruct (version_line h t1 t2) as [v|] eqn:Ev;
    [exists v|exists "unknown"]; exists [OpRead pkg; OpRead prod];
    rewrite <- app_assoc; (split; [reflexivity|]); (split; [exact Hq|]);
    (split; [discriminate|]); intros t [= <-]; rewrite Ev; auto.
Qed.

Lemma lift_getVersion h base s :
  exists v tr,
    lift (getVersion h base) s =
    Some (v, Process (disk s) (calls s ++ tr) (console s)) /\
    Forall is_query tr.
Proof.
  destruct (getVersion_run h base (World (disk s) (calls s) []))
    as (v & tr & E & Htr & _).
  exists v, tr. unfold lift. rewrite E. cbn [files trace out map].
  rewrite app_nil_r. split; [reflexivity|exact Htr].
Qed.

Lemma say_all_run ns s :
  say_all ns s =
  Some (tt, Process (disk s) (calls s) (console s ++ map Noted ns)).
Proof. reflexivity. Qed.

(** X24.  [getVersion] never throws and never writes.  It always calls
    [readFileSync] on package.json.  When that call throws or the text
    does not parse, this is its only call and the version is [unknown]:
    product.json is not read.  When package.json has parsed, it reads
    product.json next and nothing else; the version is [unknown] when that
    call throws, the text does not parse or the template cannot be
    evaluated, and the line made from the two texts otherwise. *)
Theorem getVersion_never_throws h base w :
  exists v w',
    getVersion h base w = Some (v, w') /\
    files w' = files w /\ out w' = out w /\
    (parsed h (files w !! package_json h base) = None ->
     v = "unknown" /\ new_trace w w' = [OpRead (package_json h base)]) /\
    (forall t1,
       parsed h (files w !! package_json h base) = Some t1 ->
       new_trace w w' =
         [OpRead (package_json h base); OpRead (product_json h base)] /\
       v = match parsed h (files w !! product_json h base) with
           | Some t2 => default "unknown" (version_line h t1 t2)
           | None => "unknown"
           end).
Proof.
  destruct (getVersion_run h base w) as (v & tr & E & _ & Hnone & Hsome).
  exists v. eexists. split; [exact E|]. cbn [files out].
  split; [reflexivity|]. split; [reflexivity|].
  rewrite new_trace_app. split; [exact Hnone|exact Hsome].
Qed.

(** The two ways [main] can end: with status 1 before anything is read, or
    through the [switch] on the targets of a validated directory. *)
Lemma main_run h fuel args s code s' :
  main h fuel args s = Some (code, s') ->
  exists tr,
    Forall is_exists tr /\
    ((code = 1%Z /\
      exists ls,
        s' = Process (disk s) (calls s ++ tr)
                     (console s ++ map Noted (banner ++ ls)) /\
        (ls = not_installed \/
         exists e, ls = [BadPath e; ExpectedToFind])) \/
     (code = 0%Z /\
      exists base v tr2 s1,
        truthy base = true /\
        is_Some (disk s !! workbench_of h base) /\
        Forall is_query tr2 /\
        main_switch (action_of args) (targets h base)
          (Process (disk s) ((calls s ++ tr) ++ tr2)
             (console s
              ++ map Noted (banner ++ [Location base; Version v; Blank])))
        = Some (tt, s1) /\
        s' = s1)).
Proof.
  unfold main. cbv zeta. unfold andThen at 1. rewrite say_all_run.
  assert (Hfrom : forall o tr,
    Forall is_exists tr ->
    (forall d, o = Some d ->
       truthy d = true /\ is_Some (disk s !! workbench_of h d)) ->
    main_from h (action_of args) o
      (Process (disk s) (calls s ++ tr) (console s ++ map Noted banner))
    = Some (code, s') ->
    exists tr,
      Forall is_exists tr /\
      ((code = 1%Z /\
        exists ls,
          s' = Process (disk s) (calls s ++ tr)
                       (console s ++ map Noted (banner ++ ls)) /\
          (ls = not_installed \/
           exists e, ls = [BadPath e; ExpectedToFind])) \/
       (code = 0%Z /\
        exists base v tr2 s1,
          truthy base = true /\
          is_Some (disk s !! workbench_of h base) /\
          Forall is_query tr2 /\
          main_switch (action_of args) (targets h base)
            (Process (disk s) ((calls s ++ tr) ++ tr2)
               (console s
                ++ map Noted (banner ++ [Location base; Version v; Blank])))
          = Some (tt, s1) /\
          s' = s1))).
  { intros o tr Htr Hv. unfold main_from.
    destruct (found o) eqn:Ef; cbn [negb].
    - destruct o as [base|]; [|discriminate]. cbn [or_empty].
      destruct (Hv base eq_refl) as [Ht Hw].
      unfold main_on. unfold andThen at 1. unfold say at 1.
      cbn [disk calls console]. unfold andThen at 1.
      match goal with
      | |- context [lift (getVersion h base) ?s0] =>
          destruct (lift_getVersion h base s0) as (v & tr2 & -> & Htr2)
      end.
      cbn [disk calls console]. unfold andThen at 1, say at 1.
      cbn [disk calls console]. unfold andThen at 1, say at 1.
      cbn [disk calls console]. unfold andThen at 1.
      rewrite <- !app_assoc. cbn [app].
      replace (console s ++ map Noted banner
               ++ Noted (Location base) :: Noted (Version v) :: [Noted Blank])
        with (console s
              ++ map Noted (banner ++ [Location base; Version v; Blank]))
        by reflexivity.
      rewrite (app_assoc (calls s) tr tr2).
      destruct (main_switch _ _ _) as [[[] s1]|] eqn:Es; [|discriminate].
      unfold done. intros [= <- <-].
      exists tr. split; [exact Htr|]. right. split; [reflexivity|].
      exists base, v, tr2, s1. auto.
    - unfold andThen, say_all, done. cbn [disk calls console].
      intros [= <- <-]. exists tr. split; [exact Htr|]. left.
      split; [reflexivity|]. exists not_installed.
      rewrite map_app, app_assoc. split; [reflexivity|]. left. reflexivity. }
  cbn [disk calls console].
  destruct (found (explicitPath h args)) eqn:Ef.
  - destruct (explicitPath h args) as [e|]; [|discriminate].
    cbn [or_empty]. unfold andThen at 1.
    destruct (lift (isAntigravityDir h e) _) as [[valid s1]|] eqn:El;
      [|discriminate].
    pose proof El as El'.
    apply (lift_quiet is_exists) in El as (tr & Htr & -> & Erun).
    2: { intros w a w' H. apply isAntigravityDir_run in H. apply H. }
    apply isAntigravityDir_run in Erun as [_ Hvalid].
    cbn [files disk calls console] in *.
    destruct valid; cbn [negb].
    + apply Hfrom; [exact Htr|]. intros d [= <-].
      symmetry in Hvalid. apply andb_prop in Hvalid as [Ht He].
      split; [exact Ht|]. apply bool_decide_eq_true in He. exact He.
    + unfold andThen, say_all, done. cbn [disk calls console].
      intros [= <- <-]. exists tr. split; [exact Htr|]. left.
      split; [reflexivity|]. exists [BadPath e; ExpectedToFind].
      rewrite map_app, app_assoc. split; [reflexivity|]. right. eauto.
  - unfold andThen at 1.
    destruct (lift (findAntigravityPath h fuel) _) as [[o s1]|] eqn:El;
      [|discriminate].
    apply (lift_quiet is_exists) in El as (tr & Htr & -> & Erun).
    2: { intros w a w' H. apply finds_findAntigravityPath in H. apply H. }
    apply finds_findAntigravityPath in Erun as [_ Hv].
    cbn [files disk calls console] in *.
    apply Hfrom; [exact Htr|exact Hv].
Qed.

(** X15.  [main] calls [process.exit(1)] in two places: after the two
    lines that refuse a [--path], and after the lines that report that no
    installation was found.  A run that [main] ends there has read and
    written nothing: the store is as before, every call was an existence
    test, and the lines printed are the banner and that report.  A run
    that [main] carries to its end has status 0.  (A run that an exception
    of [fs] ends is not a run that [main] ends: it has no result here,
    whatever status the process then reports.) *)
Theorem main_status_one_touches_nothing h fuel args s code s' :
  main h fuel args s = Some (code, s') ->
  (code = 0%Z \/ code = 1%Z) /\
  (code = 1%Z ->
   disk s' = disk s /\
   Forall is_exists (new_calls s s') /\
   (new_lines s s' = map Noted (banner ++ not_installed) \/
    exists e,
      new_lines s s' = map Noted (banner ++ [BadPath e; ExpectedToFind]))).
Proof.
  intros H.
  apply main_run in H as (tr & Htr & [(-> & ls & -> & Hls)|(-> & _)]).
  - split; [auto|]. intros _. cbn [disk]. split; [reflexivity|].
    unfold new_calls, new_lines. cbn [calls console].
    rewrite !drop_app_length. split; [exact Htr|].
    destruct Hls as [->|(e & ->)]; [left; reflexivity|right; eauto].
  - split; [auto|]. discriminate.
Qed.

Lemma main_status_one_touches_nothing_witness :
  exists s',
    main linux 5 ["--check"] nothing_installed = Some (1%Z, s') /\
    disk s' = disk nothing_installed /\
    Forall is_exists (new_calls nothing_installed s').
Proof.
  destruct (main linux 5 ["--check"] nothing_installed) as [[code s']|] eqn:E;
    [|vm_compute in E; discriminate].
  assert (Hc : code = 1%Z) by (vm_compute in E; congruence). subst code.
  destruct (main_status_one_touches_nothing linux 5 _ _ _ s' E) as [_ H].
  destruct (H eq_refl) as (Hd & Hc & _).
  exists s'. auto.
Defined.

(** ** The lines and calls of the three actions *)

Lemma analyzeFile_no_notfound content label log r lab q :
  analyzeFile content label = Some (log, r) -> LogFileNotFound lab q ∉ log.
Proof.
  rewrite analyzeFile_cases, extract_cases.
  destruct (re_match onChangeRe content) as [m|].
  2: { intros [= <- _] Hin. apply list_elem_of_singleton in Hin. discriminate. }
  cbv zeta.
  destruct (re_match (policyRe (group m 4)) _) as [pm|];
    [destruct (re_match secureRe _) as [sm|];
       [destruct (select_amended _ _ _)|]|];
    intros [= <- _] Hin;
    repeat (apply elem_of_app in Hin as [Hin|Hin]);
    repeat (apply elem_of_cons in Hin as [Hin|Hin]; [discriminate|]);
    apply elem_of_nil in Hin; contradiction.
Qed.

(** A line that reports the target [label] as missing. *)
Lemma patchFile_lines p label w b w' :
  patchFile p label w = Some (b, w') ->
  exists ls,
    out w' = out w ++ ls /\
    forall lab q, LogFileNotFound lab q ∈ ls ->
                  lab = label /\ files w !! p = None.
Proof.
  rewrite patchFile_cases.
  destruct (files w !! p) as [content|] eqn:Ep.
  2: { intros [= <- <-]. eexists. cbn [out]. split; [reflexivity|].
       intros lab q Hin. apply list_elem_of_singleton in Hin.
       injection Hin as -> ->. auto. }
  cbv zeta.
  destruct (already_patched content).
  { intros [= <- <-]. eexists. cbn [out]. split; [reflexivity|].
    intros lab q Hin. apply list_elem_of_singleton in Hin. discriminate. }
  destruct (analyzeFile content label) as [[l [a|]]|] eqn:El; [| |discriminate].
  2: { intros [= <- <-]. exists l. cbn [out]. split; [reflexivity|].
       intros lab q Hin. destruct (analyzeFile_no_notfound _ _ _ _ _ _ El Hin). }
  destruct (bool_decide (count_of content (target a) <> 1%Z)).
  { intros [= <- <-]. eexists. cbn [out]. rewrite <- app_assoc.
    split; [reflexivity|]. intros lab q Hin. exfalso.
    apply elem_of_app in Hin as [Hin|Hin].
    - destruct (analyzeFile_no_notfound _ _ _ _ _ _ El Hin).
    - apply list_elem_of_singleton in Hin. discriminate. }
  destruct (files w !! bak p); intros [= <- <-]; eexists; cbn [out];
    rewrite <- !app_assoc; (split; [reflexivity|]);
    intros lab q Hin; exfalso;
    (apply elem_of_app in Hin as [Hin|Hin];
     [destruct (analyzeFile_no_notfound _ _ _ _ _ _ El Hin)|]);
    repeat (apply elem_of_cons in Hin as [Hin|Hin]; [discriminate|]);
    apply elem_of_nil in Hin; contradiction.
Qed.

Lemma checkFile_lines p label s b s' :
  checkFile p label s = Some (b, s') ->
  disk s' = disk s /\
  (exists tr, calls s' = calls s ++ tr /\ Forall is_query tr) /\
  exists ls,
    console s' = console s ++ ls /\
    (forall lab q, Said (LogFileNotFound lab q) ∉ ls) /\
    (forall lab, Noted (CheckNotFound lab) ∈ ls ->
                 lab = label /\ disk s !! p = None).
Proof.
  rewrite checkFile_cases.
  destruct (disk s !! p) as [content|] eqn:Ep.
  2: { intros [= <- <-]. cbn [disk calls console]. split; [reflexivity|].
       split; [exists [OpExists p]; split; [reflexivity|repeat constructor]|].
       eexists. split; [reflexivity|]. split.
       - intros lab q Hin. apply list_elem_of_singleton in Hin. discriminate.
       - intros lab Hin. apply list_elem_of_singleton in Hin.
         injection Hin as ->. auto. }
  cbv zeta.
  assert (Hq : exists tr,
            ((calls s ++ [OpExists p]) ++ [OpRead p]) ++ [OpExists (bak p)]
            = calls s ++ tr /\ Forall is_query tr).
  { exists [OpExists p; OpRead p; OpExists (bak p)].
    rewrite <- !app_assoc. split; [reflexivity|repeat constructor]. }
  destruct (check_patched content).
  { intros [= <- <-]. cbn [disk calls console]. split; [reflexivity|].
    split; [exact Hq|]. eexists. split; [reflexivity|]. split.
    - intros lab q Hin. apply list_elem_of_singleton in Hin. discriminate.
    - intros lab Hin. apply list_elem_of_singleton in Hin. discriminate. }
  destruct (analyzeFile content label) as [[l r]|] eqn:El; [|discriminate].
  intros [= <- <-]. cbn [disk calls console]. split; [reflexivity|].
  split; [exact Hq|]. eexists. rewrite <- app_assoc.
  split; [reflexivity|]. split.
  - intros lab q Hin. apply elem_of_app in Hin as [Hin|Hin].
    + apply list_elem_of_In, in_map_iff in Hin as (m & [= ->] & Hm).
      apply list_elem_of_In in Hm.
      destruct (analyzeFile_no_notfound _ _ _ _ _ _ El Hm).
    + apply list_elem_of_singleton in Hin. discriminate.
  - intros lab Hin. exfalso. apply elem_of_app in Hin as [Hin|Hin].
    + apply list_elem_of_In, in_map_iff in Hin as (m & [=] & _).
    + apply list_elem_of_singleton in Hin. destruct r; discriminate.
Qed.

Lemma checkFile_total p label s : is_Some (checkFile p label s).
Proof.
  rewrite checkFile_cases. destruct (disk s !! p) as [content|]; [|eauto].
  cbv zeta. destruct (check_patched content); [eauto|].
  destruct (analyzeFile_total content label) as [[l r] ->]. eauto.
Qed.

(** The [check] case: the store is unchanged and every call is a query. *)
Lemma forEach_check fs : forall s,
  exists s',
    forEach_ (fun f => checkFile (tpath f) (tlabel f)) fs s = Some (tt, s') /\
    disk s' = disk s /\
    exists tr, calls s' = calls s ++ tr /\ Forall is_query tr.
Proof.
  induction fs as [|f t IH]; intros s.
  - exists s. split; [reflexivity|]. split; [reflexivity|].
    exists []. rewrite app_nil_r. split; [reflexivity|constructor].
  - simpl. unfold andThen at 1.
    destruct (checkFile_total (tpath f) (tlabel f) s) as [[b s1] E].
    rewrite E. apply checkFile_lines in E as (Hd & (tr1 & Hc1 & Hq1) & _).
    destruct (IH s1) as (s' & E' & Hd' & tr2 & Hc2 & Hq2).
    exists s'. split; [exact E'|]. split; [congruence|].
    exists (tr1 ++ tr2). rewrite Hc2, Hc1, app_assoc.
    split; [reflexivity|]. apply Forall_app. auto.
Qed.

(** The [revert] case: every call is an existence test or a copy from a
    backup to its file, and no line reports a missing file. *)
Lemma forEach_revert_run fs : forall w,
  exists w' tr ls,
    forEach (fun f => revertFile (tpath f) (tlabel f)) fs w = Some (tt, w') /\
    trace w' = trace w ++ tr /\ Forall is_undo tr /\
    out w' = out w ++ ls /\
    forall lab q, LogFileNotFound lab q ∉ ls.
Proof.
  induction fs as [|f t IH]; intros w.
  - exists w, [], []. rewrite !app_nil_r. split; [reflexivity|].
    split; [reflexivity|]. split; [constructor|]. split; [reflexivity|].
    intros lab q Hin. inversion Hin.
  - simpl. unfold bind at 1.
    destruct (files w !! bak (tpath f)) as [bk|] eqn:Eb.
    + rewrite (revertFile_with_backup _ _ _ _ Eb).
      match goal with
      | |- context [forEach _ t ?w1] =>
          destruct (IH w1) as (w' & tr & ls & E & Ht & Hu & Ho & Hl)
      end.
      cbn [trace out] in Ht, Ho.
      exists w', ([OpExists (bak (tpath f)); OpCopy (bak (tpath f)) (tpath f)]
                  ++ tr), ([LogRestored (tlabel f)] ++ ls).
      split; [exact E|]. rewrite Ht, Ho, <- !app_assoc.
      split; [reflexivity|]. split.
      { constructor; [exact I|]. constructor; [reflexivity|exact Hu]. }
      split; [reflexivity|].
      intros lab q Hin. apply elem_of_cons in Hin as [Hin|Hin];
        [discriminate|]. destruct (Hl _ _ Hin).
    + rewrite (revertFile_without_backup _ _ _ Eb).
      match goal with
      | |- context [forEach _ t ?w1] =>
          destruct (IH w1) as (w' & tr & ls & E & Ht & Hu & Ho & Hl)
      end.
      cbn [trace out] in Ht, Ho.
      exists w', ([OpExists (bak (tpath f))] ++ tr),
        ([LogNoBackup (tlabel f)] ++ ls).
      split; [exact E|]. rewrite Ht, Ho, <- !app_assoc.
      split; [reflexivity|]. split; [constructor; [exact I|exact Hu]|].
      split; [reflexivity|].
      intros lab q Hin. apply elem_of_cons in Hin as [Hin|Hin];
        [discriminate|]. destruct (Hl _ _ Hin).
Qed.

Lemma main_revert_run fs w :
  exists w' tr ls,
    main_revert fs w = Some (tt, w') /\
    trace w' = trace w ++ tr /\ Forall is_undo tr /\
    out w' = out w ++ ls /\
    forall lab q, LogFileNotFound lab q ∉ ls.
Proof.
  destruct (forEach_revert_run fs w) as (w1 & tr & ls & E & Ht & Hu & Ho & Hl).
  unfold main_revert, bind. rewrite E. unfold log.
  eexists. exists tr, (ls ++ [LogRestoredAll]). split; [reflexivity|].
  cbn [trace out]. split; [exact Ht|]. split; [exact Hu|].
  rewrite Ho, <- app_assoc. split; [reflexivity|].
  intros lab q Hin. apply elem_of_app in Hin as [Hin|Hin].
  - destruct (Hl _ _ Hin).
  - apply list_elem_of_singleton in Hin. discriminate.
Qed.

Lemma main_apply_lines h base w w' :
  is_Some (files w !! workbench_of h base) ->
  main_apply (targets h base) w = Some (tt, w') ->
  exists ls,
    out w' = out w ++ ls /\
    forall q, LogFileNotFound "workbench" q ∉ ls.
Proof.
  intros [c Hc]. unfold main_apply, targets, every, bind. cbn [tpath tlabel].
  destruct (patchFile (workbench_of h base) "workbench" w)
    as [[b1 w1]|] eqn:E1; [|discriminate].
  apply patchFile_lines in E1 as (ls1 & Ho1 & Hl1).
  assert (Hn1 : forall q, LogFileNotFound "workbench" q ∉ ls1).
  { intros q Hin. apply Hl1 in Hin as [_ Hnone]. congruence. }
  destruct b1.
  - destruct (patchFile (jetski_of h base) "jetskiAgent" w1)
      as [[b2 w2]|] eqn:E2; [|discriminate].
    apply patchFile_lines in E2 as (ls2 & Ho2 & Hl2).
    assert (Hend : forall m,
              (forall q, m <> LogFileNotFound "workbench" q) ->
              log m w2 = Some (tt, w') ->
              exists ls, out w' = out w ++ ls /\
                         forall q, LogFileNotFound "workbench" q ∉ ls).
    { intros m Hm [= <-]. cbn [out]. exists (ls1 ++ ls2 ++ [m]).
      rewrite Ho2, Ho1, <- !app_assoc. split; [reflexivity|].
      intros q Hin. apply elem_of_app in Hin as [Hin|Hin];
        [exact (Hn1 _ Hin)|].
      apply elem_of_app in Hin as [Hin|Hin].
      - apply Hl2 in Hin as [Hlab _]. discriminate.
      - apply list_elem_of_singleton in Hin. exact (Hm _ (eq_sym Hin)). }
    destruct b2; unfold ret; apply Hend; discriminate.
  - unfold ret, log. intros [= <-]. cbn [out].
    exists (ls1 ++ [LogSomeFailed]). rewrite Ho1, <- app_assoc.
    split; [reflexivity|].
    intros q Hin. apply elem_of_app in Hin as [Hin|Hin];
      [exact (Hn1 _ Hin)|].
    apply list_elem_of_singleton in Hin. discriminate.
Qed.

Lemma main_switch_lines h a base s0 s1 :
  is_Some (disk s0 !! workbench_of h base) ->
  main_switch a (targets h base) s0 = Some (tt, s1) ->
  exists ls,
    console s1 = console s0 ++ ls /\
    (Noted (CheckNotFound "workbench") ∉ ls) /\
    forall q, Said (LogFileNotFound "workbench" q) ∉ ls.
Proof.
  intros Hw. destruct a; unfold main_switch.
  - (* apply *)
    intros H. apply lift_inv in H as (w' & E & ->).
    apply (main_apply_lines h base) in E as (ls & Ho & Hl); [|exact Hw].
    cbn [out app] in Ho. subst ls. cbn [console].
    eexists. split; [reflexivity|]. split.
    + intros Hin. apply list_elem_of_In, in_map_iff in Hin as (m & [=] & _).
    + intros q Hin.
      apply list_elem_of_In, in_map_iff in Hin as (m & [= ->] & Hm).
      apply list_elem_of_In in Hm. exact (Hl _ Hm).
  - (* check *)
    unfold targets, forEach_, andThen. cbn [tpath tlabel].
    destruct (checkFile (workbench_of h base) "workbench" s0)
      as [[b1 sa]|] eqn:E1; [|discriminate].
    apply checkFile_lines in E1 as (Hd1 & _ & ls1 & Hc1 & Hs1 & Hn1).
    destruct (checkFile (jetski_of h base) "jetskiAgent" sa)
      as [[b2 sb]|] eqn:E2; [|discriminate].
    apply checkFile_lines in E2 as (Hd2 & _ & ls2 & Hc2 & Hs2 & Hn2).
    unfold done. intros [= <-]. exists (ls1 ++ ls2).
    rewrite Hc2, Hc1, <- app_assoc. split; [reflexivity|]. split.
    + intros Hin. apply elem_of_app in Hin as [Hin|Hin].
      * apply Hn1 in Hin as [_ Hnone]. destruct Hw as [c Hc]. congruence.
      * apply Hn2 in Hin as [Hlab _]. discriminate.
    + intros q Hin. apply elem_of_app in Hin as [Hin|Hin].
      * exact (Hs1 _ _ Hin).
      * exact (Hs2 _ _ Hin).
  - (* revert *)
    intros H. apply lift_inv in H as (w' & E & ->).
    destruct (main_revert_run (targets h base)
                (World (disk s0) (calls s0) []))
      as (w2 & tr & ls & E2 & _ & _ & Ho & Hl).
    rewrite E in E2. injection E2 as <-.
    cbn [out app] in Ho. subst ls. cbn [console].
    eexists. split; [reflexivity|]. split.
    + intros Hin. apply list_elem_of_In, in_map_iff in Hin as (m & [=] & _).
    + intros q Hin.
      apply list_elem_of_In, in_map_iff in Hin as (m & [= ->] & Hm).
      apply list_elem_of_In in Hm. exact (Hl _ _ Hm).
Qed.

(** X16.  [main] never reports the workbench bundle as missing.  The
    directory it works on has passed [isAntigravityDir], which tests for
    that very file, and nothing in between removes a file; so whatever the
    arguments, the host and the store, neither the line [File not found] of
    [patchFile] nor the line [Not found] of [checkFile] is printed for the
    first target. *)
Theorem workbench_never_reported_missing h fuel args s code s' :
  main h fuel args s = Some (code, s') ->
  (Noted (CheckNotFound "workbench") ∉ new_lines s s') /\
  forall q, Said (LogFileNotFound "workbench" q) ∉ new_lines s s'.
Proof.
  intros H. apply main_run in H
    as (tr & Htr & [(-> & ls & -> & Hls)
                   |(-> & base & v & tr2 & s1 & Ht & Hw & Hq & Es & ->)]).
  - unfold new_lines. cbn [console]. rewrite drop_app_length.
    assert (Hin : forall l, l ∈ map Noted (banner ++ ls) ->
              exists n, l = Noted n /\ n ∈ banner ++ ls).
    { intros l Hl. apply list_elem_of_In, in_map_iff in Hl as (n & <- & Hn).
      apply list_elem_of_In in Hn. eauto. }
    split.
    + intros Hl. apply Hin in Hl as (n & [= <-] & Hn).
      apply elem_of_app in Hn as [Hn|Hn].
      * unfold banner in Hn.
        repeat (apply elem_of_cons in Hn as [Hn|Hn]; [discriminate|]).
        apply elem_of_nil in Hn. contradiction.
      * destruct Hls as [->|[e ->]]; unfold not_installed in *;
          repeat (apply elem_of_cons in Hn as [Hn|Hn]; [discriminate|]);
          apply elem_of_nil in Hn; contradiction.
    + intros q Hl. apply Hin in Hl as (n & [=] & _).
  - apply (main_switch_lines h) in Es as (ls & Hc & Hn & Hs); [|exact Hw].
    cbn [console] in Hc. unfold new_lines. rewrite Hc, <- app_assoc.
    rewrite drop_app_length.
    assert (Hin : forall l,
              l ∈ map Noted (banner ++ [Location base; Version v; Blank]) ->
              exists n, l = Noted n /\
                        n ∈ banner ++ [Location base; Version v; Blank]).
    { intros l Hl. apply list_elem_of_In, in_map_iff in Hl as (n & <- & Hn').
      apply list_elem_of_In in Hn'. eauto. }
    split.
    + intros Hl. apply elem_of_app in Hl as [Hl|Hl]; [|exact (Hn Hl)].
      apply Hin in Hl as (n & [= <-] & Hn').
      unfold banner in Hn'. cbn [app] in Hn'.
      repeat (apply elem_of_cons in Hn' as [Hn'|Hn']; [discriminate|]).
      apply elem_of_nil in Hn'. contradiction.
    + intros q Hl. apply elem_of_app in Hl as [Hl|Hl]; [|exact (Hs _ Hl)].
      apply Hin in Hl as (n & [=] & _).
Qed.

Lemma workbench_never_reported_missing_witness :
  exists code s',
    main linux 5 [] linux_install = Some (code, s') /\
    (Noted (CheckNotFound "workbench") ∉ new_lines linux_install s') /\
    forall q,
      Said (LogFileNotFound "workbench" q) ∉ new_lines linux_install s'.
Proof.
  destruct (main linux 5 [] linux_install) as [[code s']|] eqn:E;
    [|vm_compute in E; discriminate].
  exists code, s'. split; [reflexivity|].
  exact (workbench_never_reported_missing linux 5 [] linux_install code s' E).
Defined.

Lemma main_check_run h fuel args s code s' :
  has_arg "--check" args = true ->
  has_arg "--revert" args = false ->
  main h fuel args s = Some (code, s') ->
  disk s' = disk s /\
  exists tr, calls s' = calls s ++ tr /\ Forall is_query tr.
Proof.
  intros Hc Hr H.
  assert (Ha : action_of args = ActCheck).
  { unfold action_of. rewrite Hr, Hc. reflexivity. }
  assert (Hex : forall tr, Forall is_exists tr -> Forall is_query tr).
  { intros tr Hall. eapply Forall_impl; [exact Hall|].
    intros []; simpl; auto. }
  apply main_run in H
    as (tr & Htr & [(-> & ls & -> & Hls)
                   |(-> & base & v & tr2 & s1 & Ht & Hw & Hq & Es & ->)]).
  - cbn [disk calls]. split; [reflexivity|]. exists tr. auto.
  - rewrite Ha in Es. unfold main_switch in Es.
    match type of Es with
    | forEach_ _ ?fs ?s0 = _ =>
        destruct (forEach_check fs s0) as (s2 & E2 & Hd & tr3 & Hc3 & Hq3)
    end.
    rewrite Es in E2. injection E2 as <-.
    cbn [disk calls] in Hd, Hc3. split; [exact Hd|].
    exists (tr ++ tr2 ++ tr3). rewrite Hc3, <- !app_assoc.
    split; [reflexivity|]. repeat (apply Forall_app; split); auto.
Qed.

(** X17.  With [--check] and without [--revert], [main] changes no file:
    whatever is installed and wherever, the store at the end is the store
    at the start, and every call to [fs] was an existence test or a
    read. *)
Theorem check_mode_changes_nothing h fuel args s code s' :
  has_arg "--check" args = true ->
  has_arg "--revert" args = false ->
  main h fuel args s = Some (code, s') ->
  disk s' = disk s /\ Forall is_query (new_calls s s').
Proof.
  intros Hc Hr H.
  destruct (main_check_run _ _ _ _ _ _ Hc Hr H) as (Hd & tr & Ht & Hq).
  split; [exact Hd|]. unfold new_calls. rewrite Ht, drop_app_length.
  exact Hq.
Qed.

Lemma check_mode_changes_nothing_witness :
  exists s',
    main linux 5 ["--check"] linux_install = Some (0%Z, s') /\
    disk s' = disk linux_install /\
    Forall is_query (new_calls linux_install s').
Proof.
  destruct (main linux 5 ["--check"] linux_install) as [[code s']|] eqn:E;
    [|vm_compute in E; discriminate].
  assert (Hc : code = 0%Z) by (vm_compute in E; congruence). subst code.
  exists s'. split; [reflexivity|].
  exact (check_mode_changes_nothing linux 5 ["--check"] linux_install 0%Z s'
           ltac:(vm_compute; reflexivity) ltac:(vm_compute; reflexivity) E).
Defined.

(** X18.  [--revert] has priority over every other flag, and a revert
    never patches: when [--revert] is among the arguments, whatever else
    is, [main] writes no text of its own; every call is a query or a copy
    from a backup to its file. *)
Theorem revert_mode_never_patches h fuel args s code s' :
  has_arg "--revert" args = true ->
  main h fuel args s = Some (code, s') ->
  Forall is_undo (new_calls s s').
Proof.
  intros Hr H.
  assert (Ha : action_of args = ActRevert).
  { unfold action_of. rewrite Hr. reflexivity. }
  assert (Hex : forall tr, Forall is_exists tr -> Forall is_undo tr).
  { intros tr Hall. eapply Forall_impl; [exact Hall|].
    intros []; simpl; auto; contradiction. }
  assert (Hqu : forall tr, Forall is_query tr -> Forall is_undo tr).
  { intros tr Hall. eapply Forall_impl; [exact Hall|].
    intros []; simpl; auto; contradiction. }
  apply main_run in H
    as (tr & Htr & [(-> & ls & -> & Hls)
                   |(-> & base & v & tr2 & s1 & Ht & Hw & Hq & Es & ->)]).
  - unfold new_calls. cbn [calls]. rewrite drop_app_length. apply Hex, Htr.
  - rewrite Ha in Es. unfold main_switch in Es.
    apply lift_inv in Es as (w' & E & ->).
    match type of E with
    | main_revert ?fs ?w0 = _ =>
        destruct (main_revert_run fs w0) as (w2 & tr3 & ls & E2 & Ht3 & Hu & _)
    end.
    rewrite E in E2. injection E2 as <-. cbn [trace calls] in Ht3.
    unfold new_calls. cbn [calls]. rewrite Ht3, <- !app_assoc, drop_app_length.
    repeat (apply Forall_app; split); auto.
Qed.

Lemma revert_mode_never_patches_witness :
  exists s',
    main linux 5 ["--check"; "--revert"] linux_install = Some (0%Z, s') /\
    Forall is_undo (new_calls linux_install s').
Proof.
  destruct (main linux 5 ["--check"; "--revert"] linux_install)
    as [[code s']|] eqn:E; [|vm_compute in E; discriminate].
  assert (Hc : code = 0%Z) by (vm_compute in E; congruence). subst code.
  exists s'. split; [reflexivity|].
  exact (revert_mode_never_patches linux 5 ["--check"; "--revert"]
           linux_install 0%Z s' ltac:(vm_compute; reflexivity) E).
Defined.

(** ** Termination *)




(** ** The [--path] flag *)

Lemma arg_index_spec x args : forall i,
  arg_index x args = Some i <->
  exists pre post, args = pre ++ x :: post /\ (x ∉ pre) /\ length pre = i.
Proof.
  induction args as [|a args IH]; intros i; simpl.
  - split; [discriminate|]. intros (pre & post & E & _).
    destruct pre; discriminate.
  - case_bool_decide as Ha.
    + subst a. split.
      * intros [= <-]. exists [], args. split; [reflexivity|].
        split; [apply not_elem_of_nil|reflexivity].
      * intros (pre & post & E & Hn & <-). destruct pre as [|b pre].
        -- reflexivity.
        -- injection E as -> _. destruct Hn. apply list_elem_of_here.
    + split.
      * destruct (arg_index x args) as [j|] eqn:Ej; [|discriminate].
        intros [= <-]. destruct (proj1 (IH j) eq_refl)
          as (pre & post & -> & Hn & <-).
        exists (a :: pre), post. split; [reflexivity|].
        split; [|reflexivity].
        intros Hin. apply elem_of_cons in Hin as [->|Hin]; auto.
      * intros (pre & post & E & Hn & <-). destruct pre as [|b pre].
        -- injection E as -> _. contradiction.
        -- injection E as -> ->.
           assert (Hi : arg_index x (pre ++ x :: post) = Some (length pre)).
           { apply IH. exists pre, post. split; [reflexivity|].
             split; [|reflexivity].
             intros Hin. apply Hn. apply list_elem_of_further. exact Hin. }
           rewrite Hi. reflexivity.
Qed.

(** X20.  The path taken from the command line is the argument that
    follows the first [--path], resolved, when that argument exists and is
    not empty.  A [--path] at the end of the arguments, or followed by the
    empty string, is ignored without a message, and a second [--path] is
    never looked at. *)
Theorem explicit_path_is_after_first_flag h args e :
  explicitPath h args = Some e <->
  exists pre v post,
    args = pre ++ "--path" :: v :: post /\ ("--path" ∉ pre) /\
    v <> "" /\ e = path_resolve h v.
Proof.
  unfold explicitPath. split.
  - destruct (arg_index "--path" args) as [i|] eqn:Ei; [|discriminate].
    apply arg_index_spec in Ei as (pre & post & -> & Hn & <-).
    rewrite lookup_app_r by lia.
    replace (length pre + 1 - length pre) with 1 by lia.
    destruct post as [|v post]; [discriminate|]. simpl.
    unfold truthy. case_bool_decide as Hv; [|discriminate].
    intros [= <-]. exists pre, v, post. auto.
  - intros (pre & v & post & -> & Hn & Hv & ->).
    assert (Ei : arg_index "--path" (pre ++ "--path" :: v :: post)
                 = Some (length pre)).
    { apply arg_index_spec. exists pre, (v :: post). auto. }
    rewrite Ei, lookup_app_r by lia.
    replace (length pre + 1 - length pre) with 1 by lia. simpl.
    unfold truthy. rewrite bool_decide_eq_true_2 by exact Hv. reflexivity.
Qed.

(** X21.  A [--path] that does not hold the workbench bundle ends the run:
    [main] prints the two lines about the path and exits with status 1
    after a single existence test.  It does not fall back on the search
    for an installation, even where that search would find one. *)
Theorem bad_explicit_path_ends_run h fuel args s e :
  explicitPath h args = Some e ->
  e <> "" ->
  disk s !! workbench_of h e = None ->
  main h fuel args s =
  Some (1%Z,
        Process (disk s) (calls s ++ [OpExists (workbench_of h e)])
                (console s
                 ++ map Noted (banner ++ [BadPath e; ExpectedToFind]))).
Proof.
  intros He Hne Hw. unfold main. cbv zeta. rewrite He.
  unfold andThen at 1. rewrite say_all_run. cbn [found or_empty].
  unfold truthy at 1. rewrite bool_decide_eq_true_2 by exact Hne.
  unfold andThen at 1, lift, isAntigravityDir.
  unfold truthy. rewrite bool_decide_eq_true_2 by exact Hne. cbn [negb].
  unfold existsSync, record. cbn [disk calls console files trace out].
  rewrite Hw.
  rewrite bool_decide_eq_false_2 by (intros [? ?]; discriminate).
  cbn [negb map]. rewrite app_nil_r.
  unfold andThen, say_all, done. cbn [disk calls console].
  rewrite map_app, app_assoc. reflexivity.
Qed.

Lemma bad_explicit_path_ends_run_witness :
  exists s',
    explicitPath linux ["--path"; "/tmp"] = Some "/tmp" /\
    disk linux_install !! workbench_of linux "/tmp" = None /\
    main linux 5 ["--path"; "/tmp"] linux_install = Some (1%Z, s') /\
    calls s' = [OpExists (workbench_of linux "/tmp")].
Proof.
  assert (H1 : explicitPath linux ["--path"; "/tmp"] = Some "/tmp")
    by (vm_compute; reflexivity).
  assert (H2 : disk linux_install !! workbench_of linux "/tmp" = None)
    by (vm_compute; reflexivity).
  eexists. split; [exact H1|]. split; [exact H2|].
  split;
    [exact (bad_explicit_path_ends_run linux 5 ["--path"; "/tmp"]
              linux_install "/tmp" H1 ltac:(discriminate) H2)|].
  reflexivity.
Defined.

(** * Properties of the command line *)

Lemma cli_help_run h s :
  exists ls,
    cli_help h s = Some (0%Z, Process (disk s) (calls s)
                                      (console s ++ map Noted ls)).
Proof. eexists. reflexivity. Qed.

(** X22.  Only the name [auto-run] reaches the patch script.  For any
    other first argument the command returns and the store is as before.
    For a name that the table of fixes inherits, such as [constructor],
    the entry has no script: the command calls [fs.existsSync(undefined)],
    which is its only call, and ends with status 1.  For no argument, a
    help flag or a name that is not in the table, it makes no call to [fs]
    at all; its status is 0 for the help and 1 otherwise. *)
Theorem cli_other_names_touch_nothing h fuel args s :
  head args <> Some "auto-run" ->
  exists code s',
    cli h fuel args s = Some (code, s') /\
    disk s' = disk s /\
    new_calls s s'
    = (if inherited_name args then [OpExistsUndefined] else []) /\
    (code = 0%Z \/ code = 1%Z) /\
    (code = 0%Z <->
     args = [] \/ head args = Some "" \/ head args = Some "--help"
     \/ head args = Some "-h").
Proof.
  intros Hn. unfold cli. unfold andThen at 1. rewrite say_all_run.
  unfold new_calls.
  destruct args as [|fixName flags].
  { destruct (cli_help_run h
                (Process (disk s) (calls s)
                   (console s ++ map Noted [Blank; CliTitle; CliUrl; Blank])))
      as (ls & ->).
    do 2 eexists. split; [reflexivity|]. cbn [disk calls inherited_name head].
    split; [reflexivity|]. split; [apply drop_all|].
    repeat (split; auto). }
  cbn [head] in *. unfold inherited_name. cbn [head].
  destruct (negb (truthy fixName) || bool_decide (fixName = "--help")
            || bool_decide (fixName = "-h")) eqn:Eh.
  { match goal with
    | |- context [cli_help h ?s0] =>
        destruct (cli_help_run h s0) as (ls & ->)
    end.
    assert (Hhelp : fixName = "" \/ fixName = "--help" \/ fixName = "-h").
    { apply orb_prop in Eh as [Eh|Eh];
        [apply orb_prop in Eh as [Eh|Eh]|].
      - left. unfold truthy in Eh. apply negb_true_iff in Eh.
        apply bool_decide_eq_false in Eh.
        destruct (decide (fixName = "")) as [->|]; [reflexivity|contradiction].
      - right. left. apply bool_decide_eq_true in Eh. exact Eh.
      - right. right. apply bool_decide_eq_true in Eh. exact Eh. }
    do 2 eexists. split; [reflexivity|]. cbn [disk calls].
    split; [reflexivity|]. split.
    { rewrite drop_all.
      destruct Hhelp as [->|[->| ->]]; vm_compute; reflexivity. }
    split; [auto|]. split; [|reflexivity]. intros _. right.
    destruct Hhelp as [->|[->| ->]]; auto. }
  assert (Hnot : ~ (fixName :: flags = [] \/ Some fixName = Some ""
                    \/ Some fixName = Some "--help"
                    \/ Some fixName = Some "-h")).
  { apply orb_false_elim in Eh as [Eh E3].
    apply orb_false_elim in Eh as [E1 E2].
    apply bool_decide_eq_false in E2, E3. apply negb_false_iff in E1.
    unfold truthy in E1. apply bool_decide_eq_true in E1.
    intros [H|[H|[H|H]]]; [discriminate|injection H as ->..]; auto. }
  unfold get_fix, fixes, own.
  rewrite bool_decide_eq_false_2 by (intros <-; apply Hn; reflexivity).
  destruct (bool_decide (fixName ∈ object_prototype)).
  - unfold andThen, lift, existsSync_undefined, record, say, done.
    cbn [disk calls console files trace out map].
    do 2 eexists. split; [reflexivity|]. cbn [disk calls].
    split; [reflexivity|]. split; [apply drop_app_length|].
    split; [auto|]. split; [discriminate|].
    intros H. destruct Hnot. exact H.
  - do 2 eexists. split; [reflexivity|]. cbn [disk calls].
    split; [reflexivity|]. split; [apply drop_all|].
    split; [auto|]. split; [discriminate|].
    intros H. destruct Hnot. exact H.
Qed.

Lemma cli_other_names_touch_nothing_witness :
  exists s',
    cli linux 5 ["constructor"; "--revert"] linux_install = Some (1%Z, s') /\
    disk s' = disk linux_install /\
    new_calls linux_install s' = [OpExistsUndefined].
Proof.
  destruct (cli_other_names_touch_nothing linux 5 ["constructor"; "--revert"]
              linux_install ltac:(discriminate))
    as (code & s' & E & Hd & Hc & _ & Hz).
  assert (code = 1%Z) as ->.
  { vm_compute in E. congruence. }
  exists s'. auto.
Defined.

(** X23.  Through the command line too, checking changes nothing.  When
    the first argument is [auto-run] and the flags hold [--check] and not
    [--revert], the store at the end is the store at the start and every
    call was an existence test or a read, whether or not the patch script
    or an installation is found. *)
Theorem cli_check_changes_nothing h fuel flags s code s' :
  has_arg "--check" flags = true ->
  has_arg "--revert" flags = false ->
  cli h fuel ("auto-run" :: flags) s = Some (code, s') ->
  disk s' = disk s /\ Forall is_query (new_calls s s').
Proof.
  intros Hc Hr. unfold cli. unfold andThen at 1. rewrite say_all_run.
  cbn [negb orb]. unfold truthy.
  rewrite bool_decide_eq_true_2 by discriminate.
  rewrite !bool_decide_eq_false_2 by discriminate. cbn [negb orb].
  unfold get_fix, fixes, own. rewrite bool_decide_eq_true_2 by reflexivity.
  unfold andThen at 1. rewrite lift_existsSync. cbn [disk calls console].
  destruct (bool_decide (is_Some (disk s !! fix_script h))); cbn [negb].
  - intros H.
    apply main_check_run in H as (Hd & tr & Ht & Hq); [|exact Hc|exact Hr].
    cbn [disk calls] in Hd, Ht. split; [exact Hd|].
    unfold new_calls. rewrite Ht, <- app_assoc, drop_app_length.
    constructor; [exact I|exact Hq].
  - unfold andThen, say, done. cbn [disk calls console].
    intros [= <- <-]. cbn [disk]. split; [reflexivity|].
    unfold new_calls. cbn [calls]. rewrite drop_app_length.
    repeat constructor.
Qed.

Lemma cli_check_changes_nothing_witness :
  exists s',
    cli linux 5 ["auto-run"; "--check"] packaged_install = Some (0%Z, s') /\
    disk s' = disk packaged_install /\
    Forall is_query (new_calls packaged_install s').
Proof.
  destruct (cli linux 5 ["auto-run"; "--check"] packaged_install)
    as [[code s']|] eqn:E; [|vm_compute in E; discriminate].
  assert (Hc : code = 0%Z) by (vm_compute in E; congruence). subst code.
  exists s'. split; [reflexivity|].
  exact (cli_check_changes_nothing linux 5 ["--check"] packaged_install 0%Z s'
           ltac:(vm_compute; reflexivity) ltac:(vm_compute; reflexivity) E).
Defined.

(** * Further properties of the analysis and of the backup *)

Lemma analyzeFile_lines content label log r :
  analyzeFile content label = Some (log, r) -> Forall is_analysis_line log.
Proof.
  rewrite analyzeFile_cases, extract_cases.
  destruct (re_match onChangeRe content) as [m|].
  2: { intros [= <- _]. repeat constructor. }
  cbv zeta.
  destruct (re_match (policyRe (group m 4)) _) as [pm|];
    [destruct (re_match secureRe _) as [sm|];
       [destruct (select_amended _ _ _)|]|];
    intros [= <- _]; repeat (apply Forall_app; split); repeat constructor.
Qed.

Lemma count_of_occurs pre tgt post :
  tgt <> [] -> (1 <= count_of (pre ++ tgt ++ post) tgt)%Z.
Proof.
  intros Hne. unfold count_of. rewrite split_nonempty by exact Hne.
  destruct (split_go_step tgt pre post [] Hne) as [u ->].
  pose proof (split_go_pos tgt (u ++ post) 0 []). lia.
Qed.

(** X25.  The count in the line [Target found N times (expected 1)] is
    never 0 or 1.  The target is the matched text, which occurs in the
    content it was matched in, so when [patchFile] refuses a file for
    ambiguity the text occurs at least twice; with the line goes the result
    [false] and an unchanged store. *)
Theorem ambiguity_means_at_least_two p label w b w' lab n :
  patchFile p label w = Some (b, w') ->
  LogAmbiguous lab n ∈ new_out w w' ->
  lab = label /\ (2 <= n)%Z /\ b = false /\ files w' = files w.
Proof.
  rewrite patchFile_cases.
  destruct (files w !! p) as [content|] eqn:Ep.
  2: { intros [= <- <-]. rewrite new_out_app. intros Hin.
       apply list_elem_of_singleton in Hin. discriminate. }
  cbv zeta. destruct (already_patched content).
  { intros [= <- <-]. rewrite new_out_app. intros Hin.
    apply list_elem_of_singleton in Hin. discriminate. }
  destruct (analyzeFile content label) as [[l [a|]]|] eqn:El; [| |discriminate].
  2: { intros [= <- <-]. rewrite new_out_app. intros Hin.
       apply analyzeFile_lines in El. rewrite Forall_forall in El.
       destruct (El _ Hin). }
  assert (Hl : LogAmbiguous lab n ∉ l).
  { intros Hin. apply analyzeFile_lines in El. rewrite Forall_forall in El.
    destruct (El _ Hin). }
  destruct (bool_decide (count_of content (target a) <> 1%Z)) eqn:Ec.
  - intros [= <- <-]. rewrite <- !app_assoc, new_out_app. intros Hin.
    apply elem_of_app in Hin as [Hin|Hin]; [destruct (Hl Hin)|].
    apply list_elem_of_singleton in Hin. injection Hin as -> ->.
    split; [reflexivity|]. split; [|auto].
    apply bool_decide_eq_true in Ec.
    apply analyzeFile_success in El as (s & He & ->).
    apply extract_tokens in He as (_ & m & Hm & Hfm & _).
    change (target (build s label)) with (fullMatch s) in *.
    rewrite Hfm in *.
    destruct (re_match_occurs _ _ _ Hm) as (pre & post & E).
    pose proof (re_match_nonempty_text _ _ Hm) as Hne.
    pose proof (count_of_occurs pre (mtext m) post Hne) as H1.
    rewrite <- E in H1. lia.
  - destruct (files w !! bak p); intros [= <- <-];
      rewrite <- !app_assoc, new_out_app; intros Hin;
      (apply elem_of_app in Hin as [Hin|Hin]; [destruct (Hl Hin)|]);
      repeat (apply elem_of_cons in Hin as [Hin|Hin]; [discriminate|]);
      apply elem_of_nil in Hin; contradiction.
Qed.

Lemma ambiguity_means_at_least_two_witness :
  exists w' n,
    patchFile "main.js" "workbench" twice_world = Some (false, w') /\
    LogAmbiguous "workbench" n ∈ new_out twice_world w' /\
    (2 <= n)%Z /\ files w' = files twice_world.
Proof.
  destruct (patchFile "main.js" "workbench" twice_world) as [[b w']|] eqn:E;
    [|vm_compute in E; discriminate].
  assert (Hb : b = false) by (vm_compute in E; congruence). subst b.
  assert (Hin : LogAmbiguous "workbench" 2 ∈ new_out twice_world w').
  { vm_compute in E. injection E as <-.
    unfold new_out. cbn [out twice_world one_file length drop].
    do 5 apply list_elem_of_further. apply list_elem_of_here. }
  destruct (ambiguity_means_at_least_two "main.js" "workbench" twice_world
              false w' "workbench" 2%Z E Hin) as (_ & Hn & _ & Hf).
  exists w', 2%Z. auto.
Defined.

(** X26.  Revert gives back the first backup, not the latest original.
    Once a backup exists it is never refreshed, so after any number of
    applies, with the live file replaced or removed from outside before
    each of them (an update of the IDE, say), [revertFile] puts back the
    text that the backup held at the start. *)
Theorem revert_restores_first_backup p label w bk edits :
  files w !! bak p = Some bk ->
  exists w1 w2,
    reapply p label edits w = Some w1 /\
    revertFile p label w1 = Some (tt, w2) /\
    files w2 !! p = Some bk /\
    files w2 !! bak p = Some bk.
Proof.
  intros Hb.
  destruct (reapply_keeps_backup p label bk edits w Hb)
    as (w1 & tr & E & _ & _ & Hb1).
  exists w1. eexists. split; [exact E|].
  split; [apply (revertFile_with_backup _ _ _ _ Hb1)|].
  cbn [files]. split; [apply lookup_insert_eq|].
  rewrite lookup_insert_ne by bak_ne. exact Hb1.
Qed.

Lemma revert_restores_first_backup_witness :
  exists w1 w2,
    files backed_up_world !! bak "main.js" = Some (lit "original") /\
    reapply "main.js" "workbench" [Some twice_text; None; Some sample_text]
            backed_up_world = Some w1 /\
    revertFile "main.js" "workbench" w1 = Some (tt, w2) /\
    files w2 !! "main.js" = Some (lit "original").
Proof.
  assert (H : files backed_up_world !! bak "main.js" = Some (lit "original"))
    by (vm_compute; reflexivity).
  destruct (revert_restores_first_backup "main.js" "workbench"
              backed_up_world (lit "original")
              [Some twice_text; None; Some sample_text] H)
    as (w1 & w2 & E1 & E2 & Hp & _).
  exists w1, w2. auto.
Defined.

(** X27.  The analysis always returns.  Its two [exec] loops go on while
    a match is found; a match of the first pattern has at least 14 code
    units and a match of the second at least 18, so [lastIndex] moves
    forward at every round and the loops end on every input; the other
    steps are single searches. *)
Theorem analysis_always_ends content label :
  (min_len effectRe = 14 /\ min_len cleanupRe = 18) /\
  (forall s, is_Some (exec_all effectRe s) /\ is_Some (exec_all cleanupRe s))
  /\ exists log r, analyzeFile content label = Some (log, r).
Proof.
  split; [split; reflexivity|]. split.
  - intros s. split; apply exec_loop_total; simpl; lia.
  - destruct (analyzeFile_total content label) as [[log r] E]. eauto.
Qed.
